(** * EfficientNet backbone builder (vortex): a shallow embedding

    Source: [vortex/networks/modules/backbones/efficientnet.py].

    Conventions of the embedding.
    - Python [int] is [Z].  A Python [float] is a binary64 number: a
      finite one is kept as its exact value in [Q], and the arithmetic the
      code does on floats in [get_same_padding] and [_scale_stage_depth] is
      the correctly rounded one ([round64]: to the nearest double, ties to
      even, overflow to an infinity), with the exceptions Python raises when
      an [int] or a quotient of [int]s does not fit a float or an infinity
      is turned into an [int].  The float literals of the model functions
      are the doubles nearest to the decimals written ([float_lit]).  The
      drop-path rate handed to a block is kept as the exact quotient.
    - A raised exception is the [Raise] constructor of [result]; the kind of
      exception is kept.
    - Python [dict]s with string keys are [gmap string pyval].
    - [str] is [string], read as ASCII text.
    - Code imported from modules that are not part of the modelled file
      ([round_channels], [make_divisible]) and the builtin casts [int] and
      [float] are fields of the class [External]. *)

From Stdlib Require Import ZArith QArith Qround Qabs Qpower String Ascii List Lia Lqa Bool.
From stdpp Require Import gmap strings list fin_maps.

Local Open Scope string_scope.
Local Open Scope list_scope.
Local Open Scope Z_scope.

(** ** Exceptions *)

Inductive exn : Type :=
| AssertionError
| KeyError
| ValueError
| TypeError
| IndexError
| ZeroDivisionError
| OverflowError
| RuntimeError
| NotImplementedError.

Inductive result (A : Type) : Type :=
| Ok (a : A)
| Raise (e : exn).

Arguments Ok {A} a.
Arguments Raise {A} e.

Definition bind {A B : Type} (m : result A) (k : A -> result B) : result B :=
  match m with
  | Ok a => k a
  | Raise e => Raise e
  end.

Notation "x <- m ;; k" := (bind m (fun x => k))
  (at level 20, m at level 99, k at level 200, only parsing).
Notation "' p <- m ;; k" := (bind m (fun x => let 'p := x in k))
  (at level 20, p pattern, m at level 99, k at level 200, only parsing).

(** [assert c] *)
Definition py_assert (c : bool) : result unit :=
  if c then Ok tt else Raise AssertionError.

Definition is_ok {A} (m : result A) : bool :=
  match m with Ok _ => true | Raise _ => false end.

Definition fails {A} (m : result A) : Prop := exists e, m = Raise e.

(** [[f(x) for x in l]]: the first exception aborts the comprehension. *)
Fixpoint mapM {A B : Type} (f : A -> result B) (l : list A) : result (list B) :=
  match l with
  | [] => Ok []
  | x :: l' => y <- f x ;; ys <- mapM f l' ;; Ok (y :: ys)
  end.

(** ** Numbers *)

(** Python 3 [round(x)] on a float: to the nearest integer, ties to even. *)
Definition py_round (x : Q) : Z :=
  let f := Qfloor x in
  match ((x - inject_Z f) ?= (1 # 2))%Q with
  | Lt => f
  | Gt => f + 1
  | Eq => if Z.even f then f else f + 1
  end.

Definition Qgtb (x y : Q) : bool := negb (Qle_bool x y).

(** ** Binary64 arithmetic *)

(** A Python [float] other than a NaN: a finite double, kept as its exact
    value, or an infinity.  No operation below yields a NaN, its operands
    being finite. *)
Inductive float : Type :=
| Finite (q : Q)
| Infinity (negative : bool).

(** The exponent [e] of the grid of doubles around [q]: the doubles of the
    magnitude of [q] are the multiples of [2^e].  For a normal number
    [2^52 <= |q| / 2^e < 2^53]; below, [e] is that of the subnormal grid. *)
Definition binade (q : Q) : Z :=
  let t := Z.log2 (Z.abs (Qnum q)) - Z.log2 (Zpos (Qden q)) in
  let t := if Qle_bool (2 ^ t) (Qabs q) then t else t - 1 in
  Z.max (t - 52) (-1074).

(** Rounding of a real result to binary64: to the nearest double, ties to
    the even significand, and to an infinity from [2^1024] on. *)
Definition round64 (q : Q) : float :=
  let q := Qred q in
  let e := binade q in
  let m := py_round (Qabs q / 2 ^ e) in
  let v := (inject_Z m * 2 ^ e)%Q in
  if Qle_bool (2 ^ 1024) v then Infinity (Qnum q <? 0)
  else Finite (Qred (if Qnum q <? 0 then - v else v)).

(** The value of a float literal: the double nearest to the decimal
    written.  The literals of the modelled file are all finite. *)
Definition float_lit (q : Q) : Q :=
  match round64 q with
  | Finite v => v
  | Infinity _ => q
  end.

(** The conversion of an [int] operand of a float operation. *)
Definition float_of_int (n : Z) : result Q :=
  match round64 (inject_Z n) with
  | Finite q => Ok q
  | Infinity _ => Raise OverflowError
  end.

(** [a / b] on two [int]s: the correctly rounded quotient. *)
Definition int_truediv (a b : Z) : result Q :=
  if b =? 0 then Raise ZeroDivisionError
  else match round64 (inject_Z a / inject_Z b) with
       | Finite q => Ok q
       | Infinity _ => Raise OverflowError
       end.

(** [x * y] on two finite floats. *)
Definition float_mul (x y : Q) : float := round64 (x * y).

(** [math.ceil(x)] *)
Definition math_ceil (x : float) : result Z :=
  match x with
  | Finite q => Ok (Qceiling q)
  | Infinity _ => Raise OverflowError
  end.

(** [round(x)] on a float. *)
Definition round_float (x : float) : result Z :=
  match x with
  | Finite q => Ok (py_round q)
  | Infinity _ => Raise OverflowError
  end.

(** [math.ceil(a / b)] on integers. *)
Definition ceil_div (a b : Z) : result Z :=
  q <- int_truediv a b ;; math_ceil (Finite q).

(** ** Strings *)

Definition is_digit (c : ascii) : bool :=
  let n := nat_of_ascii c in (48 <=? n)%nat && (n <=? 57)%nat.

Definition lower_ascii (c : ascii) : ascii :=
  let n := nat_of_ascii c in
  if (65 <=? n)%nat && (n <=? 90)%nat then ascii_of_nat (n + 32) else c.

(** [s.lower()] *)
Fixpoint lower (s : string) : string :=
  match s with
  | EmptyString => EmptyString
  | String c s' => String (lower_ascii c) (lower s')
  end.

Definition cons_head (c : ascii) (l : list string) : list string :=
  match l with
  | [] => [String c EmptyString]
  | h :: t => String c h :: t
  end.

(** [s.split(sep)] for a one-character separator. *)
Fixpoint split (sep : ascii) (s : string) : list string :=
  match s with
  | EmptyString => [EmptyString]
  | String c s' =>
      if Ascii.eqb c sep then EmptyString :: split sep s'
      else cons_head c (split sep s')
  end.

(** [re.split] with the pattern of [_decode_str_def], a capturing group made
    of one digit followed by any run of characters: the pieces alternate between text outside a
    match and the captured match, which starts at a digit and runs to the end
    of the line ([.] does not match a newline).  [in_match] tells which kind
    of piece is being accumulated at the head of the result. *)
Fixpoint re_split_from (in_match : bool) (s : string) : list string :=
  match s with
  | EmptyString => if in_match then [EmptyString; EmptyString] else [EmptyString]
  | String c s' =>
      if in_match then
        if Ascii.eqb c "010"%char
        then EmptyString :: cons_head c (re_split_from false s')
        else cons_head c (re_split_from true s')
      else
        if is_digit c
        then EmptyString :: cons_head c (re_split_from true s')
        else cons_head c (re_split_from false s')
  end.

Definition re_split_digits (s : string) : list string := re_split_from false s.

(** ** Padding resolver *)

(** The [padding] argument: a mode string, or a number or pair handed on to
    the convolution. *)
Inductive padding_arg : Type :=
| PadStr (s : string)
| PadInt (p : Z)
| PadPair (p : Z * Z).

Definition get_padding (padding : padding_arg) (kernel_size stride dilation : Z)
  : padding_arg * bool :=
  let dynamic := false in
  match padding with
  | PadStr s =>
      let padding := lower s in
      if String.eqb padding "same" then
        if (stride =? 1) && ((dilation * (kernel_size - 1)) mod 2 =? 0)
        then (PadInt (((stride - 1) + dilation * (kernel_size - 1)) / 2), dynamic)
        else (PadInt 0, true)
      else if String.eqb padding "valid" then (PadInt 0, dynamic)
      else (PadInt (((stride - 1) + dilation * (kernel_size - 1)) / 2), dynamic)
  | _ => (padding, dynamic)
  end.

Definition get_same_padding (x k s d : Z) : result Z :=
  c <- ceil_div x s ;;
  let pad := (c - 1) * s + (k - 1) * d + 1 - x in
  Ok (Z.max pad 0).

(** A feature map is seen through its last two axes, as a matrix of rows. *)
Definition tensor : Type := list (list Z).

Definition shape_hw (x : tensor) : Z * Z :=
  (Z.of_nat (length x), Z.of_nat (length (hd [] x))).

(** [F.pad(x, [left, right, top, bottom])] with the default zero fill, for
    non-negative amounts. *)
Definition F_pad (x : tensor) (pad : list Z) : tensor :=
  match pad with
  | [l; r; t; b] =>
      let w := length (hd [] x) in
      let row := replicate (Z.to_nat l + w + Z.to_nat r)%nat 0 in
      (replicate (Z.to_nat t) row
        ++ map (fun xs => replicate (Z.to_nat l) 0 ++ xs ++ replicate (Z.to_nat r) 0) x
        ++ replicate (Z.to_nat b) row)%list
  | _ => x
  end.

Definition pad_same (x : tensor) (k s d : Z * Z) : result tensor :=
  let '(ih, iw) := shape_hw x in
  pad_h <- get_same_padding ih (fst k) (fst s) (fst d) ;;
  pad_w <- get_same_padding iw (snd k) (snd s) (snd d) ;;
  if (0 <? pad_h) || (0 <? pad_w)
  then Ok (F_pad x [pad_w / 2; pad_w - pad_w / 2; pad_h / 2; pad_h - pad_h / 2])
  else Ok x.


(** ** Python values and what the file imports *)

Inductive act_layer : Type := Swish | ReLU | ReLU6.

(** [dict(eps=..., momentum=...)] *)
Record norm_kwargs : Type := { eps : Q; momentum : Q }.

Inductive pyval : Type :=
| VBool (b : bool)
| VInt (z : Z)
| VFloat (q : Q)
| VStr (s : string)
| VAct (a : act_layer)
| VNorm (n : norm_kwargs).

(** The builtin casts and the helpers of [..utils.arch_utils] and
    [torch.hub], none of which is defined in the modelled file.
    [round_channels channel multiplier divisor channel_min];
    [make_divisible v divisor];
    [load_pretrained url] stands for fetching the state dictionary and
    loading it strictly into the model. *)
Class External : Type := {
  py_int : string -> result Z;
  py_float : string -> result Q;
  round_channels : Z -> Q -> Z -> option Z -> Z;
  make_divisible : Q -> Z -> Z;
  load_pretrained : string -> result unit
}.

(** ** Layers *)

(** [nn.Conv2d], or [Conv2dSame] when [conv_same] is set; [Conv2dSame]
    hands padding 0 to its parent class. *)
Record conv2d : Type := {
  conv_same : bool;
  in_channels : Z;
  out_channels_ : Z;
  kernel_size : Z;
  conv_stride : Z;
  conv_padding : padding_arg;
  conv_dilation : Z;
  conv_groups : Z;
  conv_bias : bool
}.

Definition create_conv2d (in_channel out_channel kernel_size stride dilation : Z)
    (padding : padding_arg) (bias depthwise : bool) : conv2d :=
  let '(padding, is_dynamic) := get_padding padding kernel_size stride dilation in
  let groups := if depthwise then in_channel else 1 in
  {| conv_same := is_dynamic;
     in_channels := in_channel;
     out_channels_ := out_channel;
     kernel_size := kernel_size;
     conv_stride := stride;
     conv_padding := if is_dynamic then PadInt 0 else padding;
     conv_dilation := dilation;
     conv_groups := groups;
     conv_bias := bias |}.

Record SqueezeExcite : Type := {
  se_reduced_chs : Z;
  se_conv_reduce : conv2d;
  se_act1 : act_layer;
  se_conv_expand : conv2d
}.

Definition plain_conv (i o k : Z) (bias : bool) : conv2d :=
  {| conv_same := false; in_channels := i; out_channels_ := o; kernel_size := k;
     conv_stride := 1; conv_padding := PadInt 0; conv_dilation := 1;
     conv_groups := 1; conv_bias := bias |}.

Definition SqueezeExcite_init `{External} (in_channel : Z) (se_ratio : Q)
    (reduced_base_chs : option Z) (act : act_layer) (divisor : Z) : SqueezeExcite :=
  let base := match reduced_base_chs with
              | Some b => if b =? 0 then in_channel else b
              | None => in_channel
              end in
  let reduced_chs := make_divisible (inject_Z base * se_ratio)%Q divisor in
  {| se_reduced_chs := reduced_chs;
     se_conv_reduce := plain_conv in_channel reduced_chs 1 true;
     se_act1 := act;
     se_conv_expand := plain_conv reduced_chs in_channel 1 true |}.

Inductive module : Type :=
| Conv (c : conv2d)
| BatchNorm2d (num_features : Z) (kw : option norm_kwargs)
| Act (a : act_layer)
| SE (se : SqueezeExcite)
| Identity
| DropPath (p : Q)
| AdaptiveAvgPool2d (output_size : Z)
| Flatten (start_dim : Z)
| Dropout (p : Q)
| Linear (in_features out_features : Z).

(** The value computed by a forward pass, as the term of the layer
    applications that produce it. *)
Inductive expr : Type :=
| Input
| App (m : module) (x : expr)
| Add (x residual : expr).

(** The typed constructor arguments shared by the three block classes, after
    the keyword arguments have been bound and the defaults filled in. *)
Record block_args : Type := {
  a_in_channel : Z;
  a_out_channel : Z;
  a_kernel_size : Z;
  a_stride : Z;
  a_se_ratio : Q;
  a_pad_type : padding_arg;
  a_act_layer : act_layer;
  a_noskip : bool;
  a_exp_ratio : Q;
  a_mid_channel : Z;
  a_drop_path_rate : Q;
  a_norm_kwargs : option norm_kwargs
}.

Definition make_drop_path (drop_path_rate : Q) : module :=
  if Qgtb drop_path_rate 0 then DropPath drop_path_rate else Identity.

Definition kernel_ok (k : Z) : bool := (k =? 3) || (k =? 5).

Module DepthwiseSeparableConv.

Record t : Type := {
  has_residual : bool;
  conv_dw : conv2d;
  bn1 : module;
  act1 : module;
  se : module;
  conv_pw : conv2d;
  bn2 : module;
  drop_path : module
}.

Definition init `{External} (a : block_args) : result t :=
  _ <- py_assert (kernel_ok (a_kernel_size a)) ;;
  let has_se := Qgtb (a_se_ratio a) 0 in
  Ok {| has_residual :=
          ((a_stride a =? 1) && (a_in_channel a =? a_out_channel a))
          && negb (a_noskip a);
        conv_dw := create_conv2d (a_in_channel a) (a_in_channel a) (a_kernel_size a)
                     (a_stride a) 1 (a_pad_type a) false true;
        bn1 := BatchNorm2d (a_in_channel a) (a_norm_kwargs a);
        act1 := Act (a_act_layer a);
        se := if has_se
              then SE (SqueezeExcite_init (a_in_channel a) (a_se_ratio a)
                         (Some (a_in_channel a)) (a_act_layer a) 1)
              else Identity;
        conv_pw := create_conv2d (a_in_channel a) (a_out_channel a) 1 1 1
                     (a_pad_type a) false false;
        bn2 := BatchNorm2d (a_out_channel a) (a_norm_kwargs a);
        drop_path := make_drop_path (a_drop_path_rate a) |}.

(** The layers applied to the input before the skip connection. *)
Definition branch (b : t) (x : expr) : expr :=
  let x := App (Conv (conv_dw b)) x in
  let x := App (bn1 b) x in
  let x := App (act1 b) x in
  let x := App (se b) x in
  let x := App (Conv (conv_pw b)) x in
  App (bn2 b) x.

Definition forward (b : t) (x : expr) : expr :=
  let residual := x in
  let x := branch b x in
  if has_residual b then
    let x := App (drop_path b) x in
    Add x residual
  else x.

End DepthwiseSeparableConv.

Module InvertedResidualBlock.

Record t : Type := {
  has_residual : bool;
  conv_pw : conv2d;
  bn1 : module;
  act1 : module;
  conv_dw : conv2d;
  bn2 : module;
  act2 : module;
  se : module;
  conv_pwl : conv2d;
  bn3 : module;
  drop_path : module
}.

Definition init `{External} (a : block_args) : result t :=
  _ <- py_assert (kernel_ok (a_kernel_size a)) ;;
  let has_se := Qgtb (a_se_ratio a) 0 in
  let mid_chs := make_divisible (inject_Z (a_in_channel a) * a_exp_ratio a)%Q 8 in
  Ok {| has_residual :=
          ((a_in_channel a =? a_out_channel a) && (a_stride a =? 1))
          && negb (a_noskip a);
        conv_pw := create_conv2d (a_in_channel a) mid_chs 1 1 1 (a_pad_type a) false false;
        bn1 := BatchNorm2d mid_chs (a_norm_kwargs a);
        act1 := Act (a_act_layer a);
        conv_dw := create_conv2d mid_chs mid_chs (a_kernel_size a) (a_stride a) 1
                     (a_pad_type a) false true;
        bn2 := BatchNorm2d mid_chs (a_norm_kwargs a);
        act2 := Act (a_act_layer a);
        se := if has_se
              then SE (SqueezeExcite_init mid_chs (a_se_ratio a)
                         (Some (a_in_channel a)) (a_act_layer a) 1)
              else Identity;
        conv_pwl := create_conv2d mid_chs (a_out_channel a) 1 1 1 (a_pad_type a) false false;
        bn3 := BatchNorm2d (a_out_channel a) (a_norm_kwargs a);
        drop_path := make_drop_path (a_drop_path_rate a) |}.

Definition branch (b : t) (x : expr) : expr :=
  let x := App (Conv (conv_pw b)) x in
  let x := App (bn1 b) x in
  let x := App (act1 b) x in
  let x := App (Conv (conv_dw b)) x in
  let x := App (bn2 b) x in
  let x := App (act2 b) x in
  let x := App (se b) x in
  let x := App (Conv (conv_pwl b)) x in
  App (bn3 b) x.

Definition forward (b : t) (x : expr) : expr :=
  let residual := x in
  let x := branch b x in
  if has_residual b then
    let x := App (drop_path b) x in
    Add x residual
  else x.

End InvertedResidualBlock.

Module EdgeResidual.

Record t : Type := {
  has_residual : bool;
  conv_exp : conv2d;
  bn1 : module;
  act1 : module;
  se : module;
  conv_pwl : conv2d;
  bn2 : module;
  drop_path : module
}.

Definition init `{External} (a : block_args) : result t :=
  _ <- py_assert (kernel_ok (a_kernel_size a)) ;;
  let has_se := Qgtb (a_se_ratio a) 0 in
  let mid_channel :=
    if 0 <? a_mid_channel a
    then make_divisible (inject_Z (a_mid_channel a) * a_exp_ratio a)%Q 8
    else make_divisible (inject_Z (a_in_channel a) * a_exp_ratio a)%Q 8 in
  Ok {| has_residual :=
          ((a_in_channel a =? a_out_channel a) && (a_stride a =? 1))
          && negb (a_noskip a);
        conv_exp := create_conv2d (a_in_channel a) mid_channel (a_kernel_size a) 1 1
                      (a_pad_type a) false false;
        bn1 := BatchNorm2d mid_channel (a_norm_kwargs a);
        act1 := Act (a_act_layer a);
        se := if has_se
              then SE (SqueezeExcite_init mid_channel (a_se_ratio a)
                         (Some (a_in_channel a)) (a_act_layer a) 1)
              else Identity;
        conv_pwl := create_conv2d mid_channel (a_out_channel a) 1 (a_stride a) 1
                      (a_pad_type a) false false;
        bn2 := BatchNorm2d (a_out_channel a) (a_norm_kwargs a);
        drop_path := make_drop_path (a_drop_path_rate a) |}.

Definition branch (b : t) (x : expr) : expr :=
  let x := App (Conv (conv_exp b)) x in
  let x := App (bn1 b) x in
  let x := App (act1 b) x in
  let x := App (se b) x in
  let x := App (Conv (conv_pwl b)) x in
  App (bn2 b) x.

Definition forward (b : t) (x : expr) : expr :=
  let residual := x in
  let x := branch b x in
  if has_residual b then
    let x := App (drop_path b) x in
    Add x residual
  else x.

End EdgeResidual.

(** A constructed block: an instance of one of the three classes. *)
Inductive block : Type :=
| DS (b : DepthwiseSeparableConv.t)
| IR (b : InvertedResidualBlock.t)
| ER (b : EdgeResidual.t).

(** ** Keyword arguments *)

Definition kw_int (kw : gmap string pyval) (k : string) (default : result Z) : result Z :=
  match kw !! k with
  | Some (VInt z) => Ok z
  | Some _ => Raise TypeError
  | None => default
  end.

Definition kw_float (kw : gmap string pyval) (k : string) (default : Q) : result Q :=
  match kw !! k with
  | Some (VFloat q) => Ok q
  | Some (VInt z) => Ok (inject_Z z)
  | Some _ => Raise TypeError
  | None => Ok default
  end.

Definition kw_bool (kw : gmap string pyval) (k : string) (default : bool) : result bool :=
  match kw !! k with
  | Some (VBool b) => Ok b
  | Some _ => Raise TypeError
  | None => Ok default
  end.

Definition block_keys : list string :=
  ["in_channel"; "out_channel"; "kernel_size"; "stride"; "se_ratio"; "pad_type";
   "act_layer"; "noskip"; "exp_ratio"; "drop_path_rate"; "norm_kwargs"].

(** Binding the keyword arguments [layer_args] to the parameters of a block constructor whose
    keyword parameters are [keys]: a key outside the signature and a missing
    [in_channel] or [out_channel] are a [TypeError]; the other parameters
    take their defaults. *)
Definition bind_kwargs (keys : list string) (kw : gmap string pyval) : result block_args :=
  _ <- (if forallb (fun k => existsb (String.eqb k) keys) (map fst (map_to_list kw))
        then Ok tt else Raise TypeError) ;;
  in_channel <- kw_int kw "in_channel" (Raise TypeError) ;;
  out_channel <- kw_int kw "out_channel" (Raise TypeError) ;;
  kernel_size <- kw_int kw "kernel_size" (Ok 3) ;;
  stride <- kw_int kw "stride" (Ok 1) ;;
  se_ratio <- kw_float kw "se_ratio" 0%Q ;;
  pad_type <- match kw !! "pad_type" with
              | Some (VStr s) => Ok (PadStr s)
              | Some (VInt z) => Ok (PadInt z)
              | Some _ => Raise TypeError
              | None => Ok (PadStr "")
              end ;;
  act <- match kw !! "act_layer" with
         | Some (VAct a) => Ok a
         | Some _ => Raise TypeError
         | None => Ok ReLU
         end ;;
  noskip <- kw_bool kw "noskip" false ;;
  exp_ratio <- kw_float kw "exp_ratio" 1%Q ;;
  mid_channel <- kw_int kw "mid_channel" (Ok 0) ;;
  drop_path_rate <- kw_float kw "drop_path_rate" 0%Q ;;
  norm <- match kw !! "norm_kwargs" with
          | Some (VNorm n) => Ok (Some n)
          | Some _ => Raise TypeError
          | None => Ok None
          end ;;
  Ok {| a_in_channel := in_channel; a_out_channel := out_channel;
        a_kernel_size := kernel_size; a_stride := stride; a_se_ratio := se_ratio;
        a_pad_type := pad_type; a_act_layer := act; a_noskip := noskip;
        a_exp_ratio := exp_ratio; a_mid_channel := mid_channel;
        a_drop_path_rate := drop_path_rate; a_norm_kwargs := norm |}.

(** The call of [block_map[block_type]] with [layer_args] as its keyword
    arguments. *)
Definition construct `{External} (block_type : string) (kw : gmap string pyval)
  : result block :=
  if String.eqb block_type "ds" then
    a <- bind_kwargs block_keys kw ;; b <- DepthwiseSeparableConv.init a ;; Ok (DS b)
  else if String.eqb block_type "ir" then
    a <- bind_kwargs block_keys kw ;; b <- InvertedResidualBlock.init a ;; Ok (IR b)
  else if String.eqb block_type "er" then
    a <- bind_kwargs ("mid_channel" :: block_keys) kw ;;
    b <- EdgeResidual.init a ;; Ok (ER b)
  else Raise KeyError.

(** ** Parameters of a build *)

(** [(channel_multiplier, depth_multiplier, resolution, dropout_rate)] *)
Record arch_params : Type := {
  channel_multiplier : Q;
  depth_multiplier : Q;
  resolution : Z;
  dropout_rate : Q
}.

Record global_params : Type := {
  channel_divisor : Z;
  channel_min : option Z;
  drop_path_rate : Q;
  gp_act_layer : act_layer;
  pad_type : string;
  gp_norm_kwargs : norm_kwargs
}.

(** ** The decoder and the depth scaler *)

Inductive cast : Type := CastInt | CastFloat.

Definition apply_cast `{External} (c : cast) (s : string) : result pyval :=
  match c with
  | CastInt => z <- py_int s ;; Ok (VInt z)
  | CastFloat => q <- py_float s ;; Ok (VFloat q)
  end.

Definition args_map : gmap string (string * cast) :=
  list_to_map
    [("r", ("repeat", CastInt));
     ("k", ("kernel_size", CastInt));
     ("s", ("stride", CastInt));
     ("e", ("exp_ratio", CastFloat));
     ("m", ("mid_channel", CastInt));
     ("c", ("out_channel", CastInt));
     ("se", ("se_ratio", CastFloat))].

(** The body of the loop [for op in stage_data[1:]], threading [args] and
    [noskip]. *)
Fixpoint decode_ops `{External} (ops : list string) (args : gmap string pyval)
    (noskip : bool) : result (gmap string pyval * bool) :=
  match ops with
  | [] => Ok (args, noskip)
  | op :: ops' =>
      if String.eqb op "noskip" then decode_ops ops' args true
      else
        match re_split_digits op with
        | s0 :: s1 :: _ =>
            match args_map !! s0 with
            | Some (key, c) =>
                v <- apply_cast c s1 ;;
                decode_ops ops' (<[key := v]> args) noskip
            | None => Raise KeyError
            end
        | _ => Raise AssertionError
        end
  end.

Definition sum_Z (l : list Z) : Z := fold_right Z.add 0 l.

(** [round(r / num_repeat * num_repeat_scaled)]: the quotient of the two
    [int]s is a float, the scaled total is converted to one, and their
    product is rounded to an [int]. *)
Definition scaled_share (r num_repeat num_repeat_scaled : Z) : result Z :=
  q <- int_truediv r num_repeat ;;
  s <- float_of_int num_repeat_scaled ;;
  round_float (float_mul q s).

(** The first loop of [_scale_stage_depth], over the reversed repeats;
    [acc] is [repeats_scaled]. *)
Fixpoint scale_loop (rs : list Z) (num_repeat num_repeat_scaled : Z) (acc : list Z)
  : result (list Z) :=
  match rs with
  | [] => Ok acc
  | r :: rs' =>
      k <- scaled_share r num_repeat num_repeat_scaled ;;
      let rs_ := Z.max 1 k in
      scale_loop rs' (num_repeat - r) (num_repeat_scaled - rs_) (acc ++ [rs_])%list
  end.

(** [int(math.ceil(num_repeat * depth_multiplier))] *)
Definition num_repeat_scaled (depth_multiplier : Q) (repeats : list Z) : result Z :=
  n <- float_of_int (sum_Z repeats) ;;
  math_ceil (float_mul n depth_multiplier).

(** [repeats_scaled] as [_scale_stage_depth] computes it. *)
Definition repeats_scaled (depth_multiplier : Q) (repeats : list Z) : result (list Z) :=
  total <- num_repeat_scaled depth_multiplier repeats ;;
  l <- scale_loop (rev repeats) (sum_Z repeats) total [] ;;
  Ok (rev l).

(** [for sa, rep in zip(stage_args, repeats_scaled): extend with rep copies] *)
Fixpoint expand_repeats {A : Type} (stage_args : list A) (reps : list Z) : list A :=
  match stage_args, reps with
  | sa :: stage_args', rep :: reps' =>
      (replicate (Z.to_nat rep) sa ++ expand_repeats stage_args' reps')%list
  | _, _ => []
  end.

(** [arg.pop('repeat')]; the decoder stores an [int] under that key. *)
Definition pop_repeat (arg : gmap string pyval) : result (Z * gmap string pyval) :=
  match arg !! "repeat" with
  | Some (VInt r) => Ok (r, delete "repeat" arg)
  | Some _ => Raise TypeError
  | None => Raise KeyError
  end.

(** ** The network *)

(** A module of the assembled network: a layer, a block, or a
    [nn.Sequential] of modules. *)
#[warnings="-register-all"]
Inductive net_module : Type :=
| Leaf (m : module)
| Blk (b : block)
| Sequential (ms : list net_module).

Module EfficientNet.

(** The attributes of an [EfficientNet] object once [__init__] has run.
    [blocks] is the [nn.Sequential] of stages, each stage the
    [nn.Sequential] of its block instances. *)
Record t : Type := {
  in_channel : Z;
  arch : arch_params;
  block_def : list (list string);
  gparams : global_params;
  num_features : Z;
  conv_stem : conv2d;
  bn1 : module;
  act1 : module;
  out_channels : list Z;
  blocks : list (list block);
  total_layers : Z;
  layer_idx : Z;
  conv_head : conv2d;
  bn2 : module;
  act2 : module;
  global_pool : module;
  flatten : module;
  dropout : module;
  classifier : module
}.

(** The attributes [_make_blocks] and [_make_layer] assign while the
    blocks are built. *)
Record build_state : Type := {
  st_in_channel : Z;
  st_layer_idx : Z;
  st_out_channels : list Z
}.

Section Methods.
Context `{External}.
Variable ap : arch_params.
Variable gp : global_params.

Definition _round_channel (channel : Z) : Z :=
  round_channels channel (channel_multiplier ap) (channel_divisor gp) (channel_min gp).

Definition _decode_str_def (stage_str : string) : result (gmap string pyval) :=
  let stage_data := split "_" stage_str in
  let args : gmap string pyval := {[ "block_type" := VStr (hd "" stage_data) ]} in
  '(args, noskip) <- decode_ops (tl stage_data) args false ;;
  let args := <["noskip" := VBool noskip]> args in
  _ <- py_assert (bool_decide (is_Some (args !! "repeat"))) ;;
  Ok args.

Definition _scale_stage_depth (stage_args : list (gmap string pyval))
    (repeats : list Z) : result (list (gmap string pyval)) :=
  rs <- repeats_scaled (depth_multiplier ap) repeats ;;
  Ok (expand_repeats stage_args rs).

(** The loop of [_decode_block_def] from stage [idx] on; [len] is
    [len(block_def)]. *)
Fixpoint decode_stages (fix_first_last : bool) (len : Z) (idx : Z)
    (stages : list (list string)) : result (list (list (gmap string pyval))) :=
  match stages with
  | [] => Ok []
  | stage_strings :: rest =>
      stage_args <- mapM _decode_str_def stage_strings ;;
      popped <- mapM pop_repeat stage_args ;;
      let repeats := map fst popped in
      let stage_args := map snd popped in
      stage_args <-
        (if negb (fix_first_last && ((idx =? 0) || (idx =? len - 1)))
         then _scale_stage_depth stage_args repeats
         else Ok stage_args) ;;
      blocks_args <- decode_stages fix_first_last len (idx + 1) rest ;;
      Ok (stage_args :: blocks_args)
  end.

Definition _decode_block_def (block_def : list (list string)) (fix_first_last : bool)
  : result (list (list (gmap string pyval))) :=
  decode_stages fix_first_last (Z.of_nat (length block_def)) 0 block_def.

(** The local [drop_rate] of [_make_layer], for a non-zero
    [total_layers]. *)
Definition drop_rate (total_layers : Z) (st : build_state) : Q :=
  (drop_path_rate gp * inject_Z (st_layer_idx st) / inject_Z total_layers)%Q.

Definition _make_layer (total_layers : Z) (st : build_state)
    (layer_args : gmap string pyval) : result (block * build_state) :=
  _ <- (if total_layers =? 0 then Raise ZeroDivisionError else Ok tt) ;;
  let drop_rate := drop_rate total_layers st in
  let layer_args := <["in_channel" := VInt (st_in_channel st)]> layer_args in
  out_channel <- kw_int layer_args "out_channel" (Raise KeyError) ;;
  let out_channel := _round_channel out_channel in
  let layer_args := <["out_channel" := VInt out_channel]> layer_args in
  let layer_args := <["drop_path_rate" := VFloat drop_rate]> layer_args in
  let layer_args := <["pad_type" := VStr (pad_type gp)]> layer_args in
  let layer_args := <["norm_kwargs" := VNorm (gp_norm_kwargs gp)]> layer_args in
  let layer_args := <["act_layer" := VAct (gp_act_layer gp)]> layer_args in
  layer_args <-
    match layer_args !! "mid_channel" with
    | Some (VInt m) => Ok (<["mid_channel" := VInt (_round_channel m)]> layer_args)
    | Some _ => Raise TypeError
    | None => Ok layer_args
    end ;;
  block_type <-
    match layer_args !! "block_type" with
    | Some (VStr s) => Ok s
    | Some _ => Raise KeyError
    | None => Raise KeyError
    end ;;
  let layer_args := delete "block_type" layer_args in
  layer <- construct block_type layer_args ;;
  Ok (layer, {| st_in_channel := out_channel;
                st_layer_idx := st_layer_idx st + 1;
                st_out_channels := st_out_channels st |}).

(** The inner loop of [_make_blocks], from position [idx] of a stage. *)
Fixpoint make_stage (total_layers : Z) (idx : Z)
    (stage_args : list (gmap string pyval)) (st : build_state)
  : result (list block * build_state) :=
  match stage_args with
  | [] => Ok ([], st)
  | args :: rest =>
      stride <- kw_int args "stride" (Raise KeyError) ;;
      _ <- py_assert ((stride =? 1) || (stride =? 2)) ;;
      let args := if 0 <? idx then <["stride" := VInt 1]> args else args in
      '(layer, st) <- _make_layer total_layers st args ;;
      '(stage, st) <- make_stage total_layers (idx + 1) rest st ;;
      Ok (layer :: stage, st)
  end.

(** The outer loop of [_make_blocks]. *)
Fixpoint make_stages (total_layers : Z)
    (blocks_args : list (list (gmap string pyval))) (st : build_state)
  : result (list (list block) * build_state) :=
  match blocks_args with
  | [] => Ok ([], st)
  | stage_args :: rest =>
      '(stage, st) <- make_stage total_layers 0 stage_args st ;;
      let st := {| st_in_channel := st_in_channel st;
                   st_layer_idx := st_layer_idx st;
                   st_out_channels := (st_out_channels st ++ [st_in_channel st])%list |} in
      '(blocks, st) <- make_stages total_layers rest st ;;
      Ok (stage :: blocks, st)
  end.

Definition count_layers (blocks_args : list (list (gmap string pyval))) : Z :=
  sum_Z (map (fun x => Z.of_nat (length x)) blocks_args).

(** Returns the stages, the value given to [self.total_layers] and the
    attributes after the loop. *)
Definition _make_blocks (block_def : list (list string)) (in_channel : Z)
    (fix_first_last : bool) (out_channels : list Z)
  : result (list (list block) * Z * build_state) :=
  blocks_args <- _decode_block_def block_def fix_first_last ;;
  let total_layers := count_layers blocks_args in
  '(blocks, st) <- make_stages total_layers blocks_args
                     {| st_in_channel := in_channel; st_layer_idx := 0;
                        st_out_channels := out_channels |} ;;
  Ok (blocks, total_layers, st).

Definition init (block_def : list (list string)) (num_classes in_channel stem_size : Z)
    (fix_stem : bool) (num_features : option Z) (fix_block_first_last : bool)
  : result t :=
  let num_features := match num_features with
                      | None => _round_channel 1280
                      | Some n => n
                      end in
  let stem_size := if negb fix_stem then _round_channel stem_size else stem_size in
  let conv_stem := create_conv2d in_channel stem_size 3 2 1 (PadStr (pad_type gp))
                     false false in
  let out_channels := [stem_size] in
  '(blocks, total_layers, st) <-
    _make_blocks block_def stem_size fix_block_first_last out_channels ;;
  let last_channel := st_in_channel st in
  let dropout_rate := dropout_rate ap in
  Ok {| in_channel := st_in_channel st;
        arch := ap;
        block_def := block_def;
        gparams := gp;
        num_features := num_features;
        conv_stem := conv_stem;
        bn1 := BatchNorm2d stem_size (Some (gp_norm_kwargs gp));
        act1 := Act (gp_act_layer gp);
        out_channels := (st_out_channels st ++ [num_features; num_classes])%list;
        blocks := blocks;
        total_layers := total_layers;
        layer_idx := st_layer_idx st;
        conv_head := create_conv2d last_channel num_features 1 1 1
                       (PadStr (pad_type gp)) false false;
        bn2 := BatchNorm2d num_features (Some (gp_norm_kwargs gp));
        act2 := Act (gp_act_layer gp);
        global_pool := AdaptiveAvgPool2d 1;
        flatten := Flatten 1;
        dropout := if Qgtb dropout_rate 0 then Dropout dropout_rate else Identity;
        classifier := Linear num_features num_classes |}.

End Methods.

Definition get_classifier (self : t) : net_module :=
  Sequential [Leaf (Conv (conv_head self)); Leaf (bn2 self); Leaf (act2 self);
              Leaf (global_pool self); Leaf (flatten self); Leaf (dropout self);
              Leaf (classifier self)].

Definition reset_classifier (self : t) (num_classes : Z) : t :=
  {| in_channel := in_channel self; arch := arch self; block_def := block_def self;
     gparams := gparams self; num_features := num_features self;
     conv_stem := conv_stem self; bn1 := bn1 self; act1 := act1 self;
     out_channels := out_channels self; blocks := blocks self;
     total_layers := total_layers self; layer_idx := layer_idx self;
     conv_head := conv_head self; bn2 := bn2 self; act2 := act2 self;
     global_pool := global_pool self; flatten := flatten self;
     dropout := dropout self;
     classifier := Linear (num_features self) num_classes |}.

End EfficientNet.

(** ** Model variants *)

Definition _complete_url (x : string) : string :=
  "https://github.com/rwightman/pytorch-image-models/releases/download/v0.1-weights/" +:+ x.

Definition model_urls : list (string * string) :=
  [("efficientnet_b0", _complete_url "tf_efficientnet_b0_ns-c0e6a31c.pth");
   ("efficientnet_b1", _complete_url "tf_efficientnet_b1_ns-99dd0c41.pth");
   ("efficientnet_b2", _complete_url "tf_efficientnet_b2_ns-00306e48.pth");
   ("efficientnet_b3", _complete_url "tf_efficientnet_b3_ns-9d44bf68.pth");
   ("efficientnet_b4", _complete_url "tf_efficientnet_b4_ns-d6313a46.pth");
   ("efficientnet_b5", _complete_url "tf_efficientnet_b5_ns-6f26d0cf.pth");
   ("efficientnet_b6", _complete_url "tf_efficientnet_b6_ns-51548356.pth");
   ("efficientnet_b7", _complete_url "tf_efficientnet_b7_ns-1dbc32de.pth");
   ("efficientnet_b8", _complete_url "tf_efficientnet_b8_ra-572d5dd9.pth");
   ("efficientnet_l2", _complete_url "tf_efficientnet_l2_ns-df73bb44.pth");
   ("efficientnet_l2_475", _complete_url "tf_efficientnet_l2_ns_475-bebbd00a.pth");
   ("efficientnet_edge_s", _complete_url "efficientnet_es_ra-f111e99c.pth");
   ("efficientnet_edge_m", _complete_url "tf_efficientnet_em-e78cfe58.pth");
   ("efficientnet_edge_l", _complete_url "tf_efficientnet_el-5143854e.pth");
   ("efficientnet_lite0", _complete_url "tf_efficientnet_lite0-0aa007d2.pth");
   ("efficientnet_lite1", _complete_url "tf_efficientnet_lite1-bde8b488.pth");
   ("efficientnet_lite2", _complete_url "tf_efficientnet_lite2-dcccb7df.pth");
   ("efficientnet_lite3", _complete_url "tf_efficientnet_lite3-b733e338.pth");
   ("efficientnet_lite4", _complete_url "tf_efficientnet_lite4-741542c3.pth")].

Definition supported_models : list string := map fst model_urls.

Definition TF_BN_MOMENTUM : Q := (1 - (99 # 100))%Q.
Definition TF_BN_EPSILON : Q := (1 # 1000)%Q.

(** The keys of [override_params] that the build reads; [dict.update]
    replaces the entries that are present. *)
Record override_params : Type := {
  o_channel_divisor : option Z;
  o_channel_min : option (option Z);
  o_drop_path_rate : option Q;
  o_act_layer : option act_layer;
  o_pad_type : option string;
  o_norm_kwargs : option norm_kwargs
}.

Definition update (gp : global_params) (o : override_params) : global_params :=
  {| channel_divisor := default (channel_divisor gp) (o_channel_divisor o);
     channel_min := default (channel_min gp) (o_channel_min o);
     drop_path_rate := default (drop_path_rate gp) (o_drop_path_rate o);
     gp_act_layer := default (gp_act_layer gp) (o_act_layer o);
     pad_type := default (pad_type gp) (o_pad_type o);
     gp_norm_kwargs := default (gp_norm_kwargs gp) (o_norm_kwargs o) |}.

(** The keyword arguments a caller may hand down to [EfficientNet.__init__]
    and, under [kw_override_params], to the model functions; an absent key is
    [None]. *)
Record kwargs : Type := {
  kw_in_channel : option Z;
  kw_stem_size : option Z;
  kw_fix_stem : option bool;
  kw_num_features : option Z;
  kw_fix_block_first_last : option bool;
  kw_override_params : option override_params
}.

Section Models.
Context `{External}.

Definition _create_model (variant : string) (block_def : list (list string))
    (gp : global_params) (ap : arch_params) (num_classes : Z)
    (override : option override_params) (pretrained progress : bool) (kw : kwargs)
  : result EfficientNet.t :=
  let gp := match override with
            | Some o => update gp o
            | None => gp
            end in
  let kw_num_classes := if negb pretrained then num_classes else 1000 in
  model <- EfficientNet.init ap gp block_def kw_num_classes
             (default 3 (kw_in_channel kw)) (default 32 (kw_stem_size kw))
             (default false (kw_fix_stem kw)) (kw_num_features kw)
             (default false (kw_fix_block_first_last kw)) ;;
  if pretrained then
    url <- match list_to_map (M := gmap string string) model_urls !! variant with
           | Some u => Ok u
           | None => Raise KeyError
           end ;;
    _ <- load_pretrained url ;;
    if negb (num_classes =? 1000)
    then Ok (EfficientNet.reset_classifier model num_classes)
    else Ok model
  else Ok model.

Definition _efficientnet (variant : string) (ap : arch_params) (num_classes : Z)
    (override : option override_params) (pretrained progress : bool) (kw : kwargs)
  : result EfficientNet.t :=
  let block_def :=
    [["ds_r1_k3_s1_e1_c16_se0.25"];
     ["ir_r2_k3_s2_e6_c24_se0.25"];
     ["ir_r2_k5_s2_e6_c40_se0.25"];
     ["ir_r3_k3_s2_e6_c80_se0.25"];
     ["ir_r3_k5_s1_e6_c112_se0.25"];
     ["ir_r4_k5_s2_e6_c192_se0.25"];
     ["ir_r1_k3_s1_e6_c320_se0.25"]] in
  let global_params :=
    {| channel_divisor := 8; channel_min := None; drop_path_rate := (2 # 10)%Q;
       gp_act_layer := Swish; pad_type := "same";
       gp_norm_kwargs := {| eps := TF_BN_EPSILON; momentum := TF_BN_MOMENTUM |} |} in
  _create_model variant block_def global_params ap num_classes override
    pretrained progress kw.

Definition _efficientnet_edge (variant : string) (ap : arch_params) (num_classes : Z)
    (override : option override_params) (pretrained progress : bool) (kw : kwargs)
  : result EfficientNet.t :=
  let block_def :=
    [["er_r1_k3_s1_e4_c24_m24_noskip"];
     ["er_r2_k3_s2_e8_c32"];
     ["er_r4_k3_s2_e8_c48"];
     ["ir_r5_k5_s2_e8_c96"];
     ["ir_r4_k5_s1_e8_c144"];
     ["ir_r2_k5_s2_e8_c192"]] in
  let global_params :=
    {| channel_divisor := 8; channel_min := None; drop_path_rate := (2 # 10)%Q;
       gp_act_layer := ReLU; pad_type := "same";
       gp_norm_kwargs := {| eps := TF_BN_EPSILON; momentum := TF_BN_MOMENTUM |} |} in
  _create_model variant block_def global_params ap num_classes override
    pretrained progress kw.

Definition _efficientnet_lite (variant : string) (ap : arch_params) (num_classes : Z)
    (override : option override_params) (pretrained progress : bool) (kw : kwargs)
  : result EfficientNet.t :=
  let block_def :=
    [["ds_r1_k3_s1_e1_c16"];
     ["ir_r2_k3_s2_e6_c24"];
     ["ir_r2_k5_s2_e6_c40"];
     ["ir_r3_k3_s2_e6_c80"];
     ["ir_r3_k5_s1_e6_c112"];
     ["ir_r4_k5_s2_e6_c192"];
     ["ir_r1_k3_s1_e6_c320"]] in
  let global_params :=
    {| channel_divisor := 8; channel_min := None; drop_path_rate := (2 # 10)%Q;
       gp_act_layer := ReLU6; pad_type := "same";
       gp_norm_kwargs := {| eps := TF_BN_EPSILON; momentum := TF_BN_MOMENTUM |} |} in
  let kw := {| kw_in_channel := kw_in_channel kw; kw_stem_size := kw_stem_size kw;
               kw_fix_stem := Some true; kw_num_features := Some 1280;
               kw_fix_block_first_last := Some true;
               kw_override_params := kw_override_params kw |} in
  _create_model variant block_def global_params ap num_classes override
    pretrained progress kw.

(** The model functions: [num_classes] and [override_params] reach the
    family function through the keyword arguments, the others are handed
    on to the constructor. *)
Definition efficientnet_b0 (pretrained progress : bool) (num_classes : Z) (kw : kwargs)
  : result EfficientNet.t :=
  _efficientnet "efficientnet_b0"
    {| channel_multiplier := float_lit (10 # 10);
       depth_multiplier := float_lit (10 # 10);
       resolution := 224; dropout_rate := float_lit (2 # 10) |}
    num_classes (kw_override_params kw) pretrained progress kw.

Definition efficientnet_b1 (pretrained progress : bool) (num_classes : Z) (kw : kwargs)
  : result EfficientNet.t :=
  _efficientnet "efficientnet_b1"
    {| channel_multiplier := float_lit (10 # 10);
       depth_multiplier := float_lit (11 # 10);
       resolution := 240; dropout_rate := float_lit (2 # 10) |}
    num_classes (kw_override_params kw) pretrained progress kw.

Definition efficientnet_b2 (pretrained progress : bool) (num_classes : Z) (kw : kwargs)
  : result EfficientNet.t :=
  _efficientnet "efficientnet_b2"
    {| channel_multiplier := float_lit (11 # 10);
       depth_multiplier := float_lit (12 # 10);
       resolution := 260; dropout_rate := float_lit (3 # 10) |}
    num_classes (kw_override_params kw) pretrained progress kw.

Definition efficientnet_b3 (pretrained progress : bool) (num_classes : Z) (kw : kwargs)
  : result EfficientNet.t :=
  _efficientnet "efficientnet_b3"
    {| channel_multiplier := float_lit (12 # 10);
       depth_multiplier := float_lit (14 # 10);
       resolution := 300; dropout_rate := float_lit (3 # 10) |}
    num_classes (kw_override_params kw) pretrained progress kw.

Definition efficientnet_b4 (pretrained progress : bool) (num_classes : Z) (kw : kwargs)
  : result EfficientNet.t :=
  _efficientnet "efficientnet_b4"
    {| channel_multiplier := float_lit (14 # 10);
       depth_multiplier := float_lit (18 # 10);
       resolution := 380; dropout_rate := float_lit (4 # 10) |}
    num_classes (kw_override_params kw) pretrained progress kw.

Definition efficientnet_b5 (pretrained progress : bool) (num_classes : Z) (kw : kwargs)
  : result EfficientNet.t :=
  _efficientnet "efficientnet_b5"
    {| channel_multiplier := float_lit (16 # 10);
       depth_multiplier := float_lit (22 # 10);
       resolution := 456; dropout_rate := float_lit (4 # 10) |}
    num_classes (kw_override_params kw) pretrained progress kw.

Definition efficientnet_b6 (pretrained progress : bool) (num_classes : Z) (kw : kwargs)
  : result EfficientNet.t :=
  _efficientnet "efficientnet_b6"
    {| channel_multiplier := float_lit (18 # 10);
       depth_multiplier := float_lit (26 # 10);
       resolution := 528; dropout_rate := float_lit (5 # 10) |}
    num_classes (kw_override_params kw) pretrained progress kw.

Definition efficientnet_b7 (pretrained progress : bool) (num_classes : Z) (kw : kwargs)
  : result EfficientNet.t :=
  _efficientnet "efficientnet_b7"
    {| channel_multiplier := float_lit (20 # 10);
       depth_multiplier := float_lit (31 # 10);
       resolution := 600; dropout_rate := float_lit (5 # 10) |}
    num_classes (kw_override_params kw) pretrained progress kw.

Definition efficientnet_b8 (pretrained progress : bool) (num_classes : Z) (kw : kwargs)
  : result EfficientNet.t :=
  _efficientnet "efficientnet_b8"
    {| channel_multiplier := float_lit (22 # 10);
       depth_multiplier := float_lit (36 # 10);
       resolution := 672; dropout_rate := float_lit (5 # 10) |}
    num_classes (kw_override_params kw) pretrained progress kw.

Definition efficientnet_l2 (pretrained progress : bool) (num_classes : Z) (kw : kwargs)
  : result EfficientNet.t :=
  _efficientnet "efficientnet_l2"
    {| channel_multiplier := float_lit (43 # 10);
       depth_multiplier := float_lit (53 # 10);
       resolution := 800; dropout_rate := float_lit (5 # 10) |}
    num_classes (kw_override_params kw) pretrained progress kw.

Definition efficientnet_l2_475 (pretrained progress : bool) (num_classes : Z) (kw : kwargs)
  : result EfficientNet.t :=
  _efficientnet "efficientnet_l2_475"
    {| channel_multiplier := float_lit (43 # 10);
       depth_multiplier := float_lit (53 # 10);
       resolution := 475; dropout_rate := float_lit (5 # 10) |}
    num_classes (kw_override_params kw) pretrained progress kw.

Definition efficientnet_edge_s (pretrained progress : bool) (num_classes : Z) (kw : kwargs)
  : result EfficientNet.t :=
  _efficientnet_edge "efficientnet_edge_s"
    {| channel_multiplier := float_lit (10 # 10);
       depth_multiplier := float_lit (10 # 10);
       resolution := 224; dropout_rate := float_lit (2 # 10) |}
    num_classes (kw_override_params kw) pretrained progress kw.

Definition efficientnet_edge_m (pretrained progress : bool) (num_classes : Z) (kw : kwargs)
  : result EfficientNet.t :=
  _efficientnet_edge "efficientnet_edge_m"
    {| channel_multiplier := float_lit (10 # 10);
       depth_multiplier := float_lit (11 # 10);
       resolution := 240; dropout_rate := float_lit (2 # 10) |}
    num_classes (kw_override_params kw) pretrained progress kw.

Definition efficientnet_edge_l (pretrained progress : bool) (num_classes : Z) (kw : kwargs)
  : result EfficientNet.t :=
  _efficientnet_edge "efficientnet_edge_l"
    {| channel_multiplier := float_lit (12 # 10);
       depth_multiplier := float_lit (14 # 10);
       resolution := 300; dropout_rate := float_lit (3 # 10) |}
    num_classes (kw_override_params kw) pretrained progress kw.

Definition efficientnet_lite0 (pretrained progress : bool) (num_classes : Z) (kw : kwargs)
  : result EfficientNet.t :=
  _efficientnet_lite "efficientnet_lite0"
    {| channel_multiplier := float_lit (10 # 10);
       depth_multiplier := float_lit (10 # 10);
       resolution := 224; dropout_rate := float_lit (2 # 10) |}
    num_classes (kw_override_params kw) pretrained progress kw.

Definition efficientnet_lite1 (pretrained progress : bool) (num_classes : Z) (kw : kwargs)
  : result EfficientNet.t :=
  _efficientnet_lite "efficientnet_lite1"
    {| channel_multiplier := float_lit (10 # 10);
       depth_multiplier := float_lit (11 # 10);
       resolution := 240; dropout_rate := float_lit (2 # 10) |}
    num_classes (kw_override_params kw) pretrained progress kw.

Definition efficientnet_lite2 (pretrained progress : bool) (num_classes : Z) (kw : kwargs)
  : result EfficientNet.t :=
  _efficientnet_lite "efficientnet_lite2"
    {| channel_multiplier := float_lit (11 # 10);
       depth_multiplier := float_lit (12 # 10);
       resolution := 260; dropout_rate := float_lit (3 # 10) |}
    num_classes (kw_override_params kw) pretrained progress kw.

Definition efficientnet_lite3 (pretrained progress : bool) (num_classes : Z) (kw : kwargs)
  : result EfficientNet.t :=
  _efficientnet_lite "efficientnet_lite3"
    {| channel_multiplier := float_lit (12 # 10);
       depth_multiplier := float_lit (14 # 10);
       resolution := 280; dropout_rate := float_lit (3 # 10) |}
    num_classes (kw_override_params kw) pretrained progress kw.

Definition efficientnet_lite4 (pretrained progress : bool) (num_classes : Z) (kw : kwargs)
  : result EfficientNet.t :=
  _efficientnet_lite "efficientnet_lite4"
    {| channel_multiplier := float_lit (14 # 10);
       depth_multiplier := float_lit (18 # 10);
       resolution := 300; dropout_rate := float_lit (3 # 10) |}
    num_classes (kw_override_params kw) pretrained progress kw.

(** [eval] of the call of the function named [model_name]. *)
Definition eval_model (model_name : string) (pretrained : bool) (num_classes : Z)
    (kw : kwargs) : result EfficientNet.t :=
  match list_to_map (M := gmap string _)
          [("efficientnet_b0", efficientnet_b0);
           ("efficientnet_b1", efficientnet_b1);
           ("efficientnet_b2", efficientnet_b2);
           ("efficientnet_b3", efficientnet_b3);
           ("efficientnet_b4", efficientnet_b4);
           ("efficientnet_b5", efficientnet_b5);
           ("efficientnet_b6", efficientnet_b6);
           ("efficientnet_b7", efficientnet_b7);
           ("efficientnet_b8", efficientnet_b8);
           ("efficientnet_l2", efficientnet_l2);
           ("efficientnet_l2_475", efficientnet_l2_475);
           ("efficientnet_edge_s", efficientnet_edge_s);
           ("efficientnet_edge_m", efficientnet_edge_m);
           ("efficientnet_edge_l", efficientnet_edge_l);
           ("efficientnet_lite0", efficientnet_lite0);
           ("efficientnet_lite1", efficientnet_lite1);
           ("efficientnet_lite2", efficientnet_lite2);
           ("efficientnet_lite3", efficientnet_lite3);
           ("efficientnet_lite4", efficientnet_lite4)]
        !! model_name with
  | Some f => f pretrained true num_classes kw
  | None => Raise RuntimeError
  end.

End Models.

(** ** Stage partitioner *)

(** [l[1:-2]] *)
Definition slice_1_m2 {A : Type} (l : list A) : list A :=
  take (length l - 2 - 1) (drop 1 l).

(** One index of a numpy fancy-indexing expression. *)
Definition np_index (l : list Z) (i : Z) : result Z :=
  let n := Z.of_nat (length l) in
  let j := if i <? 0 then i + n else i in
  if (0 <=? j) && (j <? n)
  then match l !! Z.to_nat j with
       | Some x => Ok x
       | None => Raise IndexError
       end
  else Raise IndexError.

(** [network.blocks[i]] *)
Definition stage_at (blocks : list (list block)) (i : nat) : result net_module :=
  match blocks !! i with
  | Some stage => Ok (Sequential (map Blk stage))
  | None => Raise IndexError
  end.

Definition _efficientnet_stages (network : EfficientNet.t)
  : result (net_module * list Z) :=
  let blocks := EfficientNet.blocks network in
  let blocks_channels := slice_1_m2 (EfficientNet.out_channels network) in
  channels <- mapM (np_index blocks_channels) [0; 1; 2; 4; -1] ;;
  last_stage <-
    (if (length blocks =? 6)%nat then stage_at blocks 5
     else if (length blocks =? 7)%nat then
       b5 <- stage_at blocks 5 ;; b6 <- stage_at blocks 6 ;; Ok (Sequential [b5; b6])
     else Raise RuntimeError) ;;
  b0 <- stage_at blocks 0 ;;
  b1 <- stage_at blocks 1 ;;
  b2 <- stage_at blocks 2 ;;
  b3 <- stage_at blocks 3 ;;
  b4 <- stage_at blocks 4 ;;
  let stages :=
    [Sequential [Leaf (Conv (EfficientNet.conv_stem network));
                 Leaf (EfficientNet.bn1 network);
                 Leaf (EfficientNet.act1 network);
                 b0];
     b1; b2; Sequential [b3; b4]; last_stage] in
  Ok (Sequential stages, channels).

(** ** Backbone *)

(** The objects built from [.base_backbone], kept as the constructor and its
    arguments. *)
Inductive backbone : Type :=
| Backbone (stages : net_module) (channels : list Z)
| ClassifierFeature (stages : net_module) (classifier : net_module) (n_classes : Z).

Section GetBackbone.
Context `{External}.

(** The keyword arguments after [kwargs['override_params'] = ...]. *)
Definition backbone_kwargs (kw : kwargs) : kwargs :=
  {| kw_in_channel := kw_in_channel kw; kw_stem_size := kw_stem_size kw;
     kw_fix_stem := kw_fix_stem kw; kw_num_features := kw_num_features kw;
     kw_fix_block_first_last := kw_fix_block_first_last kw;
     kw_override_params :=
       Some {| o_channel_divisor := None; o_channel_min := None;
               o_drop_path_rate := Some 0%Q; o_act_layer := None;
               o_pad_type := None; o_norm_kwargs := None |} |}.

(** The local [network] of [get_backbone]. *)
Definition backbone_network (model_name : string) (pretrained : bool) (n_classes : Z)
    (kw : kwargs) : result EfficientNet.t :=
  _ <- (if existsb (String.eqb model_name) supported_models
        then Ok tt else Raise RuntimeError) ;;
  eval_model model_name pretrained n_classes (backbone_kwargs kw).

Definition get_backbone (model_name : string) (pretrained : bool)
    (feature_type : string) (n_classes : Z) (kw : kwargs) : result backbone :=
  network <- backbone_network model_name pretrained n_classes kw ;;
  '(stages, channels) <- _efficientnet_stages network ;;
  if String.eqb feature_type "tri_stage_fpn" then Ok (Backbone stages channels)
  else if String.eqb feature_type "classifier"
  then Ok (ClassifierFeature stages (EfficientNet.get_classifier network) n_classes)
  else Raise NotImplementedError.

End GetBackbone.

(** ** A concrete environment for closed examples *)

Definition digit_val (c : ascii) : Z := Z.of_nat (nat_of_ascii c) - 48.

Fixpoint digits_val (acc : Z) (s : string) : option Z :=
  match s with
  | EmptyString => Some acc
  | String c s' => if is_digit c then digits_val (10 * acc + digit_val c) s' else None
  end.

(** [int(s)] on a plain decimal literal. *)
Definition decimal_int (s : string) : result Z :=
  match s with
  | EmptyString => Raise ValueError
  | _ => match digits_val 0 s with
         | Some z => Ok z
         | None => Raise ValueError
         end
  end.

(** Splits a literal at its first point. *)
Fixpoint split_point (s : string) : string * option string :=
  match s with
  | EmptyString => (EmptyString, None)
  | String c s' =>
      if Ascii.eqb c "."%char then (EmptyString, Some s')
      else let '(a, b) := split_point s' in (String c a, b)
  end.

(** [float(s)] on a plain decimal literal, digits with an optional
    fractional part. *)
Definition decimal_float (s : string) : result Q :=
  match split_point s with
  | (EmptyString, _) => Raise ValueError
  | (ip, None) =>
      match digits_val 0 ip with
      | Some z => Ok (inject_Z z)
      | None => Raise ValueError
      end
  | (ip, Some fp) =>
      match digits_val 0 ip, digits_val 0 fp with
      | Some z, Some f =>
          Ok (Qred (inject_Z z + inject_Z f / inject_Z (10 ^ Z.of_nat (String.length fp))))%Q
      | _, _ => Raise ValueError
      end
  end.

(** Modelled from the spec: [make_divisible] of [..utils.arch_utils], which
    is not part of the modelled file.  The value is rounded to the nearest
    multiple of [divisor], is never below [min_value] (by default the
    divisor), and is moved up by one multiple when rounding has removed more
    than 10% of it. *)
Definition make_divisible_spec (v : Q) (divisor : Z) (min_value : option Z) : Z :=
  let min_value := default divisor min_value in
  let new_v := Z.max min_value
                 (Qfloor (v + inject_Z divisor / 2)%Q / divisor * divisor) in
  if Qgtb ((9 # 10) * v)%Q (inject_Z new_v) then new_v + divisor else new_v.

(** Modelled from the spec: [round_channels] of [..utils.arch_utils], which
    is not part of the modelled file: the channel count is scaled by the
    multiplier and then rounded as above. *)
Definition round_channels_spec (channel : Z) (multiplier : Q) (divisor : Z)
    (channel_min : option Z) : Z :=
  make_divisible_spec (inject_Z channel * multiplier)%Q divisor channel_min.

Definition decimal_env : External :=
  {| py_int := decimal_int;
     py_float := decimal_float;
     round_channels := round_channels_spec;
     make_divisible := fun v divisor => make_divisible_spec v divisor None;
     load_pretrained := fun _ => Ok tt |}.

Definition no_kwargs : kwargs :=
  {| kw_in_channel := None; kw_stem_size := None; kw_fix_stem := None;
     kw_num_features := None; kw_fix_block_first_last := None;
     kw_override_params := None |}.


(** ** Observations used in the statements *)

(** The key of a key/value token: the text before its first digit. *)
Definition token_key (op : string) : string := hd "" (re_split_digits op).

Definition recognized_keys : list string := ["r"; "k"; "s"; "e"; "m"; "c"; "se"].

(** The channel counts and the stride of a block, read off its
    convolutions: the first convolution takes the block's input, the last
    one produces its output, and the stride sits on the depthwise
    convolution (on the projection for an edge-residual block). *)
Definition block_in_channel (b : block) : Z :=
  match b with
  | DS b => in_channels (DepthwiseSeparableConv.conv_dw b)
  | IR b => in_channels (InvertedResidualBlock.conv_pw b)
  | ER b => in_channels (EdgeResidual.conv_exp b)
  end.

Definition block_out_channel (b : block) : Z :=
  match b with
  | DS b => out_channels_ (DepthwiseSeparableConv.conv_pw b)
  | IR b => out_channels_ (InvertedResidualBlock.conv_pwl b)
  | ER b => out_channels_ (EdgeResidual.conv_pwl b)
  end.

Definition block_stride (b : block) : Z :=
  match b with
  | DS b => conv_stride (DepthwiseSeparableConv.conv_dw b)
  | IR b => conv_stride (InvertedResidualBlock.conv_dw b)
  | ER b => conv_stride (EdgeResidual.conv_pwl b)
  end.

Definition block_drop_path (b : block) : module :=
  match b with
  | DS b => DepthwiseSeparableConv.drop_path b
  | IR b => InvertedResidualBlock.drop_path b
  | ER b => EdgeResidual.drop_path b
  end.

(** The residual policy of the block constructors. *)
Definition residual_eligible (a : block_args) : Prop :=
  a_stride a = 1 /\ a_in_channel a = a_out_channel a /\ a_noskip a = false.

(** The blocks of a stage are chained: each takes the channel count the
    previous one produces, starting from [in_ch] and leaving [out_ch]. *)
Fixpoint chained (in_ch : Z) (stage : list block) (out_ch : Z) : Prop :=
  match stage with
  | [] => out_ch = in_ch
  | b :: stage' =>
      block_in_channel b = in_ch /\ chained (block_out_channel b) stage' out_ch
  end.

(** What [_make_layer] makes of one decoded block specification: the
    declared output channel, rounded, and no drop-path when the global rate
    is zero. *)
Definition built_from `{External} (ap : arch_params) (gp : global_params)
    (args : gmap string pyval) (b : block) : Prop :=
  (exists c, args !! "out_channel" = Some (VInt c) /\
             block_out_channel b = EfficientNet._round_channel ap gp c) /\
  ((drop_path_rate gp == 0)%Q -> block_drop_path b = Identity).

(** A built stage against the block specifications it was built from:
    every block is [built_from] its specification, the blocks are chained,
    the first one takes the stride of its specification and the others have
    stride 1. *)
Definition stage_built `{External} (ap : arch_params) (gp : global_params)
    (stage_args : list (gmap string pyval)) (stage : list block) : Prop :=
  Forall2 (built_from ap gp) stage_args stage /\
  (exists in_ch out_ch, chained in_ch stage out_ch) /\
  (forall j args b,
      stage_args !! j = Some args -> stage !! j = Some b ->
      if (j =? 0)%nat
      then forall s, args !! "stride" = Some (VInt s) -> block_stride b = s
      else block_stride b = 1).

(** The block specifications of a stage against its stage strings: the
    decoded strings, without their repeat counts, each repeated a positive
    number of times. *)
Definition stage_decoded `{External} (strs : list string)
    (stage_args : list (gmap string pyval)) : Prop :=
  exists decoded reps,
    mapM EfficientNet._decode_str_def strs = Ok decoded /\
    length reps = length decoded /\
    Forall (fun r => 1 <= r) reps /\
    stage_args = expand_repeats (map (delete "repeat") decoded) reps.

(** A network without drop-path: the global rate it was built with is zero,
    so that [_make_layer] hands a zero rate to every block it constructs, and
    the drop-path module of every block is the identity. *)
Definition drop_path_disabled (net : EfficientNet.t) : Prop :=
  (drop_path_rate (EfficientNet.gparams net) == 0)%Q /\
  (forall total_layers st,
      (EfficientNet.drop_rate (EfficientNet.gparams net) total_layers st == 0)%Q) /\
  Forall (Forall (fun b => block_drop_path b = Identity)) (EfficientNet.blocks net).

(** ** Inputs of the closed examples *)

Definition ones7 : tensor := replicate 7 (replicate 7 1).

Definition unit_arch : arch_params :=
  {| channel_multiplier := 1; depth_multiplier := 1; resolution := 224;
     dropout_rate := (2 # 10)%Q |}.

Definition lite_params : global_params :=
  {| channel_divisor := 8; channel_min := None; drop_path_rate := (2 # 10)%Q;
     gp_act_layer := ReLU6; pad_type := "same";
     gp_norm_kwargs := {| eps := TF_BN_EPSILON; momentum := TF_BN_MOMENTUM |} |}.

(** Three stages whose first and last ones declare more than one repeat. *)
Definition repeated_ends_def : list (list string) :=
  [["ds_r2_k3_s1_e1_c16"]; ["ir_r2_k3_s2_e6_c24"]; ["ir_r3_k3_s2_e6_c40"]].

(** A stage made of two stage strings with different output channels. *)
Definition two_substage_def : list (list string) :=
  [["ds_r1_k3_s1_e1_c16"; "ds_r1_k3_s1_e1_c24"]].

Definition sample_args : block_args :=
  {| a_in_channel := 16; a_out_channel := 16; a_kernel_size := 3; a_stride := 1;
     a_se_ratio := (1 # 4)%Q; a_pad_type := PadStr "same"; a_act_layer := Swish;
     a_noskip := false; a_exp_ratio := 1; a_mid_channel := 0;
     a_drop_path_rate := (1 # 10)%Q; a_norm_kwargs := None |}.

(** ** Further observations *)

(** The number of positions a window of dilated extent
    [(k - 1) * d + 1] takes on an axis of length [n] when it moves by [s]. *)
Definition window_positions (n k s d : Z) : Z := (n - ((k - 1) * d + 1)) / s + 1.

(** A matrix whose rows all have width [w]. *)
Definition rectangular (w : nat) (x : tensor) : Prop :=
  Forall (fun row => length row = w) x.

(** The entry of a matrix at row [i] and column [j]. *)
Definition entry (x : tensor) (i j : nat) : option Z :=
  match (x : list (list Z)) !! i with
  | Some row => row !! j
  | None => None
  end.

(** Whether a token holds a decimal digit. *)
Fixpoint has_digit (s : string) : bool :=
  match s with
  | EmptyString => false
  | String c s' => is_digit c || has_digit s'
  end.

(** The keys a decoded block specification may hold, with the type of the
    value under each. *)
Definition spec_value_ok (k : string) (v : pyval) : Prop :=
  (k = "block_type" /\ exists s, v = VStr s) \/
  (k = "noskip" /\ exists b, v = VBool b) \/
  (k ∈ ["repeat"; "kernel_size"; "stride"; "mid_channel"; "out_channel"] /\
   exists z, v = VInt z) \/
  (k ∈ ["exp_ratio"; "se_ratio"] /\ exists q, v = VFloat q).

(** What [_make_blocks] needs of a block specification to build a block
    from it: a stride of 1 or 2, an output channel count, a block type among
    [ds], [ir] and [er], no [mid_channel] unless the type is [er], and a
    kernel size of 3 or 5 when one is given. *)
Definition buildable (args : gmap string pyval) : Prop :=
  (exists s, args !! "stride" = Some (VInt s) /\ (s = 1 \/ s = 2)) /\
  (exists c, args !! "out_channel" = Some (VInt c)) /\
  (exists bt, args !! "block_type" = Some (VStr bt) /\
              (bt = "er" \/ ((bt = "ds" \/ bt = "ir") /\ args !! "mid_channel" = None))) /\
  (args !! "kernel_size" = None \/ args !! "kernel_size" = Some (VInt 3) \/
   args !! "kernel_size" = Some (VInt 5)).

(** The channel count a layer gives for an input of [c] channels, from the
    counts the layer was constructed with: a convolution, a batch norm and a
    linear layer take only the count they declare; a squeeze-excite module
    reduces and expands back to the count of its input, which it scales. *)
Definition module_channels (m : module) (c : Z) : option Z :=
  match m with
  | Conv cv => if in_channels cv =? c then Some (out_channels_ cv) else None
  | BatchNorm2d n _ => if n =? c then Some c else None
  | SE se =>
      if (in_channels (se_conv_reduce se) =? c)
         && (out_channels_ (se_conv_reduce se) =? in_channels (se_conv_expand se))
         && (out_channels_ (se_conv_expand se) =? c)
      then Some c else None
  | Linear i o => if i =? c then Some o else None
  | Act _ | Identity | DropPath _ | AdaptiveAvgPool2d _ | Flatten _ | Dropout _ => Some c
  end.

(** The channel count of the value of a forward pass on an input of [c]
    channels; the two operands of a skip connection must agree. *)
Fixpoint expr_channels (c : Z) (e : expr) : option Z :=
  match e with
  | Input => Some c
  | App m x =>
      match expr_channels c x with
      | Some c' => module_channels m c'
      | None => None
      end
  | Add x residual =>
      match expr_channels c x, expr_channels c residual with
      | Some cx, Some cr => if cx =? cr then Some cx else None
      | _, _ => None
      end
  end.

(** * Properties *)

(** ** Binary64 arithmetic *)

(** Python's [round] is within one half of its argument. *)
Lemma py_round_bounds (x : Q) :
  (inject_Z (py_round x) - (1 # 2) <= x)%Q /\ (x <= inject_Z (py_round x) + (1 # 2))%Q.
Proof.
  unfold py_round.
  pose proof (Qfloor_le x) as Hlo. pose proof (Qlt_floor x) as Hhi.
  rewrite inject_Z_plus in Hhi. change (inject_Z 1) with 1%Q in Hhi.
  set (f := Qfloor x) in *.
  destruct (Qcompare_spec (x - inject_Z f) (1 # 2)) as [E | L | G].
  - destruct (Z.even f); [| rewrite inject_Z_plus; change (inject_Z 1) with 1%Q];
      split; lra.
  - split; lra.
  - rewrite inject_Z_plus; change (inject_Z 1) with 1%Q. split; lra.
Qed.

Lemma py_round_comp (x y : Q) : (x == y)%Q -> py_round x = py_round y.
Proof.
  intros E. unfold py_round. rewrite (Qfloor_comp _ _ E).
  assert (E' : (x - inject_Z (Qfloor y) == y - inject_Z (Qfloor y))%Q) by (rewrite E; reflexivity).
  rewrite (Qcompare_comp _ _ E' (1 # 2) (1 # 2) (Qeq_refl _)). reflexivity.
Qed.

(** A value within less than one half of an integer rounds to it. *)
Lemma py_round_near (x : Q) (k : Z) :
  (inject_Z k - (1 # 2) < x)%Q -> (x < inject_Z k + (1 # 2))%Q -> py_round x = k.
Proof.
  intros Hlo Hhi. destruct (py_round_bounds x) as [Blo Bhi].
  assert (H1 : (inject_Z (py_round x) < inject_Z k + 1)%Q) by lra.
  assert (H2 : (inject_Z k < inject_Z (py_round x) + 1)%Q) by lra.
  change 1%Q with (inject_Z 1) in H1, H2. rewrite <- inject_Z_plus in H1, H2.
  rewrite <- Zlt_Qlt in H1, H2. lia.
Qed.

Lemma py_round_Z (k : Z) : py_round (inject_Z k) = k.
Proof. apply py_round_near; lra. Qed.

Lemma Qpow2_pos (e : Z) : (0 < 2 ^ e)%Q.
Proof. apply Qpower_0_lt. reflexivity. Qed.

Lemma Qpow2_plus (a b : Z) : (2 ^ (a + b) == 2 ^ a * 2 ^ b)%Q.
Proof. apply Qpower_plus. discriminate. Qed.

Lemma Qpow2_le (a b : Z) : a <= b -> (2 ^ a <= 2 ^ b)%Q.
Proof. intros H. apply Qpower_le_compat_l; [exact H | discriminate]. Qed.

Lemma Qpow2_lt (a b : Z) : a < b -> (2 ^ a < 2 ^ b)%Q.
Proof. intros H. apply Qpower_lt_compat_l; [exact H | reflexivity]. Qed.

Lemma Qpow2_Z (n : Z) : 0 <= n -> (inject_Z (2 ^ n) == 2 ^ n)%Q.
Proof. intros H. rewrite Zpower_Qpower by exact H. reflexivity. Qed.

Lemma Qpow2_succ (a : Z) : (2 ^ (a + 1) == 2 * 2 ^ a)%Q.
Proof. rewrite Qpow2_plus. change (2 ^ 1)%Q with 2%Q. ring. Qed.

(** A positive rational between two powers of two, from the bit lengths of
    its numerator and denominator. *)
Lemma log2_bounds (a : Z) (b : positive) :
  0 < a ->
  let t := Z.log2 a - Z.log2 (Zpos b) in
  (2 ^ (t - 1) < a # b)%Q /\ (a # b < 2 ^ (t + 1))%Q.
Proof.
  intros Ha t.
  destruct (Z.log2_spec a Ha) as [Ha1 Ha2].
  destruct (Z.log2_spec (Zpos b) (Pos2Z.is_pos b)) as [Hb1 Hb2].
  pose proof (Z.log2_nonneg a) as Hla. pose proof (Z.log2_nonneg (Zpos b)) as Hlb.
  set (la := Z.log2 a) in *. set (lb := Z.log2 (Zpos b)) in *.
  rewrite Zle_Qle in Ha1, Hb1. rewrite Zlt_Qlt in Ha2, Hb2.
  rewrite Qpow2_Z in Ha1, Hb1 by lia.
  replace (Z.succ la) with (la + 1) in Ha2 by lia.
  replace (Z.succ lb) with (lb + 1) in Hb2 by lia.
  rewrite Qpow2_Z in Ha2, Hb2 by lia.
  assert (HbQ : (0 < inject_Z (Zpos b))%Q) by reflexivity.
  rewrite (Qmake_Qdiv a b).
  pose proof (Qpow2_pos (t - 1)) as P1. pose proof (Qpow2_pos (t + 1)) as P2.
  pose proof (Qpow2_pos lb) as P3. pose proof (Qpow2_pos la) as P4.
  split.
  - apply Qlt_shift_div_l; [exact HbQ|].
    apply Qlt_le_trans with (2 ^ (t - 1) * 2 ^ (lb + 1))%Q.
    + apply Qmult_lt_l; [exact P1 | exact Hb2].
    + rewrite <- Qpow2_plus. replace (t - 1 + (lb + 1)) with la by (unfold t; lia).
      exact Ha1.
  - apply Qlt_shift_div_r; [exact HbQ|].
    apply Qlt_le_trans with (2 ^ (la + 1))%Q; [exact Ha2|].
    replace (la + 1) with (t + 1 + lb) by (unfold t; lia). rewrite Qpow2_plus.
    apply Qmult_le_l; [exact P2 | exact Hb1].
Qed.

Lemma Qabs_Qmake (a : Z) (b : positive) : Qabs (a # b) = (Z.abs a # b).
Proof. reflexivity. Qed.

(** The unit of the grid of doubles around [q]. *)
Lemma binade_spec (q : Q) :
  ~ (q == 0)%Q ->
  -1074 <= binade q /\ (Qabs q < 2 ^ (binade q + 53))%Q /\
  (binade q = -1074 \/ (2 ^ (binade q + 52) <= Qabs q)%Q).
Proof.
  intros Hq. destruct q as [a b].
  assert (Ha : 0 < Z.abs a).
  { assert (a <> 0); [|lia]. intros ->. apply Hq. reflexivity. }
  unfold binade. cbn [Qnum Qden]. rewrite Qabs_Qmake.
  destruct (log2_bounds (Z.abs a) b Ha) as [Hlo Hhi]. cbn zeta in Hlo, Hhi.
  set (t := Z.log2 (Z.abs a) - Z.log2 (Zpos b)) in *.
  assert (Ht : exists t', (if Qle_bool (2 ^ t) (Z.abs a # b) then t else t - 1) = t' /\
                          (2 ^ t' <= Z.abs a # b)%Q /\ (Z.abs a # b < 2 ^ (t' + 1))%Q).
  { destruct (Qle_bool (2 ^ t) (Z.abs a # b)) eqn:E.
    - exists t. apply Qle_bool_iff in E. auto.
    - exists (t - 1). split; [reflexivity|]. split; [apply Qlt_le_weak; exact Hlo|].
      replace (t - 1 + 1) with t by lia. apply Qnot_le_lt. intros Hle.
      apply Qle_bool_iff in Hle. congruence. }
  destruct Ht as (t' & -> & Hlo' & Hhi'). clear Hlo Hhi.
  split; [lia|]. destruct (Z.max_spec (t' - 52) (-1074)) as [[Hc ->] | [Hc ->]].
  - split; [|left; reflexivity].
    eapply Qlt_le_trans; [exact Hhi'|]. apply Qpow2_le. lia.
  - split.
    + replace (t' - 52 + 53) with (t' + 1) by lia. exact Hhi'.
    + right. replace (t' - 52 + 52) with t' by lia. exact Hlo'.
Qed.

Lemma round64_comp (q q' : Q) : (q == q')%Q -> round64 q = round64 q'.
Proof. intros E. unfold round64. rewrite (Qred_complete _ _ E). reflexivity. Qed.

Lemma Qabs_sign (q : Q) :
  ((if Qnum q <? 0 then - Qabs q else Qabs q) == q)%Q.
Proof.
  destruct q as [a b]. cbn [Qnum]. rewrite Qabs_Qmake.
  destruct (Z.ltb_spec a 0).
  - unfold Qopp, Qeq. cbn. lia.
  - unfold Qeq. cbn. lia.
Qed.

(** Rounding to the nearest double: a magnitude below [2^1023] gives a
    finite double, at most half a unit of its grid away. *)
Lemma round64_grid (q : Q) :
  ~ (q == 0)%Q -> (Qabs q < 2 ^ 1023)%Q ->
  exists v, round64 q = Finite v /\
            (Qabs (v - q) <= 2 ^ (binade (Qred q) - 1))%Q.
Proof.
  intros Hq Hb. unfold round64.
  assert (Eq : (Qred q == q)%Q) by apply Qred_correct.
  set (q' := Qred q) in *.
  assert (Hq' : ~ (q' == 0)%Q) by (rewrite Eq; exact Hq).
  assert (Hb' : (Qabs q' < 2 ^ 1023)%Q) by (rewrite Eq; exact Hb).
  destruct (binade_spec q' Hq') as (He & Hhi & Hlo).
  set (e := binade q') in *.
  pose proof (Qpow2_pos e) as Pe.
  destruct (py_round_bounds (Qabs q' / 2 ^ e)) as [Blo Bhi].
  set (m := py_round (Qabs q' / 2 ^ e)) in *.
  assert (Ne : ~ (2 ^ e == 0)%Q) by lra.
  assert (Em : (Qabs q' / 2 ^ e * 2 ^ e == Qabs q')%Q) by (field; exact Ne).
  assert (Eh : (2 ^ (e - 1) * 2 == 2 ^ e)%Q).
  { replace e with (e - 1 + 1) at 2 by lia. rewrite Qpow2_succ. ring. }
  pose proof (Qpow2_pos (e - 1)) as Pe1.
  apply (Qmult_le_r _ _ _ Pe) in Blo, Bhi. rewrite Em in Blo, Bhi.
  assert (D1 : (inject_Z m * 2 ^ e - Qabs q' <= 2 ^ (e - 1))%Q) by lra.
  assert (D2 : (Qabs q' - inject_Z m * 2 ^ e <= 2 ^ (e - 1))%Q) by lra.
  assert (Hsmall : (2 ^ (e - 1) < 2 ^ 1023)%Q).
  { destruct Hlo as [-> | Hlo]; [apply Qpow2_lt; lia|].
    eapply Qlt_trans; [|exact Hb']. eapply Qlt_le_trans; [|exact Hlo].
    apply Qpow2_lt. lia. }
  assert (Hfin : Qle_bool (2 ^ 1024) (inject_Z m * 2 ^ e) = false).
  { destruct (Qle_bool _ _) eqn:E; [|reflexivity]. apply Qle_bool_iff in E.
    assert (E2 : (2 ^ 1024 == 2 * 2 ^ 1023)%Q) by reflexivity.
    rewrite E2 in E. lra. }
  rewrite Hfin. eexists. split; [reflexivity|].
  rewrite Qred_correct.
  pose proof (Qabs_sign q') as Hs.
  apply Qabs_Qle_condition.
  destruct (Qnum q' <? 0); rewrite <- Eq; split; lra.
Qed.

Lemma Qred_0 (q : Q) : (q == 0)%Q -> Qred q = 0%Q.
Proof. intros E. apply (Qred_complete q 0 E). Qed.

Lemma round64_0 (q : Q) : (q == 0)%Q -> round64 q = Finite 0.
Proof. intros E. rewrite (round64_comp q 0 E). reflexivity. Qed.

Lemma round64_finite (q : Q) :
  (Qabs q < 2 ^ 1023)%Q -> exists v, round64 q = Finite v.
Proof.
  intros Hb. destruct (Qeq_dec q 0) as [E|N].
  - exists 0%Q. apply round64_0. exact E.
  - destruct (round64_grid q N Hb) as (v & Hv & _). eauto.
Qed.

(** In the normal range the relative error is at most [2^-53]. *)
Lemma round64_rel (q : Q) :
  (q == 0)%Q \/ (2 ^ (-1022) <= Qabs q)%Q -> (Qabs q < 2 ^ 1023)%Q ->
  exists v, round64 q = Finite v /\ (Qabs (v - q) <= Qabs q * 2 ^ (-53))%Q.
Proof.
  intros Hn Hb. destruct (Qeq_dec q 0) as [E|N].
  - exists 0%Q. split; [apply round64_0; exact E|]. rewrite E. cbn. discriminate.
  - destruct Hn as [E|Hn]; [contradiction|].
    destruct (round64_grid q N Hb) as (v & Hv & Herr).
    exists v. split; [exact Hv|]. eapply Qle_trans; [exact Herr|].
    assert (Eq : (Qred q == q)%Q) by apply Qred_correct.
    assert (Hq' : ~ (Qred q == 0)%Q) by (rewrite Eq; exact N).
    destruct (binade_spec (Qred q) Hq') as (He & _ & Hlo).
    set (e := binade (Qred q)) in *.
    assert (Hlo' : (2 ^ (e + 52) <= Qabs q)%Q).
    { destruct Hlo as [-> | Hlo]; [exact Hn | rewrite <- Eq; exact Hlo]. }
    replace (e - 1) with (e + 52 + -53) by lia. rewrite Qpow2_plus.
    apply Qmult_le_r; [apply Qpow2_pos | exact Hlo'].
Qed.

Lemma Qred_inject_Z (n : Z) : Qred (inject_Z n) = inject_Z n.
Proof.
  unfold Qred, inject_Z.
  pose proof (Z.ggcd_correct_divisors n 1) as Hd. pose proof (Z.ggcd_gcd n 1) as Hg.
  destruct (Z.ggcd n 1) as [g [aa bb]]. cbn [fst snd] in *.
  rewrite Z.gcd_1_r in Hg. subst g. destruct Hd as [Ha Hb].
  replace aa with n by lia. replace bb with 1 by lia. reflexivity.
Qed.

(** Integers below [2^53] in magnitude are doubles. *)
Lemma round64_Z (n : Z) : Z.abs n < 2 ^ 53 -> round64 (inject_Z n) = Finite (inject_Z n).
Proof.
  intros Hn. destruct (Z.eq_dec n 0) as [->|Hn0]; [reflexivity|].
  unfold round64. cbv zeta. rewrite !Qred_inject_Z.
  assert (Hq : ~ (inject_Z n == 0)%Q).
  { intros E. apply (inject_Z_injective n 0) in E. contradiction. }
  destruct (binade_spec (inject_Z n) Hq) as (He & Hhi & Hlo).
  set (e := binade (inject_Z n)) in *.
  assert (Eabs : Qabs (inject_Z n) = inject_Z (Z.abs n)) by reflexivity.
  rewrite Eabs in *.
  assert (He0 : e <= 0).
  { destruct Hlo as [-> | Hlo]; [lia|].
    destruct (Z_le_gt_dec e 0) as [?|Hgt]; [assumption|exfalso].
    assert (H53 : (2 ^ 53 <= 2 ^ (e + 52))%Q) by (apply Qpow2_le; lia).
    rewrite Zlt_Qlt in Hn. rewrite Qpow2_Z in Hn by lia. lra. }
  assert (Ediv : (inject_Z (Z.abs n) / 2 ^ e == inject_Z (Z.abs n * 2 ^ (- e)))%Q).
  { rewrite inject_Z_mult, Qpow2_Z by lia. rewrite Qpower_opp.
    unfold Qdiv. reflexivity. }
  rewrite (py_round_comp _ _ Ediv), py_round_Z.
  assert (Ev : (inject_Z (Z.abs n * 2 ^ (- e)) * 2 ^ e == inject_Z (Z.abs n))%Q).
  { rewrite inject_Z_mult, Qpow2_Z by lia. rewrite Qpower_opp.
    pose proof (Qpow2_pos e). field. lra. }
  assert (Hfin : Qle_bool (2 ^ 1024) (inject_Z (Z.abs n * 2 ^ (- e)) * 2 ^ e) = false).
  { destruct (Qle_bool _ _) eqn:E; [|reflexivity]. apply Qle_bool_iff in E.
    rewrite Ev in E. rewrite Zlt_Qlt in Hn. rewrite Qpow2_Z in Hn by lia.
    assert (H53 : (2 ^ 53 <= 2 ^ 1024)%Q) by (apply Qpow2_le; lia). lra. }
  rewrite Hfin. f_equal.
  etransitivity; [apply Qred_complete | apply Qred_inject_Z].
  pose proof (Qabs_sign (inject_Z n)) as Hs. rewrite Eabs in Hs.
  change (Qnum (inject_Z n)) with n in Hs |- *.
  destruct (n <? 0).
  - rewrite Ev. exact Hs.
  - rewrite Ev. exact Hs.
Qed.

(** A result below [2^k] in magnitude is rounded with an absolute error of
    at most [2^(k-53)]. *)
Lemma round64_abs (q : Q) (k : Z) :
  -1022 <= k <= 1023 -> (Qabs q < 2 ^ k)%Q ->
  exists v, round64 q = Finite v /\ (Qabs (v - q) <= 2 ^ (k - 53))%Q.
Proof.
  intros Hk Hb. destruct (Qeq_dec q 0) as [E|N].
  - exists 0%Q. split; [apply round64_0; exact E|]. rewrite E.
    apply Qlt_le_weak. apply Qpow2_pos.
  - assert (Hb' : (Qabs q < 2 ^ 1023)%Q).
    { eapply Qlt_le_trans; [exact Hb|]. apply Qpow2_le. lia. }
    destruct (round64_grid q N Hb') as (v & Hv & Herr).
    exists v. split; [exact Hv|]. eapply Qle_trans; [exact Herr|].
    assert (Eq : (Qred q == q)%Q) by apply Qred_correct.
    assert (Hq' : ~ (Qred q == 0)%Q) by (rewrite Eq; exact N).
    destruct (binade_spec (Qred q) Hq') as (He & _ & Hlo).
    set (e := binade (Qred q)) in *.
    apply Qpow2_le. destruct Hlo as [-> | Hlo]; [lia|].
    rewrite Eq in Hlo.
    assert (Hlt : (2 ^ (e + 52) < 2 ^ k)%Q) by (eapply Qle_lt_trans; eauto).
    apply Qpower_lt_compat_l_inv in Hlt; [lia | reflexivity].
Qed.

(** The operations of Python on these numbers. *)

Lemma float_of_int_small (n : Z) :
  Z.abs n < 2 ^ 53 -> float_of_int n = Ok (inject_Z n).
Proof. intros Hn. unfold float_of_int. rewrite (round64_Z n Hn). reflexivity. Qed.

Lemma Qabs_inject_Z (n : Z) : Qabs (inject_Z n) = inject_Z (Z.abs n).
Proof. reflexivity. Qed.

(** The quotient of two integers is no larger than the dividend. *)
Lemma Qabs_quotient (a b : Z) :
  b <> 0 -> (Qabs (inject_Z a / inject_Z b) <= inject_Z (Z.abs a))%Q.
Proof.
  intros Hb. unfold Qdiv. rewrite Qabs_Qmult, Qabs_Qinv, !Qabs_inject_Z.
  assert (H1 : (1 <= inject_Z (Z.abs b))%Q).
  { assert (1 <= Z.abs b) by lia. rewrite (Zle_Qle 1) in H. exact H. }
  assert (H0 : (0 <= inject_Z (Z.abs a))%Q).
  { assert (0 <= Z.abs a) by lia. rewrite (Zle_Qle 0) in H. exact H. }
  apply Qle_shift_div_r; [lra|]. nra.
Qed.

Lemma int_truediv_zero (a : Z) : int_truediv a 0 = Raise ZeroDivisionError.
Proof. reflexivity. Qed.

(** A quotient, or an [int], beyond the doubles is an [OverflowError]; a
    quotient below them is 0. *)
Lemma int_truediv_overflow :
  int_truediv (2 ^ 1024) 1 = Raise OverflowError /\
  float_of_int (2 ^ 1024 - 1) = Raise OverflowError /\
  int_truediv 1 (10 ^ 400) = Ok 0%Q.
Proof. repeat split; vm_compute; reflexivity. Qed.

(** A true division raises only on a zero divisor, or on a dividend
    beyond the range of the doubles. *)
Lemma int_truediv_returns (a b : Z) :
  b <> 0 -> Z.abs a < 2 ^ 1023 -> exists q, int_truediv a b = Ok q.
Proof.
  intros Hb Ha. unfold int_truediv.
  destruct (Z.eqb_spec b 0) as [?|_]; [contradiction|].
  destruct (round64_finite (inject_Z a / inject_Z b)) as (v & ->); [|eauto].
  eapply Qle_lt_trans; [apply Qabs_quotient; exact Hb|].
  rewrite Zlt_Qlt in Ha. rewrite Qpow2_Z in Ha by lia. exact Ha.
Qed.

(** ** Padding resolver *)

(** C9: a numeric padding value, a number or a pair, is returned unchanged
    and the convolution is static, whatever the kernel size, stride and
    dilation. *)
Theorem get_padding_numeric :
  (forall p k s d, get_padding (PadInt p) k s d = (PadInt p, false)) /\
  (forall p k s d, get_padding (PadPair p) k s d = (PadPair p, false)).
Proof. split; intros; reflexivity. Qed.

Lemma Qceiling_unique (q : Q) (z : Z) :
  (inject_Z (z - 1) < q)%Q -> (q <= inject_Z z)%Q -> Qceiling q = z.
Proof.
  intros Hlo Hhi.
  pose proof (Qle_ceiling q) as Hc. pose proof (Qceiling_lt q) as Hl.
  assert (z - 1 < Qceiling q) by (rewrite Zlt_Qlt; eapply Qlt_le_trans; eauto).
  assert (Qceiling q - 1 < z) by (rewrite Zlt_Qlt; eapply Qlt_le_trans; eauto).
  lia.
Qed.

Lemma Qceiling_minus_one (q : Q) : Qceiling (q - 1)%Q = Qceiling q - 1.
Proof.
  pose proof (Qle_ceiling q) as Hc. pose proof (Qceiling_lt q) as Hl.
  apply Qceiling_unique.
  - replace (Qceiling q - 1 - 1) with ((Qceiling q - 1) + -1) by lia.
    rewrite inject_Z_plus. apply Qplus_lt_l. exact Hl.
  - replace (Qceiling q - 1) with (Qceiling q + -1) by lia.
    rewrite inject_Z_plus. apply Qplus_le_l. exact Hc.
Qed.

Lemma Qceiling_div_bounds (x s : Z) : 0 < s ->
  (Qceiling (inject_Z x / inject_Z s)%Q - 1) * s < x <= Qceiling (inject_Z x / inject_Z s)%Q * s.
Proof.
  intros Hs. set (q := (inject_Z x / inject_Z s)%Q).
  pose proof (Qle_ceiling q) as Hhi. pose proof (Qceiling_lt q) as Hlo.
  set (c := Qceiling q) in *.
  assert (HsQ : (0 < inject_Z s)%Q) by (rewrite (Zlt_Qlt 0 s) in Hs; exact Hs).
  assert (Hne : ~ (inject_Z s == 0)%Q) by lra.
  assert (E : (q * inject_Z s == inject_Z x)%Q) by (unfold q; field; exact Hne).
  split.
  - apply (Qmult_lt_r _ _ _ HsQ) in Hlo. rewrite E in Hlo.
    rewrite Zlt_Qlt, inject_Z_mult. exact Hlo.
  - apply (Qmult_le_r _ _ _ HsQ) in Hhi. rewrite E in Hhi.
    rewrite Zle_Qle, inject_Z_mult. exact Hhi.
Qed.

Lemma ceil_div_zero (x : Z) : ceil_div x 0 = Raise ZeroDivisionError.
Proof. reflexivity. Qed.

(** [math.ceil(x / s)] raises only on a zero divisor, or on a dividend
    beyond the range of the doubles. *)
Lemma ceil_div_returns (x s : Z) :
  s <> 0 -> Z.abs x < 2 ^ 1023 -> exists c, ceil_div x s = Ok c.
Proof.
  intros Hs Hx. unfold ceil_div.
  destruct (int_truediv_returns x s Hs Hx) as (q & ->). cbn. eauto.
Qed.

(** Below [2^53] the rounding of the quotient does not move its ceiling. *)
Lemma ceil_div_exact (x s : Z) :
  0 <= x < 2 ^ 53 -> 1 <= s <= 2 ^ 1022 ->
  ceil_div x s = Ok (Qceiling (inject_Z x / inject_Z s)%Q).
Proof.
  intros Hx Hs. unfold ceil_div, int_truediv.
  destruct (Z.eqb_spec s 0) as [?|_]; [lia|].
  pose proof (Qceiling_div_bounds x s ltac:(lia)) as [Hlo Hhi].
  set (t := (inject_Z x / inject_Z s)%Q) in *. set (c := Qceiling t) in *.
  assert (HsQ : (0 < inject_Z s)%Q).
  { assert (0 < s) by lia. rewrite (Zlt_Qlt 0 s) in H. exact H. }
  assert (Et : (t * inject_Z s == inject_Z x)%Q) by (unfold t; field; lra).
  destruct (Z.eq_dec x (c * s)) as [Ex|Nx].
  - assert (Ec : (t == inject_Z c)%Q).
    { unfold t. rewrite Ex, inject_Z_mult. field. lra. }
    assert (Hc : Z.abs c < 2 ^ 53) by nia.
    rewrite (round64_comp _ _ Ec), (round64_Z c Hc). cbn.
    rewrite Qceiling_Z. reflexivity.
  - assert (Hx1 : 1 <= x).
    { destruct (Z.eq_dec x 0) as [->|?]; [exfalso | lia].
      assert (c = 0); [|subst c; lia].
      assert (c - 1 < 0) by (apply Z.nle_gt; intros ?; nia).
      assert (0 <= c) by (apply Z.nlt_ge; intros ?; nia). lia. }
    assert (Hlo' : (c - 1) * s + 1 <= x) by lia.
    assert (Hhi' : x + 1 <= c * s) by lia.
    rewrite Zle_Qle in Hx1, Hlo', Hhi'.
    rewrite !inject_Z_plus, !inject_Z_mult in Hlo', Hhi'. unfold Z.sub in Hlo'.
    rewrite inject_Z_plus in Hlo'.
    change (inject_Z (-1)) with (-1)%Q in Hlo'. change (inject_Z 1) with 1%Q in *.
    assert (HxQ : (inject_Z x < 2 ^ 53)%Q).
    { destruct Hx as [_ Hx]. rewrite Zlt_Qlt in Hx. rewrite Qpow2_Z in Hx by lia.
      exact Hx. }
    assert (HsQ' : (inject_Z s <= 2 ^ 1022)%Q).
    { destruct Hs as [_ Hs]. rewrite Zle_Qle in Hs. rewrite Qpow2_Z in Hs by lia.
      exact Hs. }
    assert (Ht0 : (0 < t)%Q).
    { unfold t. apply Qlt_shift_div_l; [exact HsQ | lra]. }
    assert (Habs : (Qabs t == t)%Q) by (apply Qabs_pos; lra).
    assert (Hnorm : (2 ^ (-1022) <= Qabs t)%Q).
    { rewrite Habs. unfold t. apply Qle_shift_div_l; [exact HsQ|].
      assert (E : (2 ^ (-1022) * 2 ^ 1022 == 1)%Q) by reflexivity.
      pose proof (Qpow2_pos (-1022)). nra. }
    assert (Hfin : (Qabs t < 2 ^ 1023)%Q).
    { rewrite Habs. assert (Hle : (t <= inject_Z x)%Q).
      { unfold t. apply Qle_shift_div_r; [exact HsQ|].
        assert (1 <= inject_Z s)%Q by (destruct Hs as [Hs _]; rewrite (Zle_Qle 1) in Hs; exact Hs).
        nra. }
      assert (2 ^ 53 <= 2 ^ 1023)%Q by (apply Qpow2_le; lia). lra. }
    destruct (round64_rel t (or_intror Hnorm) Hfin) as (v & -> & Herr). cbn.
    rewrite Habs in Herr. apply Qabs_Qle_condition in Herr as [E1 E2].
    set (eps := (2 ^ (-53))%Q) in *.
    assert (Heps : (inject_Z x * eps < 1)%Q).
    { assert (E : (2 ^ 53 * eps == 1)%Q) by reflexivity.
      assert (0 < eps)%Q by apply Qpow2_pos. nra. }
    f_equal. apply Qceiling_unique.
    + unfold Z.sub. rewrite inject_Z_plus. change (inject_Z (-1)) with (-1)%Q.
      apply (Qmult_lt_r _ _ (inject_Z s) HsQ).
      assert (Hv : ((t - t * eps) * inject_Z s <= v * inject_Z s)%Q).
      { apply Qmult_le_compat_r; lra. }
      assert (E : ((t - t * eps) * inject_Z s == inject_Z x - inject_Z x * eps)%Q).
      { rewrite <- Et. ring. }
      rewrite E in Hv. lra.
    + apply (Qmult_le_r _ _ (inject_Z s) HsQ).
      assert (Hv : (v * inject_Z s <= (t + t * eps) * inject_Z s)%Q).
      { apply Qmult_le_compat_r; lra. }
      assert (E : ((t + t * eps) * inject_Z s == inject_Z x + inject_Z x * eps)%Q).
      { rewrite <- Et. ring. }
      rewrite E in Hv. lra.
Qed.

(** The per-axis amount in the form the padding rule is usually written,
    for sizes that the doubles hold exactly. *)
Lemma get_same_padding_formula x k s d :
  0 <= x < 2 ^ 53 -> 1 <= s <= 2 ^ 1022 ->
  get_same_padding x k s d =
  Ok (Z.max 0 (Qceiling (inject_Z x / inject_Z s - 1)%Q * s + (k - 1) * d + 1 - x)).
Proof.
  intros Hx Hs. unfold get_same_padding. rewrite (ceil_div_exact _ _ Hx Hs). simpl.
  rewrite Qceiling_minus_one. f_equal. lia.
Qed.

Lemma get_same_padding_zero (x k d : Z) :
  get_same_padding x k 0 d = Raise ZeroDivisionError.
Proof. reflexivity. Qed.

Lemma get_same_padding_returns (x k s d : Z) :
  s <> 0 -> Z.abs x < 2 ^ 1023 ->
  exists pad, get_same_padding x k s d = Ok pad /\ 0 <= pad.
Proof.
  intros Hs Hx. unfold get_same_padding.
  destruct (ceil_div_returns x s Hs Hx) as (c & ->). cbn [bind].
  eexists. split; [reflexivity | lia].
Qed.

(** Beyond [2^53] the float quotient can lose the last unit: on an axis of
    [2^53 + 1] with kernel 3 and stride 1 the code pads by 1, where the
    exact ceiling would give 2. *)
Lemma get_same_padding_beyond_2_53 :
  get_same_padding (2 ^ 53 + 1) 3 1 1 = Ok 1 /\
  Z.max 0 (Qceiling (inject_Z (2 ^ 53 + 1) / inject_Z 1 - 1)%Q * 1 + (3 - 1) * 1 + 1
           - (2 ^ 53 + 1)) = 2.
Proof. split; vm_compute; reflexivity. Qed.

Lemma get_same_padding_7 : get_same_padding 7 3 2 1 = Ok 2.
Proof. vm_compute. reflexivity. Qed.

(** C2 (as stated): on a 7x7 input with kernel 3, stride 2 and dilation 1
    the required padding is not 1 per axis, and the input is not padded by
    (0,1) per axis. *)
Lemma pad_same_7x7_not_0_1 :
  get_same_padding 7 3 2 1 <> Ok 1 /\
  pad_same ones7 (3, 3) (2, 2) (1, 1) <> Ok (F_pad ones7 [0; 1; 0; 1]).
Proof. split; vm_compute; discriminate. Qed.

(** C2 (amended): on a 7x7 input with kernel 3, stride 2 and dilation 1 the
    per-axis formula gives a total padding of 2, which [pad_same] splits
    into 1 on the leading and 1 on the trailing edge of each axis, so that
    the padded input is 9x9. *)
Theorem pad_same_7x7 (x : tensor) :
  shape_hw x = (7, 7) ->
  Z.max 0 (Qceiling (inject_Z 7 / inject_Z 2 - 1)%Q * 2 + (3 - 1) * 1 + 1 - 7) = 2 /\
  get_same_padding 7 3 2 1 = Ok 2 /\
  pad_same x (3, 3) (2, 2) (1, 1) = Ok (F_pad x [2 / 2; 2 - 2 / 2; 2 / 2; 2 - 2 / 2]) /\
  F_pad x [2 / 2; 2 - 2 / 2; 2 / 2; 2 - 2 / 2] = F_pad x [1; 1; 1; 1] /\
  shape_hw (F_pad x [1; 1; 1; 1]) = (9, 9).
Proof.
  intros Hx. split; [reflexivity|]. split; [reflexivity|].
  split; [|split; [reflexivity|]].
  - unfold pad_same. rewrite Hx. cbn [fst snd].
    rewrite get_same_padding_7. reflexivity.
  - unfold shape_hw in *. injection Hx as Hh Hw.
    unfold F_pad. change (Z.to_nat 1) with 1%nat.
    cbn [replicate app hd length].
    rewrite ?length_app, ?length_map, ?length_replicate. cbn [length].
    f_equal; lia.
Qed.

Lemma pad_same_7x7_witness :
  shape_hw ones7 = (7, 7) /\
  pad_same ones7 (3, 3) (2, 2) (1, 1) = Ok (F_pad ones7 [1; 1; 1; 1]).
Proof.
  split; [reflexivity|].
  destruct (pad_same_7x7 ones7 eq_refl) as (_ & _ & H & _). exact H.
Defined.

(** ** Block library *)

Lemma residual_eligible_iff (a : block_args) (flag : bool) :
  flag = ((a_in_channel a =? a_out_channel a) && (a_stride a =? 1)) && negb (a_noskip a)
  \/ flag = ((a_stride a =? 1) && (a_in_channel a =? a_out_channel a)) && negb (a_noskip a) ->
  flag = true <-> residual_eligible a.
Proof.
  unfold residual_eligible. intros [-> | ->];
    rewrite !andb_true_iff, negb_true_iff, !Z.eqb_eq; tauto.
Qed.

(** C5: each of the three block constructors, called with a kernel size
    it accepts, builds a block whose residual connection is present exactly
    when the stride is 1, the input and output channels agree and [noskip]
    is false; with the residual, the forward pass applies the drop-path
    module to the output of the branch and then adds the input. *)
Theorem residual_policy `{External} (a : block_args) :
  kernel_ok (a_kernel_size a) = true ->
  (exists b, DepthwiseSeparableConv.init a = Ok b /\
     (DepthwiseSeparableConv.has_residual b = true <-> residual_eligible a) /\
     forall x, DepthwiseSeparableConv.forward b x =
       if DepthwiseSeparableConv.has_residual b
       then Add (App (DepthwiseSeparableConv.drop_path b)
                     (DepthwiseSeparableConv.branch b x)) x
       else DepthwiseSeparableConv.branch b x) /\
  (exists b, InvertedResidualBlock.init a = Ok b /\
     (InvertedResidualBlock.has_residual b = true <-> residual_eligible a) /\
     forall x, InvertedResidualBlock.forward b x =
       if InvertedResidualBlock.has_residual b
       then Add (App (InvertedResidualBlock.drop_path b)
                     (InvertedResidualBlock.branch b x)) x
       else InvertedResidualBlock.branch b x) /\
  (exists b, EdgeResidual.init a = Ok b /\
     (EdgeResidual.has_residual b = true <-> residual_eligible a) /\
     forall x, EdgeResidual.forward b x =
       if EdgeResidual.has_residual b
       then Add (App (EdgeResidual.drop_path b) (EdgeResidual.branch b x)) x
       else EdgeResidual.branch b x).
Proof.
  intros Hk.
  unfold DepthwiseSeparableConv.init, InvertedResidualBlock.init, EdgeResidual.init.
  rewrite Hk. cbn [py_assert bind].
  repeat split; try (eexists; split; [reflexivity|]; split; [|reflexivity]);
    cbn; apply residual_eligible_iff; auto.
Qed.

Lemma residual_policy_witness :
  kernel_ok (a_kernel_size sample_args) = true /\
  exists b, @DepthwiseSeparableConv.init decimal_env sample_args = Ok b /\
            DepthwiseSeparableConv.has_residual b = true.
Proof.
  split; [reflexivity|].
  destruct (@residual_policy decimal_env sample_args eq_refl) as ((b & Hb & Hr & _) & _).
  exists b. split; [exact Hb|]. apply Hr. repeat split.
Defined.

(** ** Depth scaler *)

Lemma inject_Z_pos (n : Z) : 0 < n -> (0 < inject_Z n)%Q.
Proof. intros H. rewrite (Zlt_Qlt 0 n) in H. exact H. Qed.

Lemma inject_Z_ge_1 (n : Z) : 1 <= n -> (1 <= inject_Z n)%Q.
Proof. intros H. rewrite (Zle_Qle 1 n) in H. exact H. Qed.

Lemma inject_Z_lt_pow2 (n k : Z) : 0 <= k -> n < 2 ^ k -> (inject_Z n < 2 ^ k)%Q.
Proof. intros Hk Hn. rewrite Zlt_Qlt in Hn. rewrite Qpow2_Z in Hn by exact Hk. exact Hn. Qed.

Lemma inject_Z_abs_lt_pow2 (n k : Z) :
  0 <= k -> Z.abs n < 2 ^ k -> (- 2 ^ k < inject_Z n)%Q /\ (inject_Z n < 2 ^ k)%Q.
Proof.
  intros Hk Hn.
  assert (H1 : n < 2 ^ k) by lia. assert (H2 : - n < 2 ^ k) by lia.
  apply (inject_Z_lt_pow2 _ _ Hk) in H1, H2. rewrite inject_Z_opp in H2. split; lra.
Qed.

(** The share of one substage: the code's [round(r / num_repeat *
    num_repeat_scaled)] is within three quarters of the exact quotient
    [r * num_repeat_scaled / num_repeat], and is [num_repeat_scaled] itself
    for the substage that is left alone. *)
Lemma scaled_share_spec (r n S : Z) :
  1 <= r <= n -> n < 2 ^ 48 -> Z.abs S < 2 ^ 48 ->
  exists k, scaled_share r n S = Ok k /\
            (4 * k - 3) * n <= 4 * r * S <= (4 * k + 3) * n /\
            (r = n -> k = S).
Proof.
  intros Hr Hn HS. unfold scaled_share, int_truediv.
  destruct (Z.eqb_spec n 0) as [?|_]; [lia|].
  rewrite (float_of_int_small S) by lia.
  destruct (Z.eq_dec r n) as [->|Hne].
  - assert (E1 : (inject_Z n / inject_Z n == inject_Z 1)%Q).
    { pose proof (inject_Z_pos n ltac:(lia)).
      change (inject_Z 1) with 1%Q. field. lra. }
    rewrite (round64_comp _ _ E1), (round64_Z 1) by (cbn; lia).
    cbn [bind]. unfold float_mul.
    assert (E2 : (inject_Z 1 * inject_Z S == inject_Z S)%Q)
      by (change (inject_Z 1) with 1%Q; ring).
    rewrite (round64_comp _ _ E2), (round64_Z S) by lia.
    cbn [round_float]. rewrite py_round_Z.
    exists S. split; [reflexivity|]. split; [nia | reflexivity].
  - set (t := (inject_Z r / inject_Z n)%Q).
    assert (HnQ : (0 < inject_Z n)%Q) by (apply inject_Z_pos; lia).
    assert (HrQ : (1 <= inject_Z r)%Q) by (apply inject_Z_ge_1; lia).
    assert (Hrn : (inject_Z r < inject_Z n)%Q) by (rewrite <- Zlt_Qlt; lia).
    assert (Et : (t * inject_Z n == inject_Z r)%Q) by (unfold t; field; lra).
    assert (Ht0 : (0 < t)%Q) by (unfold t; apply Qlt_shift_div_l; lra).
    assert (Ht1 : (t < 1)%Q) by (unfold t; apply Qlt_shift_div_r; lra).
    destruct (round64_abs t 0) as (f & -> & Hf); [lia | |].
    { apply Qabs_Qlt_condition. change (2 ^ 0)%Q with 1%Q. split; lra. }
    cbn [bind]. unfold float_mul.
    apply Qabs_Qle_condition in Hf as [Hf1 Hf2].
    set (eps := (2 ^ (0 - 53))%Q) in *.
    assert (Heps : (eps == 1 # 9007199254740992)%Q) by reflexivity.
    destruct (inject_Z_abs_lt_pow2 S 48 ltac:(lia) HS) as [HS1 HS2].
    set (Sq := inject_Z S) in *.
    assert (E48 : (2 ^ 48 == 281474976710656)%Q) by reflexivity.
    rewrite E48 in HS1, HS2.
    assert (Hprod : (- (1 # 32) <= (f - t) * Sq)%Q /\ ((f - t) * Sq <= 1 # 32)%Q).
    { rewrite Heps in Hf1, Hf2. split; nra. }
    assert (Hp : (Qabs (f * Sq) < 2 ^ 49)%Q).
    { apply Qabs_Qlt_condition.
      assert (E49 : (2 ^ 49 == 562949953421312)%Q) by reflexivity.
      rewrite E49. assert (E : (f * Sq == t * Sq + (f - t) * Sq)%Q) by ring.
      rewrite E. split; nra. }
    destruct (round64_abs (f * Sq) 49) as (x' & -> & Hx); [lia | exact Hp |].
    cbn [round_float].
    apply Qabs_Qle_condition in Hx as [Hx1 Hx2].
    assert (E4 : (2 ^ (49 - 53) == 1 # 16)%Q) by reflexivity.
    rewrite E4 in Hx1, Hx2.
    destruct (py_round_bounds x') as [Bl Bh].
    set (k := py_round x') in *. exists k. split; [reflexivity|].
    split; [|intros ->; contradiction].
    assert (E : (f * Sq == t * Sq + (f - t) * Sq)%Q) by ring.
    rewrite E in Hx1, Hx2.
    assert (Hlo : ((inject_Z k - (3 # 4)) * inject_Z n <= inject_Z r * Sq)%Q).
    { rewrite <- Et.
      assert (E' : (t * inject_Z n * Sq == (t * Sq) * inject_Z n)%Q) by ring.
      rewrite E'. apply Qmult_le_compat_r; lra. }
    assert (Hhi : (inject_Z r * Sq <= (inject_Z k + (3 # 4)) * inject_Z n)%Q).
    { rewrite <- Et.
      assert (E' : (t * inject_Z n * Sq == (t * Sq) * inject_Z n)%Q) by ring.
      rewrite E'. apply Qmult_le_compat_r; lra. }
    unfold Sq in Hlo, Hhi. split.
    + rewrite Zle_Qle. unfold Z.sub.
      rewrite !inject_Z_mult, inject_Z_plus, !inject_Z_mult, inject_Z_opp.
      change (inject_Z 4) with 4%Q. change (inject_Z 3) with 3%Q. lra.
    + rewrite Zle_Qle.
      rewrite !inject_Z_mult, inject_Z_plus, !inject_Z_mult.
      change (inject_Z 4) with 4%Q. change (inject_Z 3) with 3%Q. lra.
Qed.

Lemma sum_Z_app (l1 l2 : list Z) : sum_Z (l1 ++ l2) = sum_Z l1 + sum_Z l2.
Proof.
  unfold sum_Z. induction l1 as [|a l1 IH]; cbn; [reflexivity | rewrite IH; lia].
Qed.

Lemma sum_Z_rev (l : list Z) : sum_Z (rev l) = sum_Z l.
Proof.
  induction l as [|a l IH]; [reflexivity|].
  cbn [rev]. rewrite sum_Z_app, IH. unfold sum_Z. cbn. lia.
Qed.

Lemma sum_Z_ge_length (l : list Z) :
  Forall (fun r => 1 <= r) l -> Z.of_nat (length l) <= sum_Z l.
Proof. unfold sum_Z. induction 1; cbn [fold_right length]; lia. Qed.

(** The greedy loop, for magnitudes below [2^48]: it returns, every count
    it emits is at least 1, and the counts add up to at least the scaled
    budget; when the scaled budget covers the raw one the counts use it up
    exactly; when the two are equal the counts are the raw ones; a single
    substage gets the whole budget, or 1. *)
Lemma scale_loop_spec (rs : list Z) :
  forall N S acc,
    Forall (fun r => 1 <= r) rs -> N = sum_Z rs -> N < 2 ^ 48 ->
    Z.abs S + Z.of_nat (length rs) < 2 ^ 48 ->
    exists l, scale_loop rs N S acc = Ok (acc ++ l) /\
              length l = length rs /\
              Forall (fun r => 1 <= r) l /\
              (rs <> [] -> S <= sum_Z l) /\
              (rs <> [] -> N <= S -> sum_Z l = S) /\
              (N = S -> l = rs) /\
              (length rs = 1%nat -> l = [Z.max 1 S]).
Proof.
  induction rs as [|r rs IH]; intros N S acc Hrs HN HNb HSb.
  - exists []. cbn. rewrite app_nil_r. repeat split; auto; try congruence; discriminate.
  - apply Forall_cons_1 in Hrs as [Hr Hrs].
    pose proof (sum_Z_ge_length rs Hrs) as Hlen.
    cbn [sum_Z fold_right] in HN. fold (sum_Z rs) in HN.
    cbn [length] in HSb. cbn [scale_loop].
    destruct (scaled_share_spec r N S) as (k & -> & [Hk1 Hk2] & Hlast); [lia..|].
    cbn [bind].
    assert (Hsign : (0 <= S -> 0 <= k <= S) /\ (S < 0 -> k <= 0)).
    { split.
      - intros HS0. split.
        + apply Z.nlt_ge. intros Hneg. nia.
        + apply Z.nlt_ge. intros Hgt. nia.
      - intros HS0. apply Z.nlt_ge. intros Hgt. nia. }
    destruct Hsign as [Hpos Hneg].
    destruct (IH (N - r) (S - Z.max 1 k) (acc ++ [Z.max 1 k]) Hrs ltac:(lia) ltac:(lia))
      as (l & Hl & Hlen' & Hall & Hcov & Hsum & Hunit & Hone).
    { destruct (Z_le_gt_dec 0 S) as [HS0|HS0].
      - specialize (Hpos HS0). lia.
      - specialize (Hneg ltac:(lia)). lia. }
    exists (Z.max 1 k :: l). rewrite Hl, <- app_assoc. cbn [app].
    split; [reflexivity|]. split; [cbn; lia|].
    split; [constructor; [lia | exact Hall]|].
    cbn [sum_Z fold_right]. fold (sum_Z l).
    destruct rs as [|r' rs'].
    + destruct l; [|discriminate]. cbn in HN. rewrite Z.add_0_r in HN. subst N.
      specialize (Hlast eq_refl). subst k.
      cbn. repeat split; intros; try lia; try reflexivity.
      all: try (f_equal; lia).
    + assert (Hne : r' :: rs' <> []) by discriminate.
      specialize (Hcov Hne). specialize (Hsum Hne).
      cbn [length] in Hlen.
      split; [intros _; lia|]. split; [|split].
      * intros _ HNS.
        assert (Hk3 : 1 <= k) by (apply Z.nlt_ge; intros ?; nia).
        assert (HS' : N - r <= S - Z.max 1 k).
        { rewrite Z.max_r by lia.
          apply Z.nlt_ge. intros Hgt.
          assert (S - N + r + 1 <= k) by lia. nia. }
        rewrite Hsum by exact HS'. lia.
      * intros ->.
        assert (k = r) by nia. subst k.
        replace (Z.max 1 r) with r in * by lia. rewrite Hunit by lia. reflexivity.
      * discriminate.
Qed.

Lemma Qceiling_ge (q : Q) (z : Z) : (inject_Z z <= q)%Q -> z <= Qceiling q.
Proof.
  intros H. rewrite Zle_Qle. eapply Qle_trans; [exact H | apply Qle_ceiling].
Qed.

Lemma Qceiling_pos (q : Q) : (0 < q)%Q -> 1 <= Qceiling q.
Proof.
  intros H. assert (0 < Qceiling q); [|lia].
  rewrite Zlt_Qlt. eapply Qlt_le_trans; [exact H | apply Qle_ceiling].
Qed.

Lemma Qceiling_lt_1 (q : Q) : (inject_Z (Qceiling q) - 1 < q)%Q.
Proof.
  pose proof (Qceiling_lt q) as Hl. unfold Z.sub in Hl. rewrite inject_Z_plus in Hl.
  change (inject_Z (- (1))) with (-1)%Q in Hl. lra.
Qed.

Lemma Qceiling_le_of_lt (q : Q) (z : Z) : (q <= inject_Z z)%Q -> Qceiling q <= z.
Proof.
  intros H. assert (Qceiling q - 1 < z); [|lia].
  rewrite Zlt_Qlt. eapply Qlt_le_trans; [|exact H].
  replace (Qceiling q - 1) with (Qceiling q + -1) by lia.
  rewrite inject_Z_plus. pose proof (Qceiling_lt q) as Hl.
  unfold Z.sub in Hl. rewrite inject_Z_plus in Hl. exact Hl.
Qed.

(** The scaled total, for a product below [2^46] in magnitude: the ceiling
    of the product rounded to a double.  It is within 1 of the ceiling of
    the exact product, equal to the product when that is an integer, at
    least the raw total when the multiplier is at least 1, and positive for
    a positive product in the normal range. *)
Lemma num_repeat_scaled_spec (d : Q) (repeats : list Z) :
  Z.abs (sum_Z repeats) < 2 ^ 53 ->
  (Qabs (inject_Z (sum_Z repeats) * d) < 2 ^ 46)%Q ->
  exists total,
    num_repeat_scaled d repeats = Ok total /\
    Z.abs total <= 2 ^ 46 + 1 /\
    Qceiling (inject_Z (sum_Z repeats) * d)%Q - 1 <= total
      <= Qceiling (inject_Z (sum_Z repeats) * d)%Q + 1 /\
    (forall z, (inject_Z (sum_Z repeats) * d == inject_Z z)%Q -> total = z) /\
    ((1 <= d)%Q -> 0 <= sum_Z repeats -> sum_Z repeats <= total) /\
    ((2 ^ (-1022) <= inject_Z (sum_Z repeats) * d)%Q -> 1 <= total).
Proof.
  intros HN Hx. unfold num_repeat_scaled.
  rewrite (float_of_int_small _ HN). cbn [bind]. unfold float_mul.
  set (N := sum_Z repeats) in *. set (x := (inject_Z N * d)%Q) in *.
  destruct (round64_abs x 46) as (v & Hv & Herr); [lia | exact Hx |].
  rewrite Hv. cbn [math_ceil]. exists (Qceiling v). split; [reflexivity|].
  apply Qabs_Qle_condition in Herr as [E1 E2].
  apply Qabs_Qlt_condition in Hx as [X1 X2].
  assert (E6 : (2 ^ (46 - 53) == 1 # 128)%Q) by reflexivity. rewrite E6 in E1, E2.
  assert (E46 : (2 ^ 46 == inject_Z (2 ^ 46))%Q) by reflexivity. rewrite E46 in X1, X2.
  pose proof (Qle_ceiling v) as Cv1. pose proof (Qceiling_lt_1 v) as Cv2.
  pose proof (Qle_ceiling x) as Cx1. pose proof (Qceiling_lt_1 x) as Cx2.
  split; [|split; [|split; [|split]]].
  - assert (H1 : Qceiling v <= 2 ^ 46 + 1).
    { apply Qceiling_le_of_lt. rewrite inject_Z_plus. change (inject_Z 1) with 1%Q. lra. }
    assert (H2 : - 2 ^ 46 - 1 <= Qceiling v).
    { apply Qceiling_ge. unfold Z.sub. rewrite inject_Z_plus, inject_Z_opp.
      change (inject_Z (- (1))) with (-1)%Q. lra. }
    lia.
  - split.
    + assert (Qceiling x - 1 - 1 < Qceiling v); [|lia].
      rewrite Zlt_Qlt. unfold Z.sub. rewrite !inject_Z_plus.
      change (inject_Z (- (1))) with (-1)%Q. lra.
    + apply Qceiling_le_of_lt. rewrite inject_Z_plus. change (inject_Z 1) with 1%Q. lra.
  - intros z Ez.
    assert (Hz : Z.abs z < 2 ^ 53).
    { rewrite Ez in X1, X2. rewrite <- inject_Z_opp in X1.
      rewrite <- Zlt_Qlt in X1, X2. lia. }
    fold x in Ez. rewrite (round64_comp _ _ Ez), (round64_Z z Hz) in Hv.
    injection Hv as <-. apply Qceiling_Z.
  - intros Hd HN0.
    assert (H0 : (0 <= inject_Z N)%Q) by (rewrite (Zle_Qle 0) in HN0; exact HN0).
    assert (Hx' : (inject_Z N <= x)%Q) by (unfold x; nra).
    assert (N - 1 < Qceiling v); [|lia].
    rewrite Zlt_Qlt. unfold Z.sub. rewrite inject_Z_plus.
    change (inject_Z (- (1))) with (-1)%Q. lra.
  - intros Hnorm. apply Qceiling_pos.
    pose proof (Qpow2_pos (-1022)) as P.
    assert (Habs : (Qabs x == x)%Q) by (apply Qabs_pos; lra).
    destruct (round64_rel x) as (v' & Hv' & Hrel).
    { right. rewrite Habs. exact Hnorm. }
    { rewrite Habs. assert (2 ^ 46 <= 2 ^ 1023)%Q by (apply Qpow2_le; lia).
      rewrite <- E46 in X2. lra. }
    rewrite Hv in Hv'. injection Hv' as <-.
    rewrite Habs in Hrel. apply Qabs_Qle_condition in Hrel as [R1 R2].
    assert (E53 : (2 ^ (-53) == 1 # 9007199254740992)%Q) by reflexivity.
    rewrite E53 in R1, R2. lra.
Qed.

(** The whole scaler on a stage whose raw total and scaled product are
    below [2^46] in magnitude. *)
Lemma repeats_scaled_spec (d : Q) (repeats : list Z) :
  repeats <> [] -> Forall (fun r => 1 <= r) repeats ->
  sum_Z repeats < 2 ^ 46 ->
  (Qabs (inject_Z (sum_Z repeats) * d) < 2 ^ 46)%Q ->
  exists total l,
    num_repeat_scaled d repeats = Ok total /\
    repeats_scaled d repeats = Ok l /\
    length l = length repeats /\
    Forall (fun r => 1 <= r) l /\
    total <= sum_Z l /\
    (sum_Z repeats <= total -> sum_Z l = total) /\
    (sum_Z repeats = total -> l = repeats) /\
    (length repeats = 1%nat -> l = [Z.max 1 total]).
Proof.
  intros Hne Hall HN Hx.
  pose proof (sum_Z_ge_length repeats Hall) as Hlen.
  assert (HN1 : 1 <= sum_Z repeats).
  { destruct repeats; [congruence|]. cbn [length] in Hlen. lia. }
  destruct (num_repeat_scaled_spec d repeats ltac:(lia) Hx)
    as (total & Ht & Hb & _).
  exists total. unfold repeats_scaled. rewrite Ht. cbn [bind].
  assert (Hne' : rev repeats <> []).
  { intros E. apply (f_equal (@length Z)) in E. rewrite length_rev in E.
    destruct repeats; [congruence | discriminate]. }
  destruct (scale_loop_spec (rev repeats) (sum_Z repeats) total [])
    as (l & Hl & Hlen' & Hl1 & Hcov & Hsum & Hunit & Hone).
  { apply Forall_rev. exact Hall. }
  { symmetry. apply sum_Z_rev. }
  { lia. }
  { rewrite length_rev. lia. }
  rewrite Hl. cbn [bind app]. exists (rev l).
  split; [reflexivity|]. split; [reflexivity|].
  rewrite length_rev, Hlen', length_rev. split; [reflexivity|].
  split; [apply Forall_rev; exact Hl1|]. rewrite sum_Z_rev.
  split; [exact (Hcov Hne')|]. split; [exact (Hsum Hne')|]. split.
  - intros E. rewrite (Hunit E). apply rev_involutive.
  - intros H1. rewrite length_rev in Hone. rewrite (Hone H1). reflexivity.
Qed.


(** The scaled total is the ceiling of the product as a double, not of the
    exact product: five repeats under the multiplier written 2.2 give 11,
    where the exact product of 5 and that double has ceiling 12; and 25
    repeats give 56, where 25 times the decimal 2.2 is 55.  The shares are
    rounded from double products too: 3 and 7 repeats under 4.5 give 14
    and 31, the double product of 7/10 and 45 lying just below 31.5.  A
    product beyond the doubles makes the ceiling raise. *)
Lemma depth_scaler_double_rounding :
  repeats_scaled (float_lit (22 # 10)) [5] = Ok [11] /\
  Qceiling (inject_Z 5 * float_lit (22 # 10))%Q = 12 /\
  repeats_scaled (float_lit (22 # 10)) [25] = Ok [56] /\
  Qceiling (inject_Z 25 * (22 # 10))%Q = 55 /\
  repeats_scaled (45 # 10) [3; 7] = Ok [14; 31] /\
  repeats_scaled (inject_Z (10 ^ 308)) [10] = Raise OverflowError.
Proof. repeat split; vm_compute; reflexivity. Qed.




(** ** Block-string decoder *)

Lemma fails_bind {A B : Type} (m : result A) (k : A -> result B) :
  fails m -> fails (bind m k).
Proof. intros [e ->]. exists e. reflexivity. Qed.

Lemma fails_raise {A : Type} (e : exn) : fails (@Raise A e).
Proof. exists e. reflexivity. Qed.

Lemma not_fails_ok {A : Type} (a : A) : ~ fails (Ok a).
Proof. intros [e He]. discriminate. Qed.

Lemma bind_ok {A B : Type} (m : result A) (k : A -> result B) (b : B) :
  bind m k = Ok b -> exists a, m = Ok a /\ k a = Ok b.
Proof. destruct m as [a|e]; cbn; [eauto | discriminate]. Qed.

Ltac bind_inv H :=
  let a := fresh "a" in
  let E := fresh "E" in
  apply bind_ok in H as (a & E & H).

#[local] Hint Resolve fails_raise fails_bind : core.

(** The entries of [args_map], one case per key. *)
Lemma args_map_lookup (s0 key : string) (c : cast) :
  args_map !! s0 = Some (key, c) ->
  s0 ∈ recognized_keys /\
  (s0 = "r" <-> key = "repeat") /\
  (key = "repeat" -> c = CastInt).
Proof.
  intros Hl. unfold args_map in Hl. apply elem_of_list_to_map_2 in Hl.
  unfold recognized_keys.
  repeat (apply elem_of_cons in Hl as [Hl | Hl];
          [injection Hl as -> -> ->; split; [set_solver | split; [split|]; congruence] |]).
  apply elem_of_nil in Hl. contradiction.
Qed.

Lemma args_map_unrecognized (s0 : string) :
  s0 ∉ recognized_keys -> args_map !! s0 = None.
Proof.
  intros Hn. destruct (args_map !! s0) as [[key c]|] eqn:E; [|reflexivity].
  apply args_map_lookup in E as [Hin _]. contradiction.
Qed.

Section Decoder.
Context `{External}.

Lemma apply_cast_repeat (c : cast) (s : string) (v : pyval) :
  apply_cast c s = Ok v -> c = CastInt -> exists r, v = VInt r.
Proof.
  intros Hc ->. cbn in Hc. destruct (py_int s) as [z|e]; cbn in Hc; [|discriminate].
  injection Hc as <-. eauto.
Qed.

(** One turn of the loop over the tokens, when it does not raise. *)
Lemma decode_ops_cons (op : string) (ops : list string)
    (args : gmap string pyval) (noskip : bool) (res : gmap string pyval * bool) :
  decode_ops (op :: ops) args noskip = Ok res ->
  (op = "noskip" /\ decode_ops ops args true = Ok res) \/
  (op <> "noskip" /\
   exists s1 rest key c v,
     re_split_digits op = token_key op :: s1 :: rest /\
     args_map !! token_key op = Some (key, c) /\
     apply_cast c s1 = Ok v /\
     decode_ops ops (<[key := v]> args) noskip = Ok res).
Proof.
  cbn [decode_ops]. destruct (String.eqb_spec op "noskip") as [->|Hne]; [auto|].
  intros Hd. right. split; [exact Hne|].
  unfold token_key.
  destruct (re_split_digits op) as [|s0 [|s1 rest]]; try discriminate.
  cbn [hd].
  destruct (args_map !! s0) as [[key c]|] eqn:Em; [|discriminate].
  destruct (apply_cast c s1) as [v|e] eqn:Ec; [|discriminate].
  cbn [bind] in Hd. exists s1, rest, key, c, v. auto.
Qed.

Lemma decode_ops_no_repeat (ops : list string) :
  forall args noskip args' noskip',
    decode_ops ops args noskip = Ok (args', noskip') ->
    (forall op, op ∈ ops -> op <> "noskip" -> token_key op <> "r") ->
    args' !! "repeat" = args !! "repeat".
Proof.
  induction ops as [|op ops IH]; intros args noskip args' noskip' Hd Hno.
  - cbn in Hd. congruence.
  - apply decode_ops_cons in Hd
      as [[-> Hd] | (Hne & s1 & rest & key & c & v & _ & Hm & _ & Hd)].
    + apply (IH _ _ _ _ Hd). intros op' Hin. apply Hno. set_solver.
    + rewrite (IH _ _ _ _ Hd) by (intros op' Hin; apply Hno; set_solver).
      apply lookup_insert_ne.
      apply args_map_lookup in Hm as (_ & Hr & _).
      intros Hk. apply (Hno op); [constructor | exact Hne | apply Hr; exact Hk].
Qed.

Lemma decode_ops_unknown_key (ops : list string) :
  forall args noskip,
    (exists op, op ∈ ops /\ op <> "noskip" /\ token_key op ∉ recognized_keys) ->
    fails (decode_ops ops args noskip).
Proof.
  induction ops as [|op ops IH]; intros args noskip (bad & Hin & Hne & Hkey).
  - apply elem_of_nil in Hin. contradiction.
  - destruct (decode_ops (op :: ops) args noskip) as [res|e] eqn:Hd; [|auto].
    exfalso.
    apply decode_ops_cons in Hd
      as [[-> Hd] | (Hne' & s1 & rest & key & c & v & _ & Hm & _ & Hd)].
    + apply elem_of_cons in Hin as [-> | Hin]; [congruence|].
      apply (not_fails_ok res). rewrite <- Hd. apply IH. eauto.
    + apply elem_of_cons in Hin as [-> | Hin].
      * rewrite args_map_unrecognized in Hm by exact Hkey. discriminate.
      * apply (not_fails_ok res). rewrite <- Hd. apply IH. eauto.
Qed.

Lemma decode_ops_repeat_int (ops : list string) :
  forall args noskip args' noskip',
    decode_ops ops args noskip = Ok (args', noskip') ->
    (forall v, args !! "repeat" = Some v -> exists r, v = VInt r) ->
    forall v, args' !! "repeat" = Some v -> exists r, v = VInt r.
Proof.
  induction ops as [|op ops IH]; intros args noskip args' noskip' Hd Hinv.
  - cbn in Hd. injection Hd as <- <-. exact Hinv.
  - apply decode_ops_cons in Hd
      as [[-> Hd] | (Hne & s1 & rest & key & c & v & _ & Hm & Hc & Hd)].
    + exact (IH _ _ _ _ Hd Hinv).
    + apply (IH _ _ _ _ Hd). intros w Hw.
      destruct (decide (key = "repeat")) as [->|Hk].
      * rewrite lookup_insert_eq in Hw. injection Hw as <-.
        apply args_map_lookup in Hm as (_ & _ & Hci).
        apply (apply_cast_repeat _ _ _ Hc). auto.
      * rewrite lookup_insert_ne in Hw by exact Hk. exact (Hinv w Hw).
Qed.

(** C6: decoding a stage string raises an error whenever no token carries
    the key [r], and whenever some key/value token carries a key outside
    r, k, s, e, m, c, se ([noskip] being the only bare flag); a string that
    decodes yields a specification with an integer repeat count. *)
Theorem decode_str_def_errors (stage_str : string) :
  let ops := tl (split "_" stage_str) in
  ((forall op, op ∈ ops -> op <> "noskip" -> token_key op <> "r") ->
   fails (EfficientNet._decode_str_def stage_str)) /\
  ((exists op, op ∈ ops /\ op <> "noskip" /\ token_key op ∉ recognized_keys) ->
   fails (EfficientNet._decode_str_def stage_str)) /\
  (forall args, EfficientNet._decode_str_def stage_str = Ok args ->
                exists r, args !! "repeat" = Some (VInt r)).
Proof.
  intros ops. unfold EfficientNet._decode_str_def. fold ops.
  set (args0 := ({[ "block_type" := VStr (hd "" (split "_" stage_str)) ]}
                 : gmap string pyval)).
  repeat split.
  - intros Hno.
    destruct (decode_ops ops args0 false) as [[args' ns]|e] eqn:Hd; [|cbn; auto].
    cbn [bind]. apply (decode_ops_no_repeat _ _ _ _ _ Hd) in Hno.
    rewrite bool_decide_eq_false_2; [cbn; auto|].
    rewrite lookup_insert_ne by discriminate. rewrite Hno.
    unfold args0. rewrite lookup_singleton_ne by discriminate.
    intros [? ?]. discriminate.
  - intros Hbad. apply fails_bind. apply decode_ops_unknown_key. exact Hbad.
  - intros args Hok.
    destruct (decode_ops ops args0 false) as [[args' ns]|e] eqn:Hd; [|discriminate].
    cbn [bind] in Hok.
    destruct (bool_decide_reflect (is_Some (<["noskip" := VBool ns]> args' !! "repeat")))
      as [[v Hv]|Hn]; [|discriminate].
    cbn in Hok. injection Hok as <-. rewrite Hv.
    rewrite lookup_insert_ne in Hv by discriminate.
    destruct (decode_ops_repeat_int _ _ _ _ _ Hd) with (v := v) as [r ->]; eauto.
    intros w Hw. unfold args0 in Hw.
    rewrite lookup_singleton_ne in Hw by discriminate. discriminate.
Qed.

End Decoder.

Lemma decode_str_def_errors_witness :
  fails (@EfficientNet._decode_str_def decimal_env "ir_k3_s2") /\
  fails (@EfficientNet._decode_str_def decimal_env "ir_r2_x3") /\
  exists r args, @EfficientNet._decode_str_def decimal_env "ir_r2_k3" = Ok args /\
                 args !! "repeat" = Some (VInt r).
Proof.
  destruct (@decode_str_def_errors decimal_env "ir_k3_s2")
    as (Hno & _ & _).
  destruct (@decode_str_def_errors decimal_env "ir_r2_x3")
    as (_ & Hbad & _).
  destruct (@decode_str_def_errors decimal_env "ir_r2_k3")
    as (_ & _ & Hok).
  split; [|split].
  - apply Hno. cbn. intros op Hin Hne.
    repeat (apply elem_of_cons in Hin as [-> | Hin]; [vm_compute; discriminate|]).
    apply elem_of_nil in Hin. contradiction.
  - apply Hbad. exists "x3". split; [cbn; set_solver|].
    split; [discriminate|]. vm_compute. intros Hin.
    repeat (apply elem_of_cons in Hin as [Hin | Hin]; [discriminate|]).
    apply elem_of_nil in Hin. contradiction.
  - assert (E : (args <- @EfficientNet._decode_str_def decimal_env "ir_r2_k3" ;;
                 Ok (args !! "repeat")) = Ok (Some (VInt 2)))
      by (vm_compute; reflexivity).
    apply bind_ok in E as (args & E & _).
    destruct (Hok args E) as [r Hr]. exists r, args. auto.
Defined.

(** ** Network assembler *)

Lemma create_conv2d_channels i o k s d p bias dw :
  in_channels (create_conv2d i o k s d p bias dw) = i /\
  out_channels_ (create_conv2d i o k s d p bias dw) = o /\
  conv_stride (create_conv2d i o k s d p bias dw) = s.
Proof. unfold create_conv2d. destruct (get_padding p k s d). auto. Qed.

Lemma bind_kwargs_ok (keys : list string) (kw : gmap string pyval) (a : block_args) :
  bind_kwargs keys kw = Ok a ->
  kw_int kw "in_channel" (Raise TypeError) = Ok (a_in_channel a) /\
  kw_int kw "out_channel" (Raise TypeError) = Ok (a_out_channel a) /\
  kw_int kw "stride" (Ok 1) = Ok (a_stride a) /\
  kw_float kw "drop_path_rate" 0%Q = Ok (a_drop_path_rate a).
Proof.
  unfold bind_kwargs. intros Hb.
  do 13 bind_inv Hb. injection Hb as <-. cbn. auto.
Qed.

Section Assembler.
Context `{External}.

Lemma construct_ok (block_type : string) (kw : gmap string pyval) (b : block) :
  construct block_type kw = Ok b ->
  exists keys a,
    bind_kwargs keys kw = Ok a /\
    block_in_channel b = a_in_channel a /\
    block_out_channel b = a_out_channel a /\
    block_stride b = a_stride a /\
    block_drop_path b = make_drop_path (a_drop_path_rate a).
Proof.
  unfold construct. intros Hc.
  destruct (String.eqb block_type "ds");
    [|destruct (String.eqb block_type "ir");
      [|destruct (String.eqb block_type "er"); [|discriminate]]];
    bind_inv Hc; bind_inv Hc; injection Hc as <-;
    match goal with
    | E : _ = Ok ?blk |- _ =>
        unfold DepthwiseSeparableConv.init, InvertedResidualBlock.init,
          EdgeResidual.init in E;
        bind_inv E; injection E as <-
    end;
    do 2 eexists; (split; [eassumption|]); cbn;
    repeat split; apply create_conv2d_channels.
Qed.

Lemma kw_int_some (kw : gmap string pyval) (k : string) (e : exn) (z : Z) :
  kw_int kw k (Raise e) = Ok z -> kw !! k = Some (VInt z).
Proof.
  unfold kw_int. destruct (kw !! k) as [[]|]; intros E; try discriminate.
  injection E as ->. reflexivity.
Qed.

Lemma mid_channel_step (f : Z -> Z) (base la : gmap string pyval) (k : string) :
  match base !! "mid_channel" with
  | Some (VInt m) => Ok (<["mid_channel" := VInt (f m)]> base)
  | Some _ => Raise TypeError
  | None => Ok base
  end = Ok la ->
  k <> "mid_channel" -> la !! k = base !! k.
Proof.
  intros Hm Hk. destruct (base !! "mid_channel") as [[]|]; try discriminate;
    injection Hm as <-; [apply lookup_insert_ne; congruence | reflexivity].
Qed.

Variable ap : arch_params.
Variable gp : global_params.

Lemma make_drop_path_zero (q : Q) : (q == 0)%Q -> make_drop_path q = Identity.
Proof.
  intros Hq. unfold make_drop_path, Qgtb.
  assert (E : Qle_bool q 0 = true) by (apply Qle_bool_iff; rewrite Hq; apply Qle_refl).
  rewrite E. reflexivity.
Qed.

Lemma drop_rate_zero (total : Z) (st : EfficientNet.build_state) :
  (drop_path_rate gp == 0)%Q -> (EfficientNet.drop_rate gp total st == 0)%Q.
Proof.
  intros Hz. unfold EfficientNet.drop_rate, Qdiv. rewrite Hz, !Qmult_0_l. reflexivity.
Qed.

(** What one call of [_make_layer] builds and how it moves the running
    attributes. *)
Lemma make_layer_ok (total : Z) (st st' : EfficientNet.build_state)
    (args : gmap string pyval) (b : block) :
  EfficientNet._make_layer ap gp total st args = Ok (b, st') ->
  block_in_channel b = EfficientNet.st_in_channel st /\
  block_out_channel b = EfficientNet.st_in_channel st' /\
  (exists c, args !! "out_channel" = Some (VInt c) /\
             block_out_channel b = EfficientNet._round_channel ap gp c) /\
  (forall s, args !! "stride" = Some (VInt s) -> block_stride b = s) /\
  ((drop_path_rate gp == 0)%Q -> block_drop_path b = Identity) /\
  EfficientNet.st_layer_idx st' = EfficientNet.st_layer_idx st + 1 /\
  EfficientNet.st_out_channels st' = EfficientNet.st_out_channels st.
Proof.
  unfold EfficientNet._make_layer. intros Hm.
  bind_inv Hm. clear E. bind_inv Hm. apply kw_int_some in E.
  rewrite lookup_insert_ne in E by discriminate.
  bind_inv Hm. rename E0 into Emid. bind_inv Hm. clear E0. bind_inv Hm.
  injection Hm as <- <-. cbn.
  apply construct_ok in E0 as (keys & ba & Hb & -> & -> & -> & ->).
  apply bind_kwargs_ok in Hb as (Hin & Hout & Hst & Hdp).
  unfold kw_int, kw_float in Hin, Hout, Hst, Hdp.
  rewrite lookup_delete_ne in Hin, Hout, Hst, Hdp by discriminate.
  rewrite (mid_channel_step _ _ _ _ Emid) in Hin by discriminate.
  rewrite (mid_channel_step _ _ _ _ Emid) in Hout by discriminate.
  rewrite (mid_channel_step _ _ _ _ Emid) in Hst by discriminate.
  rewrite (mid_channel_step _ _ _ _ Emid) in Hdp by discriminate.
  repeat (rewrite lookup_insert_ne in Hin by discriminate).
  rewrite lookup_insert_eq in Hin. injection Hin as <-.
  repeat (rewrite lookup_insert_ne in Hout by discriminate).
  rewrite lookup_insert_eq in Hout. injection Hout as <-.
  repeat (rewrite lookup_insert_ne in Hdp by discriminate).
  rewrite lookup_insert_eq in Hdp. injection Hdp as <-.
  repeat (rewrite lookup_insert_ne in Hst by discriminate).
  repeat split; eauto.
  - intros s Hs. rewrite Hs in Hst. congruence.
  - intros Hz. apply make_drop_path_zero. apply drop_rate_zero. exact Hz.
Qed.


Lemma make_stage_ok (total : Z) (stage_args : list (gmap string pyval)) :
  forall idx st stage st',
    0 <= idx ->
    EfficientNet.make_stage ap gp total idx stage_args st = Ok (stage, st') ->
    Forall2 (built_from ap gp) stage_args stage /\
    chained (EfficientNet.st_in_channel st) stage (EfficientNet.st_in_channel st') /\
    (forall j args b,
        stage_args !! j = Some args -> stage !! j = Some b ->
        if idx + Z.of_nat j =? 0
        then forall s, args !! "stride" = Some (VInt s) -> block_stride b = s
        else block_stride b = 1) /\
    EfficientNet.st_out_channels st' = EfficientNet.st_out_channels st.
Proof.
  induction stage_args as [|args rest IH]; intros idx st stage st' Hidx Hm.
  - cbn in Hm. injection Hm as <- <-. cbn. repeat split; auto.
    intros j args b Hj. rewrite lookup_nil in Hj. discriminate.
  - cbn [EfficientNet.make_stage] in Hm.
    bind_inv Hm. clear E. bind_inv Hm. clear E.
    bind_inv Hm. destruct a1 as [layer st1].
    bind_inv Hm. destruct a1 as [stage1 st2]. injection Hm as <- <-.
    apply make_layer_ok in E as (Hin & Hout & (c & Hc & Hround) & Hstr & Hdp & _ & Hoc).
    apply IH in E0 as (Hall & Hch & Hstrides & Hoc'); [|lia].
    repeat split.
    + constructor; [|exact Hall]. split; [|exact Hdp].
      exists c. split; [|exact Hround].
      destruct (0 <? idx); [|exact Hc].
      rewrite lookup_insert_ne in Hc by discriminate. exact Hc.
    + exact Hin.
    + rewrite Hout. exact Hch.
    + intros [|j] args' b Ha Hb; cbn in Ha, Hb.
      * injection Ha as <-. injection Hb as <-.
        rewrite Z.add_0_r. destruct (Z.eqb_spec idx 0) as [->|Hne].
        -- exact Hstr.
        -- destruct (Z.ltb_spec 0 idx); [|lia].
           apply Hstr. apply lookup_insert_eq.
      * specialize (Hstrides j args' b Ha Hb).
        destruct (Z.eqb_spec (idx + 1 + Z.of_nat j) 0); [lia|].
        destruct (Z.eqb_spec (idx + Z.of_nat (S j)) 0); [lia|]. exact Hstrides.
    + congruence.
Qed.

Lemma chained_step (stage : list block) :
  forall in_ch out_ch i b b',
    chained in_ch stage out_ch ->
    stage !! i = Some b -> stage !! S i = Some b' ->
    block_in_channel b' = block_out_channel b.
Proof.
  induction stage as [|x stage IH]; intros in_ch out_ch i b b' Hc Hi Hi'.
  - rewrite lookup_nil in Hi. discriminate.
  - destruct Hc as [_ Hc]. destruct i as [|i]; cbn in Hi, Hi'.
    + injection Hi as <-. destruct stage as [|y stage]; [discriminate|].
      injection Hi' as <-. destruct Hc as [Hy _]. exact Hy.
    + exact (IH _ _ _ _ _ Hc Hi Hi').
Qed.

Lemma chained_last (stage : list block) :
  forall in_ch out_ch,
    chained in_ch stage out_ch ->
    out_ch = match last stage with
             | Some b => block_out_channel b
             | None => in_ch
             end.
Proof.
  induction stage as [|x stage IH]; intros in_ch out_ch Hc.
  - exact Hc.
  - destruct Hc as [_ Hc]. apply IH in Hc.
    destruct stage as [|y stage']; [exact Hc|].
    change (last (x :: y :: stage')) with (last (y :: stage')).
    destruct (last (y :: stage')) eqn:El; [exact Hc|].
    apply last_None in El. discriminate.
Qed.


Lemma make_stages_ok (total : Z) (blocks_args : list (list (gmap string pyval))) :
  forall st blocks st',
    EfficientNet.make_stages ap gp total blocks_args st = Ok (blocks, st') ->
    Forall2 (stage_built ap gp) blocks_args blocks /\
    exists per,
      EfficientNet.st_out_channels st' = EfficientNet.st_out_channels st ++ per /\
      Forall2 (fun stage c => forall b, last stage = Some b -> c = block_out_channel b)
        blocks per.
Proof.
  induction blocks_args as [|stage_args rest IH]; intros st blocks st' Hm.
  - cbn in Hm. injection Hm as <- <-. split; [constructor|].
    exists []. rewrite app_nil_r. split; [reflexivity | constructor].
  - cbn [EfficientNet.make_stages] in Hm.
    bind_inv Hm. destruct a as [stage st1].
    bind_inv Hm. destruct a as [blocks1 st2]. injection Hm as <- <-.
    apply make_stage_ok in E as (Hall & Hch & Hstr & Hoc); [|lia].
    apply IH in E0 as (Hrest & per & Hper & Hlast). cbn in Hper.
    split.
    + constructor; [|exact Hrest]. split; [exact Hall|]. split; [eauto|].
      intros j args b Ha Hb. specialize (Hstr j args b Ha Hb).
      destruct j; [exact Hstr|].
      destruct (Z.eqb_spec (0 + Z.of_nat (S j)) 0); [lia | exact Hstr].
    + exists (EfficientNet.st_in_channel st1 :: per).
      rewrite Hper, Hoc, <- app_assoc. split; [reflexivity|].
      constructor; [|exact Hlast].
      intros b Hb. apply chained_last in Hch. rewrite Hb in Hch. exact Hch.
Qed.

Lemma mapM_ok {A B : Type} (f : A -> result B) (l : list A) :
  forall l', mapM f l = Ok l' -> Forall2 (fun x y => f x = Ok y) l l'.
Proof.
  induction l as [|x l IH]; intros l' Hm; cbn in Hm.
  - injection Hm as <-. constructor.
  - bind_inv Hm. bind_inv Hm. injection Hm as <-. constructor; auto.
Qed.

Lemma pop_repeat_all (decoded : list (gmap string pyval)) :
  forall popped, mapM pop_repeat decoded = Ok popped ->
                 map snd popped = map (delete "repeat") decoded.
Proof.
  intros popped Hm. apply mapM_ok in Hm.
  induction Hm as [|x y l l' Hxy _ IH]; [reflexivity|].
  cbn. rewrite IH. f_equal. unfold pop_repeat in Hxy.
  destruct (x !! "repeat") as [[]|]; try discriminate.
  injection Hxy as <-. reflexivity.
Qed.

Lemma scale_loop_ok (rs : list Z) :
  forall N S acc res,
    scale_loop rs N S acc = Ok res ->
    exists l, res = acc ++ l /\ length l = length rs /\ Forall (fun r => 1 <= r) l.
Proof.
  induction rs as [|r rs IH]; intros N S acc res Hs; cbn [scale_loop] in Hs.
  - injection Hs as <-. exists []. rewrite app_nil_r. auto.
  - bind_inv Hs. clear E.
    apply IH in Hs as (l & -> & Hlen & Hall).
    eexists (_ :: l). rewrite <- app_assoc. split; [reflexivity|].
    split; [cbn; lia|]. constructor; [lia | exact Hall].
Qed.

Lemma repeats_scaled_ok (d : Q) (repeats l : list Z) :
  repeats_scaled d repeats = Ok l ->
  length l = length repeats /\ Forall (fun r => 1 <= r) l.
Proof.
  unfold repeats_scaled. intros Hr. bind_inv Hr. clear E. bind_inv Hr.
  injection Hr as <-.
  apply scale_loop_ok in E as (l & -> & Hlen & Hall). cbn [app].
  rewrite length_rev, Hlen, length_rev. split; [reflexivity|].
  apply Forall_rev. exact Hall.
Qed.

Lemma expand_repeats_ones {A : Type} (l : list A) :
  expand_repeats l (replicate (length l) 1) = l.
Proof. induction l as [|x l IH]; cbn; [reflexivity | rewrite IH; reflexivity]. Qed.

Lemma decode_stages_ok (stages : list (list string)) :
  forall fix_first_last len idx blocks_args,
    EfficientNet.decode_stages ap fix_first_last len idx stages = Ok blocks_args ->
    Forall2 stage_decoded stages blocks_args.
Proof.
  induction stages as [|strs rest IH]; intros ffl len idx blocks_args Hd;
    cbn [EfficientNet.decode_stages] in Hd.
  - injection Hd as <-. constructor.
  - bind_inv Hd. rename a into decoded, E into Edec.
    bind_inv Hd. rename a into popped, E into Epop.
    cbn zeta in Hd. bind_inv Hd. rename a into stage_args, E into Esc.
    bind_inv Hd. injection Hd as <-.
    constructor; [|exact (IH _ _ _ _ E)].
    pose proof (pop_repeat_all _ _ Epop) as Hsnd.
    assert (Hlen : length popped = length decoded).
    { apply mapM_ok, Forall2_length in Epop. congruence. }
    exists decoded. rewrite <- Hsnd. rewrite Edec.
    destruct (negb (ffl && ((idx =? 0) || (idx =? len - 1)))).
    + unfold EfficientNet._scale_stage_depth in Esc. bind_inv Esc.
      rename E0 into Ers. injection Esc as <-.
      apply repeats_scaled_ok in Ers as [Hl Hall].
      eexists. split; [reflexivity|]. rewrite Hl, length_map. auto.
    + injection Esc as <-. exists (replicate (length (map snd popped)) 1).
      rewrite expand_repeats_ones, length_replicate, length_map.
      repeat split; auto. apply Forall_replicate. lia.
Qed.


(** The structure [__init__] leaves behind when it returns. *)
Lemma init_ok (block_def : list (list string)) (num_classes in_channel stem_size : Z)
    (fix_stem : bool) (num_features : option Z) (fix_first_last : bool)
    (net : EfficientNet.t) :
  EfficientNet.init ap gp block_def num_classes in_channel stem_size fix_stem
    num_features fix_first_last = Ok net ->
  exists blocks_args per,
    Forall2 stage_decoded block_def blocks_args /\
    Forall2 (stage_built ap gp) blocks_args (EfficientNet.blocks net) /\
    EfficientNet.out_channels net
      = (if negb fix_stem then EfficientNet._round_channel ap gp stem_size
         else stem_size)
        :: per ++ [EfficientNet.num_features net; num_classes] /\
    Forall2 (fun stage c => forall b, last stage = Some b -> c = block_out_channel b)
      (EfficientNet.blocks net) per /\
    EfficientNet.gparams net = gp /\
    EfficientNet.num_features net
      = match num_features with
        | None => EfficientNet._round_channel ap gp 1280
        | Some n => n
        end.
Proof.
  unfold EfficientNet.init, EfficientNet._make_blocks, EfficientNet._decode_block_def.
  intros Hi. bind_inv Hi. destruct a as [[blocks total] st].
  bind_inv E. rename a into blocks_args. bind_inv E. destruct a as [blocks' st'].
  injection E as -> <- ->. injection Hi as <-. cbn.
  apply decode_stages_ok in E0. apply make_stages_ok in E1 as (Hb & per & Hper & Hlast).
  cbn in Hper. exists blocks_args, per. rewrite Hper. cbn.
  repeat split; auto.
Qed.

Lemma init_out_channels_length (block_def : list (list string))
  (num_classes in_channel stem_size : Z) (fix_stem : bool)
  (num_features : option Z) (fix_first_last : bool) (net : EfficientNet.t) :
EfficientNet.init ap gp block_def num_classes in_channel stem_size fix_stem
  num_features fix_first_last = Ok net ->
length (EfficientNet.out_channels net) = (length (EfficientNet.blocks net) + 3)%nat.
Proof.
intros Hi. apply init_ok in Hi as (blocks_args & per & _ & _ & Hoc & Hlast & _).
apply Forall2_length in Hlast. rewrite Hoc. cbn [length].
rewrite length_app. cbn [length]. lia.
Qed.

Lemma expand_repeats_head {A : Type} (x : A) (l : list A) (r : Z) (rs : list Z) :
  1 <= r -> expand_repeats (x :: l) (r :: rs) !! 0%nat = Some x.
Proof.
  intros Hr. cbn [expand_repeats].
  destruct (Z.to_nat r) as [|n] eqn:En; [lia|]. reflexivity.
Qed.

Lemma stage_decoded_first (strs : list string) (stage_args : list (gmap string pyval))
    (s0 : string) (args0 : gmap string pyval) :
  stage_decoded strs stage_args ->
  strs !! 0%nat = Some s0 -> EfficientNet._decode_str_def s0 = Ok args0 ->
  stage_args !! 0%nat = Some (delete "repeat" args0).
Proof.
  intros (decoded & reps & Hdec & Hlen & Hall & ->) Hs0 Hd0.
  apply mapM_ok in Hdec. destruct Hdec as [|s d strs' decoded' Hsd _]; [discriminate|].
  injection Hs0 as ->. rewrite Hd0 in Hsd. injection Hsd as <-.
  destruct reps as [|r reps]; [discriminate|].
  apply Forall_cons_1 in Hall as [Hr _]. cbn [map].
  apply expand_repeats_head. exact Hr.
Qed.

Lemma stage_decoded_single (s0 : string) (stage_args : list (gmap string pyval)) :
  stage_decoded [s0] stage_args ->
  exists args, forall j x, stage_args !! j = Some x -> x = args.
Proof.
  intros (decoded & reps & Hdec & Hlen & _ & ->).
  apply mapM_ok in Hdec. apply Forall2_length in Hdec as Hl.
  destruct decoded as [|d [|? ?]]; try discriminate.
  destruct reps as [|r [|? ?]]; try discriminate.
  exists (delete "repeat" d). intros j x Hj. cbn in Hj. rewrite app_nil_r in Hj.
  apply lookup_replicate in Hj as [-> _]. reflexivity.
Qed.

Lemma Forall2_replicate_l {A B : Type} (P : A -> B -> Prop) (a : A) (n : nat)
    (g : list B) :
  Forall2 P (replicate n a) g -> length g = n /\ Forall (P a) g.
Proof.
  revert g. induction n as [|n IH]; intros g Hg; cbn in Hg.
  - apply Forall2_nil_inv_l in Hg. subst g. split; [reflexivity | constructor].
  - apply Forall2_cons_inv_l in Hg as (b & g' & Hb & Hg' & ->).
    destruct (IH _ Hg') as [Hl Hall]. split; [cbn; lia | constructor; assumption].
Qed.

(** What is built from the expanded specifications splits into one
    non-empty run per specification. *)
Lemma expand_repeats_groups {A B : Type} (P : A -> B -> Prop) (l : list A) :
  forall reps stage,
    length reps = length l -> Forall (fun r => 1 <= r) reps ->
    Forall2 P (expand_repeats l reps) stage ->
    exists groups, stage = concat groups /\
                   Forall2 (fun a g => g <> [] /\ Forall (P a) g) l groups.
Proof.
  induction l as [|a l IH]; intros [|r reps] stage Hlen Hall Hst; try discriminate.
  - cbn in Hst. apply Forall2_nil_inv_l in Hst. subst stage.
    exists []. split; [reflexivity | constructor].
  - apply Forall_cons_1 in Hall as [Hr Hall]. cbn [expand_repeats] in Hst.
    apply Forall2_app_inv_l in Hst as (g & rest & Hg & Hrest & ->).
    apply Forall2_replicate_l in Hg as [Hgl Hg].
    destruct (IH reps rest ltac:(cbn in Hlen; lia) Hall Hrest) as (groups & -> & Hgr).
    exists (g :: groups). split; [reflexivity|]. constructor; [|exact Hgr].
    split; [|exact Hg]. intros ->. cbn in Hgl. lia.
Qed.

Lemma chained_app_inv (l1 l2 : list block) :
  forall a c, chained a (l1 ++ l2) c -> exists b, chained a l1 b /\ chained b l2 c.
Proof.
  induction l1 as [|x l1 IH]; intros a c Hc.
  - exists a. split; [reflexivity | exact Hc].
  - destruct Hc as [Hx Hc]. destruct (IH _ _ Hc) as (b & H1 & H2).
    exists b. split; [split; assumption | exact H2].
Qed.

Lemma chained_concat (groups : list (list block)) :
  forall a c, chained a (concat groups) c ->
              Forall (fun g => exists a' c', chained a' g c') groups.
Proof.
  induction groups as [|g groups IH]; intros a c Hc; [constructor|].
  cbn [concat] in Hc. apply chained_app_inv in Hc as (b & Hg & Hrest).
  constructor; [eauto | exact (IH _ _ Hrest)].
Qed.

(** C4 (amended): in every stage of a network that [__init__] has built,
    each block instance after the first has stride 1 and takes as input
    the rounded output channel count of the instance before it; the first
    instance has the stride that the first stage string of the stage
    declares.  The stage splits into one non-empty run of instances per
    stage string, in order; all instances of a run produce the rounded
    output channel count its stage string declares, so every instance that
    repeats the stage string of its predecessor has equal input and output
    channel counts; in particular, in a stage declared by a single stage
    string all instances after the first do.  Only the first instance of a
    run can change the channel count. *)
Theorem block_chaining (block_def : list (list string))
    (num_classes in_channel stem_size : Z) (fix_stem : bool)
    (num_features : option Z) (fix_first_last : bool) (net : EfficientNet.t) :
  EfficientNet.init ap gp block_def num_classes in_channel stem_size fix_stem
    num_features fix_first_last = Ok net ->
  length (EfficientNet.blocks net) = length block_def /\
  forall i strs stage,
    block_def !! i = Some strs -> EfficientNet.blocks net !! i = Some stage ->
    (forall j b b',
        stage !! j = Some b -> stage !! S j = Some b' ->
        block_stride b' = 1 /\ block_in_channel b' = block_out_channel b) /\
    (forall s0 args0 s b0,
        strs !! 0%nat = Some s0 -> EfficientNet._decode_str_def s0 = Ok args0 ->
        args0 !! "stride" = Some (VInt s) -> stage !! 0%nat = Some b0 ->
        block_stride b0 = s) /\
    (length strs = 1%nat ->
     forall j b, (0 < j)%nat -> stage !! j = Some b ->
                 block_in_channel b = block_out_channel b) /\
    (exists runs,
        stage = concat runs /\
        Forall2 (fun s run =>
                   run <> [] /\
                   (forall args c,
                       EfficientNet._decode_str_def s = Ok args ->
                       args !! "out_channel" = Some (VInt c) ->
                       Forall (fun b => block_out_channel b
                                        = EfficientNet._round_channel ap gp c) run) /\
                   (forall j b, (0 < j)%nat -> run !! j = Some b ->
                                block_in_channel b = block_out_channel b))
                strs runs).
Proof.
  intros Hi. apply init_ok in Hi as (blocks_args & per & Hdec & Hbuilt & _).
  split.
  { apply Forall2_length in Hdec, Hbuilt. congruence. }
  intros i strs stage Hstrs Hstage.
  destruct (Forall2_lookup_l _ _ _ _ _ Hdec Hstrs) as (stage_args & Hsa & Hsd).
  destruct (Forall2_lookup_lr _ _ _ _ _ _ Hbuilt Hsa Hstage)
    as (Hall & (in_ch & out_ch & Hch) & Hstr).
  assert (Hchain : forall j b b', stage !! j = Some b -> stage !! S j = Some b' ->
                                  block_stride b' = 1 /\
                                  block_in_channel b' = block_out_channel b).
  { intros j b b' Hj Hj'. split; [|exact (chained_step _ _ _ _ _ _ Hch Hj Hj')].
    destruct (Forall2_lookup_r _ _ _ _ _ Hall Hj') as (args & Ha & _).
    exact (Hstr (S j) args b' Ha Hj'). }
  split; [exact Hchain|]. split; [|split].
  - intros s0 args0 s b0 Hs0 Hd0 Hs Hb0.
    pose proof (stage_decoded_first _ _ _ _ Hsd Hs0 Hd0) as Ha0.
    apply (Hstr 0%nat _ _ Ha0 Hb0). rewrite lookup_delete_ne by discriminate.
    exact Hs.
  - intros Hone j b Hj Hb.
    destruct strs as [|s0 [|? ?]]; try discriminate.
    destruct (stage_decoded_single _ _ Hsd) as (args & Hsame).
    destruct j as [|j]; [lia|].
    destruct (lookup_lt_is_Some_2 stage j) as [b' Hb'].
    { apply lookup_lt_Some in Hb. lia. }
    destruct (Hchain j b' b Hb' Hb) as [_ ->].
    destruct (Forall2_lookup_r _ _ _ _ _ Hall Hb) as (a1 & Ha1 & (c1 & Hc1 & ->) & _).
    destruct (Forall2_lookup_r _ _ _ _ _ Hall Hb') as (a2 & Ha2 & (c2 & Hc2 & ->) & _).
    apply Hsame in Ha1, Ha2. subst a1 a2. congruence.
  - destruct Hsd as (decoded & reps & Hm & Hlen & Hreps & ->).
    apply mapM_ok in Hm.
    assert (Hlen' : length reps = length (map (delete "repeat") decoded))
      by (rewrite length_map; exact Hlen).
    destruct (expand_repeats_groups _ _ _ _ Hlen' Hreps Hall) as (runs & -> & Hruns).
    exists runs. split; [reflexivity|].
    apply chained_concat in Hch.
    apply Forall2_fmap_l in Hruns.
    apply Forall2_same_length_lookup_2.
    { apply Forall2_length in Hm, Hruns. congruence. }
    intros t s run Hs Hrun.
    destruct (Forall2_lookup_l _ _ _ _ _ Hm Hs) as (dcd & Hdcd & Hsd').
    destruct (Forall2_lookup_lr _ _ _ _ _ _ Hruns Hdcd Hrun) as [Hne Hbuilt'].
    assert (Hsame : forall b, b ∈ run ->
              exists c, dcd !! "out_channel" = Some (VInt c) /\
                        block_out_channel b = EfficientNet._round_channel ap gp c).
    { intros b Hb. rewrite Forall_forall in Hbuilt'.
      destruct (Hbuilt' b Hb) as ((c & Hc & Hout) & _).
      rewrite lookup_delete_ne in Hc by discriminate. eauto. }
    split; [exact Hne|]. split.
    + intros args c Hd Hc. rewrite Hsd' in Hd. injection Hd as <-.
      apply Forall_forall. intros b Hb.
      destruct (Hsame b Hb) as (c' & Hc' & ->). congruence.
    + intros j b Hj Hb. destruct j as [|j]; [lia|].
      destruct (lookup_lt_is_Some_2 run j) as [b' Hb'].
      { apply lookup_lt_Some in Hb. lia. }
      rewrite Forall_forall in Hch.
      destruct (Hch run (list_elem_of_lookup_2 _ _ _ Hrun)) as (a' & c' & Hrunch).
      rewrite (chained_step _ _ _ _ _ _ Hrunch Hb' Hb).
      destruct (Hsame b (list_elem_of_lookup_2 _ _ _ Hb)) as (c1 & Hc1 & ->).
      destruct (Hsame b' (list_elem_of_lookup_2 _ _ _ Hb')) as (c2 & Hc2 & ->).
      congruence.
Qed.

End Assembler.

Lemma block_chaining_witness :
  exists net,
    @EfficientNet.init decimal_env unit_arch lite_params repeated_ends_def
      1000 3 32 false None false = Ok net /\
    length (EfficientNet.blocks net) = 3%nat.
Proof.
  destruct (@EfficientNet.init decimal_env unit_arch lite_params repeated_ends_def
              1000 3 32 false None false) as [net|e] eqn:E;
    [|vm_compute in E; discriminate].
  exists net. split; [reflexivity|].
  exact (proj1 (@block_chaining decimal_env _ _ _ _ _ _ _ _ _ _ E)).
Defined.

(** C4 (as stated): a block after the first in its stage need not have
    equal input and output channel counts; in a stage declared by two stage
    strings with output channels 16 and 24 the second block takes 16
    channels and produces 24. *)
Lemma block_chaining_in_out_differ :
  exists net stage b,
    @EfficientNet.init decimal_env unit_arch lite_params two_substage_def
      1000 3 32 false None false = Ok net /\
    EfficientNet.blocks net !! 0%nat = Some stage /\
    stage !! 1%nat = Some b /\
    block_in_channel b = 16 /\ block_out_channel b = 24 /\
    block_in_channel b <> block_out_channel b.
Proof.
  destruct (@EfficientNet.init decimal_env unit_arch lite_params two_substage_def
              1000 3 32 false None false) as [net|e] eqn:E;
    vm_compute in E; [|discriminate].
  injection E as <-. do 3 eexists. split; [reflexivity|].
  split; [reflexivity|]. split; [reflexivity|]. cbn. repeat split. discriminate.
Qed.

(** C3: with [fix_block_first_last] set, a first stage declaring 2 repeats
    and a last stage declaring 3 repeats are built with one block instance
    each, while the same definition without the flag (and a depth
    multiplier of 1) builds 2 and 3 instances. *)
Theorem fix_first_last_drops_repeats :
  (exists net,
      @EfficientNet.init decimal_env unit_arch lite_params repeated_ends_def
        1000 3 32 true (Some 1280) true = Ok net /\
      map length (EfficientNet.blocks net) = [1; 2; 1]%nat) /\
  (exists net,
      @EfficientNet.init decimal_env unit_arch lite_params repeated_ends_def
        1000 3 32 true (Some 1280) false = Ok net /\
      map length (EfficientNet.blocks net) = [2; 2; 3]%nat).
Proof.
  split.
  - destruct (@EfficientNet.init decimal_env unit_arch lite_params repeated_ends_def
                1000 3 32 true (Some 1280) true) as [net|e] eqn:E;
      vm_compute in E; [|discriminate].
    injection E as <-. eexists. split; reflexivity.
  - destruct (@EfficientNet.init decimal_env unit_arch lite_params repeated_ends_def
                1000 3 32 true (Some 1280) false) as [net|e] eqn:E;
      vm_compute in E; [|discriminate].
    injection E as <-. eexists. split; reflexivity.
Qed.

Section Layout.
Context `{External}.
Variable ap : arch_params.
Variable gp : global_params.

(** C10: when [__init__] returns, [out_channels] is the stem size, then
    one entry per stage, then [num_features] and [num_classes]; the entry
    of a stage is the output channel count of its last block, which is a
    rounded declared channel count; there are as many stages as the block
    definition has, the list is 3 longer, and its slice [1:-2] is the
    per-stage record. *)
Theorem out_channels_layout (block_def : list (list string))
    (num_classes in_channel stem_size : Z) (fix_stem : bool)
    (num_features : option Z) (fix_first_last : bool) (net : EfficientNet.t) :
  EfficientNet.init ap gp block_def num_classes in_channel stem_size fix_stem
    num_features fix_first_last = Ok net ->
  exists per,
    EfficientNet.out_channels net
      = [if negb fix_stem then EfficientNet._round_channel ap gp stem_size
         else stem_size]
        ++ per ++ [EfficientNet.num_features net; num_classes] /\
    Forall2 (fun stage c =>
               forall b, last stage = Some b ->
                         c = block_out_channel b /\
                         exists declared, c = EfficientNet._round_channel ap gp declared)
      (EfficientNet.blocks net) per /\
    length (EfficientNet.blocks net) = length block_def /\
    length (EfficientNet.out_channels net)
      = (length (EfficientNet.blocks net) + 3)%nat /\
    slice_1_m2 (EfficientNet.out_channels net) = per.
Proof.
  intros Hi. apply init_ok in Hi as (blocks_args & per & Hdec & Hbuilt & Hoc & Hlast & _).
  exists per. rewrite Hoc. split; [reflexivity|].
  pose proof (Forall2_length _ _ _ Hlast) as Hlen.
  split; [|split; [|split]].
  - clear Hoc Hlen. revert blocks_args per Hbuilt Hlast Hdec.
    generalize block_def. generalize (EfficientNet.blocks net).
    induction l as [|stage blocks IH]; intros bd blocks_args per Hbuilt Hlast Hdec.
    + inversion Hlast. constructor.
    + inversion Hlast as [|? c ? per' Hc Hrest]; subst.
      inversion Hbuilt as [|stage_args ? rest_args ? Hsb Hbrest]; subst.
      inversion Hdec as [|? ? bd' ? _ Hdrest]; subst.
      constructor; [|exact (IH _ _ _ Hbrest Hrest Hdrest)].
      intros b Hb. split; [exact (Hc b Hb)|].
      destruct Hsb as (Hall & _ & _).
      rewrite last_lookup in Hb.
      destruct (Forall2_lookup_r _ _ _ _ _ Hall Hb) as (args & _ & (d & _ & Hd) & _).
      exists d. rewrite (Hc b) by (rewrite last_lookup; exact Hb). exact Hd.
  - apply Forall2_length in Hdec, Hbuilt. congruence.
  - cbn [length]. rewrite length_app. cbn [length]. lia.
  - unfold slice_1_m2. cbn [length drop]. rewrite length_app. cbn [length].
    apply take_app_length'. lia.
Qed.

End Layout.

Lemma out_channels_layout_witness :
  exists net,
    @efficientnet_b0 decimal_env false true 1000 no_kwargs = Ok net /\
    length (EfficientNet.out_channels net) = (length (EfficientNet.blocks net) + 3)%nat /\
    EfficientNet.out_channels net = [32; 16; 24; 40; 80; 112; 192; 320; 1280; 1000].
Proof.
  unfold efficientnet_b0, _efficientnet, _create_model. cbn [negb].
  match goal with
  | |- exists net, bind ?i _ = _ /\ _ => destruct i as [net|e] eqn:E
  end; [|vm_compute in E; discriminate].
  exists net. split; [reflexivity|]. split.
  - destruct (@out_channels_layout decimal_env _ _ _ _ _ _ _ _ _ _ E)
      as (per & _ & _ & _ & Hlen & _).
    exact Hlen.
  - vm_compute in E. injection E as <-. reflexivity.
Defined.

(** ** Stage partitioner *)

Lemma efficientnet_stages_bad_count (network : EfficientNet.t) :
  length (EfficientNet.blocks network) <> 6%nat ->
  length (EfficientNet.blocks network) <> 7%nat ->
  fails (_efficientnet_stages network).
Proof.
  intros H6 H7. unfold _efficientnet_stages.
  destruct (mapM _ _) as [channels|e]; [|apply fails_raise].
  cbn [bind].
  destruct (Nat.eqb_spec (length (EfficientNet.blocks network)) 6); [contradiction|].
  destruct (Nat.eqb_spec (length (EfficientNet.blocks network)) 7); [contradiction|].
  apply fails_raise.
Qed.

Lemma efficientnet_stages_good_count (network : EfficientNet.t) :
  length (EfficientNet.out_channels network)
    = (length (EfficientNet.blocks network) + 3)%nat ->
  length (EfficientNet.blocks network) = 6%nat \/
  length (EfficientNet.blocks network) = 7%nat ->
  exists groups channels c0 c1 c2 c4 c_last,
    _efficientnet_stages network = Ok (Sequential groups, channels) /\
    length groups = 5%nat /\
    slice_1_m2 (EfficientNet.out_channels network) !! 0%nat = Some c0 /\
    slice_1_m2 (EfficientNet.out_channels network) !! 1%nat = Some c1 /\
    slice_1_m2 (EfficientNet.out_channels network) !! 2%nat = Some c2 /\
    slice_1_m2 (EfficientNet.out_channels network) !! 4%nat = Some c4 /\
    last (slice_1_m2 (EfficientNet.out_channels network)) = Some c_last /\
    channels = [c0; c1; c2; c4; c_last].
Proof.
  intros Hlen Hcount. unfold _efficientnet_stages.
  destruct (EfficientNet.blocks network) as [|b0 [|b1 [|b2 [|b3 [|b4 [|b5 [|b6 [|? ?]]]]]]]];
    cbn [length] in Hcount, Hlen; try (exfalso; lia);
    (destruct (EfficientNet.out_channels network)
      as [|s [|x0 [|x1 [|x2 [|x3 [|x4 [|x5 [|x6 [|x7 [|x8 [|? ?]]]]]]]]]]];
     cbn [length] in Hlen; try (exfalso; lia));
    cbn; do 7 eexists; repeat split.
Qed.

Section Partition.
Context `{External}.

(** C7: for a network that [__init__] has built, the stage partitioner
    raises an error when the number of stages is neither 6 nor 7; when it
    is 6 or 7 it returns 5 feature groups, and the channel counts it
    reports are the entries 0, 1, 2, 4 and the last one of the per-stage
    record [out_channels[1:-2]]. *)
Theorem stage_partition (ap : arch_params) (gp : global_params)
    (block_def : list (list string)) (num_classes in_channel stem_size : Z)
    (fix_stem : bool) (num_features : option Z) (fix_first_last : bool)
    (net : EfficientNet.t) :
  EfficientNet.init ap gp block_def num_classes in_channel stem_size fix_stem
    num_features fix_first_last = Ok net ->
  let record := slice_1_m2 (EfficientNet.out_channels net) in
  (length (EfficientNet.blocks net) <> 6%nat ->
   length (EfficientNet.blocks net) <> 7%nat ->
   fails (_efficientnet_stages net)) /\
  (length (EfficientNet.blocks net) = 6%nat \/
   length (EfficientNet.blocks net) = 7%nat ->
   exists groups channels c0 c1 c2 c4 c_last,
     _efficientnet_stages net = Ok (Sequential groups, channels) /\
     length groups = 5%nat /\
     record !! 0%nat = Some c0 /\ record !! 1%nat = Some c1 /\
     record !! 2%nat = Some c2 /\ record !! 4%nat = Some c4 /\
     last record = Some c_last /\
     channels = [c0; c1; c2; c4; c_last]).
Proof.
  intros Hi record. split.
  - apply efficientnet_stages_bad_count.
  - apply efficientnet_stages_good_count.
    exact (init_out_channels_length _ _ _ _ _ _ _ _ _ _ Hi).
Qed.

End Partition.

Lemma stage_partition_witness :
  exists net stages,
    @efficientnet_b0 decimal_env false true 1000 no_kwargs = Ok net /\
    _efficientnet_stages net = Ok (stages, [16; 24; 40; 112; 320]).
Proof.
  unfold efficientnet_b0, _efficientnet, _create_model. cbn [negb].
  match goal with
  | |- exists net stages, bind ?i _ = _ /\ _ => destruct i as [net|e] eqn:E
  end; [|vm_compute in E; discriminate].
  exists net.
  destruct (@stage_partition decimal_env _ _ _ _ _ _ _ _ _ _ E) as [_ Hgood].
  destruct Hgood as (groups & channels & c0 & c1 & c2 & c4 & cl & Hs & _ & H0 & H1 & H2 & H4 & Hl & ->).
  { right. vm_compute in E. injection E as <-. reflexivity. }
  exists (Sequential groups). split; [reflexivity|]. rewrite Hs.
  vm_compute in E. injection E as <-.
  vm_compute in H0, H1, H2, H4, Hl. congruence.
Defined.

(** ** Backbone construction *)

Section Backbone.
Context `{External}.

Lemma init_drop_path_disabled (ap : arch_params) (gp : global_params)
    (block_def : list (list string)) (num_classes in_channel stem_size : Z)
    (fix_stem : bool) (num_features : option Z) (fix_first_last : bool)
    (net : EfficientNet.t) :
  (drop_path_rate gp == 0)%Q ->
  EfficientNet.init ap gp block_def num_classes in_channel stem_size fix_stem
    num_features fix_first_last = Ok net ->
  drop_path_disabled net.
Proof.
  intros Hz Hi. apply init_ok in Hi as (blocks_args & per & _ & Hbuilt & _ & _ & Hgp & _).
  split; [rewrite Hgp; exact Hz|].
  split; [intros total st; rewrite Hgp; apply drop_rate_zero; exact Hz|].
  induction Hbuilt as [|stage_args stage rest_args rest (Hall & _) _ IH]; constructor;
    [|exact IH].
  clear -Hall Hz. induction Hall as [|args b ? ? [_ Hdp] _ IH]; constructor; auto.
Qed.

Lemma create_model_drop_path_disabled (variant : string)
    (block_def : list (list string)) (gp : global_params) (ap : arch_params)
    (num_classes : Z) (o : override_params) (pretrained progress : bool)
    (kw : kwargs) (net : EfficientNet.t) :
  o_drop_path_rate o = Some 0%Q ->
  _create_model variant block_def gp ap num_classes (Some o) pretrained progress kw
    = Ok net ->
  drop_path_disabled net.
Proof.
  intros Ho Hc. unfold _create_model in Hc. bind_inv Hc.
  apply init_drop_path_disabled in E; [|cbn; rewrite Ho; reflexivity].
  destruct pretrained; [|injection Hc as <-; exact E].
  bind_inv Hc. bind_inv Hc.
  destruct (negb (num_classes =? 1000)); injection Hc as <-; exact E.
Qed.


(** Each family function is a call of [_create_model] on its own block
    definition and global parameters. *)
Lemma efficientnet_create_model :
  exists bd gp, forall variant ap nc o pretrained progress kw,
    _efficientnet variant ap nc o pretrained progress kw
    = _create_model variant bd gp ap nc o pretrained progress kw.
Proof. do 2 eexists. intros. reflexivity. Qed.

Lemma efficientnet_edge_create_model :
  exists bd gp, forall variant ap nc o pretrained progress kw,
    _efficientnet_edge variant ap nc o pretrained progress kw
    = _create_model variant bd gp ap nc o pretrained progress kw.
Proof. do 2 eexists. intros. reflexivity. Qed.

Lemma efficientnet_lite_create_model :
  exists bd gp kwf, forall variant ap nc o pretrained progress kw,
    _efficientnet_lite variant ap nc o pretrained progress kw
    = _create_model variant bd gp ap nc o pretrained progress (kwf kw).
Proof. do 3 eexists. intros. reflexivity. Qed.

Lemma family_drop_path_disabled
    (family : string -> arch_params -> Z -> option override_params -> bool -> bool ->
              kwargs -> result EfficientNet.t)
    (variant : string) (ap : arch_params) (nc : Z) (o : option override_params)
    (o' : override_params) (pretrained progress : bool) (kw : kwargs)
    (net : EfficientNet.t) :
  family = _efficientnet \/ family = _efficientnet_edge \/ family = _efficientnet_lite ->
  o = Some o' -> o_drop_path_rate o' = Some 0%Q ->
  family variant ap nc o pretrained progress kw = Ok net ->
  drop_path_disabled net.
Proof.
  intros Hf -> Ho Hb. destruct Hf as [-> | [-> | ->]].
  - destruct efficientnet_create_model as (bd & gp & Heq). rewrite Heq in Hb.
    exact (create_model_drop_path_disabled _ _ _ _ _ _ _ _ _ _ Ho Hb).
  - destruct efficientnet_edge_create_model as (bd & gp & Heq). rewrite Heq in Hb.
    exact (create_model_drop_path_disabled _ _ _ _ _ _ _ _ _ _ Ho Hb).
  - destruct efficientnet_lite_create_model as (bd & gp & kwf & Heq). rewrite Heq in Hb.
    exact (create_model_drop_path_disabled _ _ _ _ _ _ _ _ _ _ Ho Hb).
Qed.

(** The function the backbone evaluates: one of the model functions,
    each a call of its family function on the keyword arguments. *)
Lemma eval_model_ok (model_name : string) (pretrained : bool) (nc : Z) (kw : kwargs)
    (net : EfficientNet.t) :
  eval_model model_name pretrained nc kw = Ok net ->
  exists family variant ap,
    (family = _efficientnet \/ family = _efficientnet_edge \/
     family = _efficientnet_lite) /\
    family variant ap nc (kw_override_params kw) pretrained true kw = Ok net.
Proof.
  intros Hb. unfold eval_model in Hb.
  destruct (list_to_map _ !! model_name) as [f|] eqn:Ef; [|discriminate].
  apply elem_of_list_to_map_2 in Ef.
  repeat (apply elem_of_cons in Ef as [Ef | Ef];
          [injection Ef as _ ->; revert Hb;
           unfold efficientnet_b0, efficientnet_b1, efficientnet_b2, efficientnet_b3,
             efficientnet_b4, efficientnet_b5, efficientnet_b6, efficientnet_b7,
             efficientnet_b8, efficientnet_l2, efficientnet_l2_475,
             efficientnet_edge_s, efficientnet_edge_m, efficientnet_edge_l,
             efficientnet_lite0, efficientnet_lite1, efficientnet_lite2,
             efficientnet_lite3, efficientnet_lite4;
           intros Hb;
           lazymatch type of Hb with
           | _efficientnet _ _ _ _ _ _ _ = _ =>
               exists _efficientnet; do 2 eexists; split; [left; reflexivity | exact Hb]
           | _efficientnet_edge _ _ _ _ _ _ _ = _ =>
               exists _efficientnet_edge; do 2 eexists;
               split; [right; left; reflexivity | exact Hb]
           | _efficientnet_lite _ _ _ _ _ _ _ = _ =>
               exists _efficientnet_lite; do 2 eexists;
               split; [right; right; reflexivity | exact Hb]
           end|]).
  apply elem_of_nil in Ef. contradiction.
Qed.

(** C8: whatever keyword arguments the caller hands to [get_backbone],
    [override_params] included, the network it builds has a global
    drop-path rate of zero, every block is constructed with a drop-path
    rate of zero, and the drop-path module of every block is the identity;
    [get_backbone] returns only after building such a network. *)
Theorem get_backbone_disables_drop_path (model_name : string) (pretrained : bool)
    (feature_type : string) (n_classes : Z) (kw : kwargs) :
  (forall net, backbone_network model_name pretrained n_classes kw = Ok net ->
               drop_path_disabled net) /\
  (forall bb, get_backbone model_name pretrained feature_type n_classes kw = Ok bb ->
              exists net, backbone_network model_name pretrained n_classes kw = Ok net /\
                          drop_path_disabled net).
Proof.
  assert (Hnet : forall net,
             backbone_network model_name pretrained n_classes kw = Ok net ->
             drop_path_disabled net).
  { intros net Hb. unfold backbone_network in Hb. bind_inv Hb. clear E.
    apply eval_model_ok in Hb as (family & variant & ap & Hf & Hb).
    eapply family_drop_path_disabled; [exact Hf | | | exact Hb]; reflexivity. }
  split; [exact Hnet|].
  intros bb Hg. unfold get_backbone in Hg. bind_inv Hg. eauto.
Qed.

End Backbone.

Lemma get_backbone_disables_drop_path_witness :
  exists net,
    @backbone_network decimal_env "efficientnet_b0" false 1000 no_kwargs = Ok net /\
    drop_path_disabled net.
Proof.
  destruct (@backbone_network decimal_env "efficientnet_b0" false 1000 no_kwargs)
    as [net|e] eqn:E; [|vm_compute in E; discriminate].
  exists net. split; [reflexivity|].
  exact (proj1 (@get_backbone_disables_drop_path decimal_env "efficientnet_b0" false
                  "tri_stage_fpn" 1000 no_kwargs) net E).
Defined.

(** * Further properties *)

(** ** More on the padding resolver *)

Lemma lower_ascii_idem (c : ascii) : lower_ascii (lower_ascii c) = lower_ascii c.
Proof. destruct c as [[] [] [] [] [] [] [] []]; reflexivity. Qed.

Lemma lower_idem (s : string) : lower (lower s) = lower s.
Proof.
  induction s as [|c s IH]; [reflexivity|].
  cbn [lower]. rewrite lower_ascii_idem, IH. reflexivity.
Qed.

(** X1: the mode string of [get_padding] is read without regard to case. *)
Theorem get_padding_case_insensitive (s : string) (k st d : Z) :
  get_padding (PadStr s) k st d = get_padding (PadStr (lower s)) k st d.
Proof. unfold get_padding. rewrite lower_idem. reflexivity. Qed.

(** X2: [get_padding] asks for dynamic padding exactly when the mode is
    'same' (in any case) and the stride is not 1 or the dilated kernel
    extent [dilation * (kernel_size - 1)] is odd. *)
Theorem get_padding_dynamic_iff (p : padding_arg) (k st d : Z) :
  snd (get_padding p k st d) = true <->
  exists s, p = PadStr s /\ lower s = "same" /\
            (st <> 1 \/ (d * (k - 1)) mod 2 <> 0).
Proof.
  unfold get_padding. split.
  - destruct p as [s| |]; try discriminate.
    destruct (String.eqb_spec (lower s) "same") as [Es|Es].
    + destruct (Z.eqb_spec st 1) as [E1|E1];
        destruct (Z.eqb_spec ((d * (k - 1)) mod 2) 0) as [E2|E2]; cbn;
        try discriminate; intros _; exists s; auto.
    + destruct (String.eqb (lower s) "valid"); discriminate.
  - intros (s & -> & Es & Hc). rewrite Es. cbn [String.eqb Ascii.eqb Bool.eqb].
    change ("same" =? "same")%string with true. cbn match.
    destruct (Z.eqb_spec st 1) as [E1|E1];
      destruct (Z.eqb_spec ((d * (k - 1)) mod 2) 0) as [E2|E2]; cbn;
      try reflexivity. destruct Hc; contradiction.
Qed.

(** X3: whenever 'same' is resolved statically, twice the padding is the
    dilated kernel extent, so the padding is the same on both edges and
    nothing is lost to the integer division; 'valid' is padding 0. *)
Theorem get_padding_static_same (s : string) (k st d : Z) :
  (lower s = "same" -> snd (get_padding (PadStr s) k st d) = false ->
   exists p, fst (get_padding (PadStr s) k st d) = PadInt p /\
             st = 1 /\ 2 * p = d * (k - 1)) /\
  (lower s = "valid" -> get_padding (PadStr s) k st d = (PadInt 0, false)).
Proof.
  unfold get_padding. split.
  - intros Es. rewrite Es. change ("same" =? "same")%string with true. cbn match.
    destruct (Z.eqb_spec st 1) as [E1|E1];
      destruct (Z.eqb_spec ((d * (k - 1)) mod 2) 0) as [E2|E2]; cbn;
      try discriminate.
    intros _. eexists. split; [reflexivity|]. split; [exact E1|].
    subst st. replace (1 - 1 + d * (k - 1)) with (d * (k - 1)) by lia.
    pose proof (Z.div_mod (d * (k - 1)) 2 ltac:(lia)). lia.
  - intros Es. rewrite Es. reflexivity.
Qed.

Lemma get_padding_static_same_witness :
  exists p, fst (get_padding (PadStr "SAME") 5 1 1) = PadInt p /\ 2 * p = 1 * (5 - 1).
Proof.
  destruct (proj1 (get_padding_static_same "SAME" 5 1 1) eq_refl eq_refl)
    as (p & Hp & _ & H2).
  exists p. split; [exact Hp | exact H2].
Defined.

(** X4: for a positive stride, a kernel size of at least 1, a non-negative
    dilation and a non-negative input length below 2^53 (so that the float
    quotient the code takes the ceiling of has the ceiling of the exact
    one), [get_same_padding] returns a non-negative amount after which the
    window takes exactly [ceil(x / s)] positions on the padded axis. *)
Theorem get_same_padding_positions (x k s d : Z) :
  0 <= x < 2 ^ 53 -> 1 <= s <= 2 ^ 1022 -> 1 <= k -> 0 <= d ->
  exists pad, get_same_padding x k s d = Ok pad /\ 0 <= pad /\
              window_positions (x + pad) k s d = Qceiling (inject_Z x / inject_Z s)%Q.
Proof.
  intros Hx Hs Hk Hd. unfold get_same_padding.
  rewrite (ceil_div_exact x s Hx Hs). cbn [bind].
  pose proof (Qceiling_div_bounds x s ltac:(lia)) as [Hlo Hhi].
  set (c := Qceiling (inject_Z x / inject_Z s)%Q) in *.
  eexists. split; [reflexivity|]. split; [lia|].
  unfold window_positions.
  assert (Hspan : 1 <= (k - 1) * d + 1) by nia.
  set (span := (k - 1) * d + 1) in *.
  replace ((c - 1) * s + (k - 1) * d + 1 - x) with ((c - 1) * s + span - x) by (unfold span; lia).
  assert (E : (x + Z.max ((c - 1) * s + span - x) 0 - span) / s = c - 1); [|lia].
  symmetry. apply Z.div_unique with (r := x + Z.max ((c - 1) * s + span - x) 0 - span - s * (c - 1)).
  - left. lia.
  - lia.
Qed.

Lemma get_same_padding_positions_witness :
  exists pad, get_same_padding 7 3 2 1 = Ok pad /\ window_positions (7 + pad) 3 2 1 = 4.
Proof.
  destruct (get_same_padding_positions 7 3 2 1) as (pad & Hp & _ & Hw); try lia.
  exists pad. split; [exact Hp | exact Hw].
Defined.

(** X5: on an input whose two sizes are within the range of the doubles
    (below 2^1023), [pad_same] raises (a division by zero) exactly when one
    of the two strides is 0. *)
Theorem pad_same_fails_iff (x : tensor) (k s d : Z * Z) :
  fst (shape_hw x) < 2 ^ 1023 -> snd (shape_hw x) < 2 ^ 1023 ->
  fails (pad_same x k s d) <-> fst s = 0 \/ snd s = 0.
Proof.
  intros Hh Hw. unfold pad_same. revert Hh Hw.
  destruct (shape_hw x) as [ih iw] eqn:Esh. cbn [fst snd]. intros Hh Hw.
  assert (Hih : 0 <= ih) by (unfold shape_hw in Esh; injection Esh as <- _; lia).
  assert (Hiw : 0 <= iw) by (unfold shape_hw in Esh; injection Esh as _ <-; lia).
  destruct (Z.eq_dec (fst s) 0) as [E1|E1].
  - rewrite E1, get_same_padding_zero. cbn [bind].
    split; [auto | intros _; apply fails_raise].
  - destruct (get_same_padding_returns ih (fst k) (fst s) (fst d) E1 ltac:(lia))
      as (ph & -> & _). cbn [bind].
    destruct (Z.eq_dec (snd s) 0) as [E2|E2].
    + rewrite E2, get_same_padding_zero. cbn [bind].
      split; [auto | intros _; apply fails_raise].
    + destruct (get_same_padding_returns iw (snd k) (snd s) (snd d) E2 ltac:(lia))
        as (pw & -> & _). cbn [bind].
      split; [|intros [?|?]; contradiction].
      intros Hf. exfalso.
      destruct (_ || _); exact (not_fails_ok _ Hf).
Qed.

Lemma pad_same_fails_iff_witness :
  fails (pad_same ones7 (3, 3) (0, 2) (1, 1)).
Proof.
  apply (proj2 (pad_same_fails_iff ones7 (3, 3) (0, 2) (1, 1)
                  ltac:(vm_compute; reflexivity) ltac:(vm_compute; reflexivity))).
  left. reflexivity.
Defined.

Lemma rectangular_hd (w : nat) (x : tensor) :
  x <> [] -> rectangular w x -> length (hd [] x) = w.
Proof. intros Hne Hr. destruct Hr; [contradiction | assumption]. Qed.

Lemma F_pad_rows (x : tensor) (l r t b : Z) :
  F_pad x [l; r; t; b] =
  replicate (Z.to_nat t) (replicate (Z.to_nat l + length (hd [] x) + Z.to_nat r) 0)
  ++ map (fun xs => replicate (Z.to_nat l) 0 ++ xs ++ replicate (Z.to_nat r) 0) x
  ++ replicate (Z.to_nat b) (replicate (Z.to_nat l + length (hd [] x) + Z.to_nat r) 0).
Proof. reflexivity. Qed.

Lemma F_pad_rectangular (w : nat) (x : tensor) (l r t b : Z) :
  x <> [] -> rectangular w x ->
  rectangular (Z.to_nat l + w + Z.to_nat r) (F_pad x [l; r; t; b]).
Proof.
  intros Hne Hr. rewrite F_pad_rows, (rectangular_hd w x Hne Hr).
  unfold rectangular in *. rewrite !Forall_app. repeat split.
  - apply Forall_replicate. apply length_replicate.
  - apply Forall_map. eapply Forall_impl; [exact Hr|].
    intros row Hrow. unfold compose. rewrite !length_app, !length_replicate, Hrow. lia.
  - apply Forall_replicate. apply length_replicate.
Qed.

Lemma F_pad_length (x : tensor) (l r t b : Z) :
  length (F_pad x [l; r; t; b]) = (Z.to_nat t + length x + Z.to_nat b)%nat.
Proof. rewrite F_pad_rows, !length_app, length_map, !length_replicate. lia. Qed.

Lemma F_pad_entry (x : tensor) (l r t b : Z) (i j : nat) (v : Z) :
  entry x i j = Some v ->
  entry (F_pad x [l; r; t; b]) (Z.to_nat t + i) (Z.to_nat l + j) = Some v.
Proof.
  unfold entry, tensor in *. destruct (x !! i) as [row|] eqn:Ei; [|intros ?; discriminate].
  intros Hj.
  rewrite F_pad_rows.
  rewrite lookup_app_r by (rewrite length_replicate; lia).
  rewrite length_replicate.
  replace (Z.to_nat t + i - Z.to_nat t)%nat with i by lia.
  rewrite lookup_app_l by (rewrite length_map; eapply lookup_lt_Some; eauto).
  rewrite list_lookup_fmap, Ei. cbn.
  rewrite lookup_app_r by (rewrite length_replicate; lia).
  rewrite length_replicate.
  replace (Z.to_nat l + j - Z.to_nat l)%nat with j by lia.
  rewrite lookup_app_l by (eapply lookup_lt_Some; eauto). exact Hj.
Qed.

(** X6: on a non-empty matrix with rows of equal width, sizes within the
    range of the doubles (below 2^1023) and non-zero strides, [pad_same] grows each axis by the amount [get_same_padding]
    gives for it, puts the floor half of that amount on the leading edge
    (so the trailing edge gets the same or one more), and keeps every entry
    of the input at its place shifted by the leading amounts. *)
Theorem pad_same_layout (w : nat) (x : tensor) (k s d : Z * Z) :
  x <> [] -> rectangular w x -> fst s <> 0 -> snd s <> 0 ->
  Z.of_nat (length x) < 2 ^ 1023 -> Z.of_nat w < 2 ^ 1023 ->
  exists pad_h pad_w y,
    get_same_padding (Z.of_nat (length x)) (fst k) (fst s) (fst d) = Ok pad_h /\
    get_same_padding (Z.of_nat w) (snd k) (snd s) (snd d) = Ok pad_w /\
    pad_same x k s d = Ok y /\
    shape_hw y = (Z.of_nat (length x) + pad_h, Z.of_nat w + pad_w) /\
    rectangular (w + Z.to_nat pad_w) y /\
    (0 <= pad_h / 2 <= pad_h - pad_h / 2 /\ pad_h - pad_h / 2 <= pad_h / 2 + 1) /\
    (0 <= pad_w / 2 <= pad_w - pad_w / 2 /\ pad_w - pad_w / 2 <= pad_w / 2 + 1) /\
    forall i j v,
      entry x i j = Some v ->
      entry y (Z.to_nat (pad_h / 2) + i) (Z.to_nat (pad_w / 2) + j) = Some v.
Proof.
  intros Hne Hr Hs1 Hs2 Hbh Hbw. unfold pad_same, shape_hw.
  rewrite (rectangular_hd w x Hne Hr).
  destruct (get_same_padding_returns (Z.of_nat (length x)) (fst k) (fst s) (fst d)
              Hs1 ltac:(lia)) as (ph & Eh & Hph).
  destruct (get_same_padding_returns (Z.of_nat w) (snd k) (snd s) (snd d)
              Hs2 ltac:(lia)) as (pw & Ew & Hpw).
  rewrite Eh, Ew. cbn [bind].
  pose proof (Z.div_mod ph 2 ltac:(lia)) as Dh.
  pose proof (Z.mod_pos_bound ph 2 ltac:(lia)) as Mh.
  pose proof (Z.div_mod pw 2 ltac:(lia)) as Dw.
  pose proof (Z.mod_pos_bound pw 2 ltac:(lia)) as Mw.
  exists ph, pw.
  destruct ((0 <? ph) || (0 <? pw)) eqn:Epad.
  - eexists. split; [reflexivity|]. split; [reflexivity|]. split; [reflexivity|].
    pose proof (F_pad_rectangular w x (pw / 2) (pw - pw / 2) (ph / 2) (ph - ph / 2) Hne Hr)
      as Hrect.
    assert (Hne' : F_pad x [pw / 2; pw - pw / 2; ph / 2; ph - ph / 2] <> []).
    { intros E. apply (f_equal (@length _)) in E. rewrite F_pad_length in E.
      destruct x; [contradiction | cbn in E; lia]. }
    split; [|split; [|split; [lia|split; [lia|]]]].
    + rewrite (rectangular_hd _ _ Hne' Hrect), F_pad_length. f_equal; lia.
    + replace (w + Z.to_nat pw)%nat
        with (Z.to_nat (pw / 2) + w + Z.to_nat (pw - pw / 2))%nat by lia.
      exact Hrect.
    + intros i j v Hv. apply F_pad_entry. exact Hv.
  - apply orb_false_iff in Epad as [E1 E2].
    apply Z.ltb_ge in E1, E2. assert (ph = 0) by lia. assert (pw = 0) by lia. subst.
    exists x. repeat split; try reflexivity; try lia.
    + rewrite (rectangular_hd w x Hne Hr). f_equal; lia.
    + replace (w + Z.to_nat 0)%nat with w by lia. exact Hr.
    + intros i j v Hv. exact Hv.
Qed.

Lemma pad_same_layout_witness :
  exists y, pad_same ones7 (3, 3) (2, 2) (1, 1) = Ok y /\ entry y 1 1 = Some 1.
Proof.
  destruct (pad_same_layout 7 ones7 (3, 3) (2, 2) (1, 1))
    as (ph & pw & y & Eh & Ew & Hy & _ & _ & _ & _ & Hent).
  - discriminate.
  - repeat constructor.
  - discriminate.
  - discriminate.
  - vm_compute. reflexivity.
  - vm_compute. reflexivity.
  - exists y. split; [exact Hy|].
    vm_compute in Eh, Ew. injection Eh as <-. injection Ew as <-.
    exact (Hent 0%nat 0%nat 1 eq_refl).
Defined.

(** ** More on the block-string decoder *)

Lemma re_split_no_digit (s : string) :
  has_digit s = false -> re_split_from false s = [s].
Proof.
  induction s as [|c s IH]; [reflexivity|].
  cbn [has_digit re_split_from]. intros Hd. apply orb_false_iff in Hd as [Hc Hs].
  rewrite Hc, (IH Hs). reflexivity.
Qed.

Lemma args_map_cases (s0 key : string) (c : cast) :
  args_map !! s0 = Some (key, c) ->
  (s0, (key, c)) ∈ [("r", ("repeat", CastInt)); ("k", ("kernel_size", CastInt));
                    ("s", ("stride", CastInt)); ("e", ("exp_ratio", CastFloat));
                    ("m", ("mid_channel", CastInt)); ("c", ("out_channel", CastInt));
                    ("se", ("se_ratio", CastFloat))].
Proof. intros Hl. unfold args_map in Hl. apply elem_of_list_to_map_2 in Hl. exact Hl. Qed.

Lemma args_map_key_inj (s0 s0' key key' : string) (c c' : cast) :
  args_map !! s0 = Some (key, c) -> args_map !! s0' = Some (key', c') ->
  key = key' <-> s0 = s0'.
Proof.
  intros H1 H2. apply args_map_cases in H1, H2.
  repeat (apply elem_of_cons in H1 as [H1 | H1];
          [injection H1 as -> -> ->;
           repeat (apply elem_of_cons in H2 as [H2 | H2];
                   [injection H2 as -> -> ->; split; congruence|]);
           apply elem_of_nil in H2; contradiction|]).
  apply elem_of_nil in H1. contradiction.
Qed.

Section DecoderExtras.
Context `{External}.

Lemma apply_cast_typed (key : string) (s0 s1 : string) (c : cast) (v : pyval) :
  args_map !! s0 = Some (key, c) -> apply_cast c s1 = Ok v -> spec_value_ok key v.
Proof.
  intros Hm Hc. apply args_map_cases in Hm. unfold spec_value_ok.
  repeat (apply elem_of_cons in Hm as [Hm | Hm];
          [injection Hm as -> -> ->; cbn in Hc;
           first [ destruct (py_int s1) as [z|]; [|discriminate]
                 | destruct (py_float s1) as [q|]; [|discriminate] ];
           cbn in Hc; injection Hc as <-;
           first [ do 2 right; left; split; [set_solver | eauto]
                 | do 3 right; split; [set_solver | eauto] ] |]).
  apply elem_of_nil in Hm. contradiction.
Qed.

Lemma decode_ops_digit_free (ops : list string) :
  forall args noskip,
    (exists op, op ∈ ops /\ op <> "noskip" /\ has_digit op = false) ->
    fails (decode_ops ops args noskip).
Proof.
  induction ops as [|op ops IH]; intros args noskip (bad & Hin & Hne & Hd).
  - apply elem_of_nil in Hin. contradiction.
  - destruct (decode_ops (op :: ops) args noskip) as [res|e] eqn:Hdec;
      [|apply fails_raise].
    exfalso.
    apply decode_ops_cons in Hdec
      as [[-> Hdec] | (Hne' & s1 & rest & key & c & v & Hsplit & _ & _ & Hdec)].
    + apply elem_of_cons in Hin as [-> | Hin]; [congruence|].
      apply (not_fails_ok res). rewrite <- Hdec. apply IH. eauto.
    + apply elem_of_cons in Hin as [-> | Hin].
      * unfold re_split_digits in Hsplit. rewrite (re_split_no_digit _ Hd) in Hsplit.
        discriminate.
      * apply (not_fails_ok res). rewrite <- Hdec. apply IH. eauto.
Qed.

(** X7: a stage string with a token, other than [noskip], that holds no
    digit does not decode; an empty token, as left by a doubled or a
    trailing underscore, is such a token. *)
Theorem decode_str_def_digit_free (stage_str : string) :
  (exists op, op ∈ tl (split "_" stage_str) /\ op <> "noskip" /\ has_digit op = false) ->
  fails (EfficientNet._decode_str_def stage_str).
Proof.
  intros Hbad. unfold EfficientNet._decode_str_def. apply fails_bind.
  apply decode_ops_digit_free. exact Hbad.
Qed.

Lemma decode_ops_typed (ops : list string) :
  forall args noskip args' noskip',
    decode_ops ops args noskip = Ok (args', noskip') ->
    map_Forall spec_value_ok args -> map_Forall spec_value_ok args'.
Proof.
  induction ops as [|op ops IH]; intros args noskip args' noskip' Hd Hinv.
  - cbn in Hd. injection Hd as <- <-. exact Hinv.
  - apply decode_ops_cons in Hd
      as [[-> Hd] | (Hne & s1 & rest & key & c & v & _ & Hm & Hc & Hd)].
    + exact (IH _ _ _ _ Hd Hinv).
    + apply (IH _ _ _ _ Hd). apply map_Forall_insert_2; [|exact Hinv].
      exact (apply_cast_typed _ _ _ _ _ Hm Hc).
Qed.

(** X8: a decoded block specification holds no key beyond [block_type],
    [noskip] and the seven argument names; the block type is a string, the
    flag a boolean, [exp_ratio] and [se_ratio] are floats and the other
    arguments are integers. *)
Theorem decode_str_def_typed (stage_str : string) (args : gmap string pyval) :
  EfficientNet._decode_str_def stage_str = Ok args ->
  forall k v, args !! k = Some v -> spec_value_ok k v.
Proof.
  unfold EfficientNet._decode_str_def. intros Hd.
  apply bind_ok in Hd as ([args' ns] & Hops & Hd).
  apply bind_ok in Hd as (_ & _ & Hd). injection Hd as <-.
  apply decode_ops_typed in Hops.
  - apply map_Forall_insert_2; [|exact Hops]. right. left. eauto.
  - apply map_Forall_singleton. left. eauto.
Qed.

Lemma decode_ops_flags (ops : list string) :
  forall args noskip args' noskip',
    decode_ops ops args noskip = Ok (args', noskip') ->
    args' !! "block_type" = args !! "block_type" /\
    noskip' = noskip || bool_decide ("noskip" ∈ ops).
Proof.
  induction ops as [|op ops IH]; intros args noskip args' noskip' Hd.
  - cbn in Hd. injection Hd as <- <-. split; [reflexivity|].
    rewrite bool_decide_eq_false_2 by apply not_elem_of_nil.
    rewrite orb_false_r. reflexivity.
  - apply decode_ops_cons in Hd
      as [[-> Hd] | (Hne & s1 & rest & key & c & v & _ & Hm & Hc & Hd)].
    + apply IH in Hd as [Hb ->]. split; [exact Hb|].
      rewrite (bool_decide_eq_true_2 ("noskip" ∈ "noskip" :: ops)) by constructor.
      rewrite orb_true_r. reflexivity.
    + apply IH in Hd as [Hb ->]. split.
      * rewrite Hb. apply lookup_insert_ne.
        apply args_map_cases in Hm.
        repeat (apply elem_of_cons in Hm as [Hm | Hm];
                [injection Hm as _ -> _; discriminate|]).
        apply elem_of_nil in Hm. contradiction.
      * f_equal. apply bool_decide_ext. rewrite elem_of_cons.
        split; [auto | intros [E | E]; [congruence | exact E]].
Qed.

(** X9: in a decoded block specification the block type is the text before
    the first underscore, taken as it is, and [noskip] tells whether a
    [noskip] token occurs among the others. *)
Theorem decode_str_def_flags (stage_str : string) (args : gmap string pyval) :
  EfficientNet._decode_str_def stage_str = Ok args ->
  args !! "block_type" = Some (VStr (hd "" (split "_" stage_str))) /\
  args !! "noskip"
    = Some (VBool (bool_decide ("noskip" ∈ tl (split "_" stage_str)))).
Proof.
  unfold EfficientNet._decode_str_def. intros Hd.
  apply bind_ok in Hd as ([args' ns] & Hops & Hd).
  apply bind_ok in Hd as (_ & _ & Hd). injection Hd as <-.
  apply decode_ops_flags in Hops as [Hb ->]. split.
  - rewrite lookup_insert_ne by discriminate. rewrite Hb.
    apply lookup_singleton_eq.
  - rewrite lookup_insert_eq. reflexivity.
Qed.

Lemma decode_ops_keeps (ops : list string) (key : string) :
  forall args noskip args' noskip',
    decode_ops ops args noskip = Ok (args', noskip') ->
    (forall op key' c', op ∈ ops -> op <> "noskip" ->
                        args_map !! token_key op = Some (key', c') -> key' <> key) ->
    args' !! key = args !! key.
Proof.
  induction ops as [|op ops IH]; intros args noskip args' noskip' Hd Hno.
  - cbn in Hd. congruence.
  - apply decode_ops_cons in Hd
      as [[-> Hd] | (Hne & s1 & rest & key' & c & v & _ & Hm & _ & Hd)].
    + apply (IH _ _ _ _ Hd). intros op' k' c' Hin. apply Hno. right. exact Hin.
    + rewrite (IH _ _ _ _ Hd)
        by (intros op' k' c' Hin; apply Hno; right; exact Hin).
      apply lookup_insert_ne. apply (Hno op key' c); [constructor | exact Hne | exact Hm].
Qed.

Lemma decode_ops_last (before after : list string) (op key : string) (c : cast) :
  forall args noskip args' noskip',
    decode_ops (before ++ op :: after) args noskip = Ok (args', noskip') ->
    op <> "noskip" -> args_map !! token_key op = Some (key, c) ->
    (forall op', op' ∈ after -> op' <> "noskip" -> token_key op' <> token_key op) ->
    exists s1 rest v,
      re_split_digits op = token_key op :: s1 :: rest /\
      apply_cast c s1 = Ok v /\ args' !! key = Some v.
Proof.
  induction before as [|b before IH]; intros args noskip args' noskip' Hops Hne Hm Hafter.
  - cbn [app] in Hops.
    apply decode_ops_cons in Hops
      as [[-> _] | (_ & s1 & rest & key' & c' & v & Hsp & Hm' & Hc & Hd)];
      [congruence|].
    rewrite Hm in Hm'. injection Hm' as <- <-.
    exists s1, rest, v. split; [exact Hsp|]. split; [exact Hc|].
    rewrite (decode_ops_keeps _ key _ _ _ _ Hd); [apply lookup_insert_eq|].
    intros op' key' c' Hin Hne' Hm' Hk. subst key'.
    apply (Hafter op' Hin Hne').
    exact (proj1 (args_map_key_inj _ _ _ _ _ _ Hm' Hm) eq_refl).
  - cbn [app] in Hops.
    apply decode_ops_cons in Hops
      as [[-> Hd] | (_ & s1 & rest & key' & c' & v & _ & _ & _ & Hd)];
      exact (IH _ _ _ _ Hd Hne Hm Hafter).
Qed.

(** X10: when a key occurs in several tokens of a stage string, the last
    one counts: the value stored under an argument is the cast of the text
    that follows the key in the last token carrying that key. *)
Theorem decode_str_def_last_wins (stage_str : string) (args : gmap string pyval)
    (before after : list string) (op key : string) (c : cast) :
  EfficientNet._decode_str_def stage_str = Ok args ->
  tl (split "_" stage_str) = before ++ op :: after ->
  op <> "noskip" -> args_map !! token_key op = Some (key, c) ->
  (forall op', op' ∈ after -> op' <> "noskip" -> token_key op' <> token_key op) ->
  exists s1 rest v,
    re_split_digits op = token_key op :: s1 :: rest /\
    apply_cast c s1 = Ok v /\ args !! key = Some v.
Proof.
  unfold EfficientNet._decode_str_def. intros Hd Hsplit Hne Hm Hafter.
  apply bind_ok in Hd as ([args' ns] & Hops & Hd).
  apply bind_ok in Hd as (_ & _ & Hd). injection Hd as <-.
  rewrite Hsplit in Hops.
  destruct (decode_ops_last _ _ _ _ _ _ _ _ _ Hops Hne Hm Hafter)
    as (s1 & rest & v & Hsp & Hc & Hv).
  exists s1, rest, v. split; [exact Hsp|]. split; [exact Hc|].
  rewrite lookup_insert_ne; [exact Hv|].
  apply args_map_cases in Hm.
  repeat (apply elem_of_cons in Hm as [Hm | Hm];
          [injection Hm as _ -> _; discriminate|]).
  apply elem_of_nil in Hm. contradiction.
Qed.

End DecoderExtras.

Lemma decode_str_def_digit_free_witness :
  fails (@EfficientNet._decode_str_def decimal_env "ir_r2__k3").
Proof.
  apply (@decode_str_def_digit_free decimal_env). exists "".
  split; [cbn; set_solver|]. split; [discriminate | reflexivity].
Defined.

Lemma decode_str_def_typed_witness :
  exists args, @EfficientNet._decode_str_def decimal_env "ir_r2_k3_se0.25" = Ok args /\
               spec_value_ok "se_ratio" (VFloat (1 # 4)).
Proof.
  assert (E : (args <- @EfficientNet._decode_str_def decimal_env "ir_r2_k3_se0.25" ;;
               Ok (args !! "se_ratio")) = Ok (Some (VFloat (1 # 4))))
    by (vm_compute; reflexivity).
  apply bind_ok in E as (args & E & Hl). injection Hl as Hl.
  exists args. split; [exact E|].
  exact (@decode_str_def_typed decimal_env _ _ E _ _ Hl).
Defined.

Lemma decode_str_def_flags_witness :
  exists args, @EfficientNet._decode_str_def decimal_env "er_r1_k3_noskip" = Ok args /\
               args !! "noskip" = Some (VBool true).
Proof.
  assert (E : (args <- @EfficientNet._decode_str_def decimal_env "er_r1_k3_noskip" ;;
               Ok (args !! "noskip")) = Ok (Some (VBool true)))
    by (vm_compute; reflexivity).
  apply bind_ok in E as (args & E & _).
  exists args. split; [exact E|].
  exact (proj2 (@decode_str_def_flags decimal_env _ _ E)).
Defined.

Lemma decode_str_def_last_wins_witness :
  exists args, @EfficientNet._decode_str_def decimal_env "ir_r2_k3_r5" = Ok args /\
               args !! "repeat" = Some (VInt 5).
Proof.
  assert (E : (args <- @EfficientNet._decode_str_def decimal_env "ir_r2_k3_r5" ;;
               Ok tt) = Ok tt)
    by (vm_compute; reflexivity).
  apply bind_ok in E as (args & E & _).
  exists args. split; [exact E|].
  destruct (@decode_str_def_last_wins decimal_env "ir_r2_k3_r5" args
              ["r2"; "k3"] [] "r5" "repeat" CastInt E)
    as (s1 & rest & v & Hsp & Hc & Hv).
  - reflexivity.
  - discriminate.
  - reflexivity.
  - intros op' Hin. apply elem_of_nil in Hin. contradiction.
  - vm_compute in Hsp. injection Hsp as <- _. vm_compute in Hc. injection Hc as <-.
    exact Hv.
Defined.

(** ** More on the depth scaler *)

(** X11: under a depth multiplier of 1 the depth scaler returns the repeat
    counts it was given (adding up to less than 2^46), so every block
    specification is repeated as many times as its stage string declares. *)
Theorem depth_scaler_unit (ap : arch_params) (stage_args : list (gmap string pyval))
    (repeats : list Z) :
  (depth_multiplier ap == 1)%Q -> Forall (fun r => 1 <= r) repeats ->
  sum_Z repeats < 2 ^ 46 ->
  repeats_scaled (depth_multiplier ap) repeats = Ok repeats /\
  EfficientNet._scale_stage_depth ap stage_args repeats
    = Ok (expand_repeats stage_args repeats).
Proof.
  intros Hd Hall HN.
  assert (E : repeats_scaled (depth_multiplier ap) repeats = Ok repeats).
  { destruct repeats as [|r0 rest]; [vm_compute; reflexivity|].
    pose proof (sum_Z_ge_length _ Hall) as Hlen.
    assert (Ex : (inject_Z (sum_Z (r0 :: rest)) * depth_multiplier ap
                  == inject_Z (sum_Z (r0 :: rest)))%Q) by (rewrite Hd; ring).
    assert (Hx : (Qabs (inject_Z (sum_Z (r0 :: rest)) * depth_multiplier ap) < 2 ^ 46)%Q).
    { rewrite Ex. rewrite Qabs_inject_Z. apply inject_Z_lt_pow2; lia. }
    destruct (repeats_scaled_spec (depth_multiplier ap) (r0 :: rest)
                ltac:(discriminate) Hall HN Hx)
      as (total & l & Ht & Hl & _ & _ & _ & _ & Hunit & _).
    destruct (num_repeat_scaled_spec (depth_multiplier ap) (r0 :: rest) ltac:(lia) Hx)
      as (total' & Ht' & _ & _ & Hint & _).
    rewrite Ht in Ht'. injection Ht' as <-.
    rewrite Hl. f_equal. apply Hunit. symmetry. apply Hint. exact Ex. }
  split; [exact E|]. unfold EfficientNet._scale_stage_depth. rewrite E. reflexivity.
Qed.

Lemma depth_scaler_unit_witness :
  repeats_scaled (depth_multiplier unit_arch) [2; 3; 4] = Ok [2; 3; 4].
Proof.
  apply (proj1 (depth_scaler_unit unit_arch [] [2; 3; 4] ltac:(reflexivity)
                  ltac:(repeat constructor; lia) ltac:(vm_compute; reflexivity))).
Defined.

(** X12: for repeat counts that are all at least 1 and add up to less than
    2^46, and any depth multiplier whose product with that sum is below
    2^46 in magnitude, the depth scaler returns without error, and the
    scaled counts add up to at least the scaled total the code computes
    (which is at least ceil((r_1+...+r_n) * d) - 1) and to at least the
    number of substages: scaling never gives less depth than the total it
    aims at. *)
Theorem depth_scaler_covers (d : Q) (repeats : list Z) :
  repeats <> [] -> Forall (fun r => 1 <= r) repeats ->
  sum_Z repeats < 2 ^ 46 ->
  (Qabs (inject_Z (sum_Z repeats) * d) < 2 ^ 46)%Q ->
  exists total l,
    num_repeat_scaled d repeats = Ok total /\
    repeats_scaled d repeats = Ok l /\
    total <= sum_Z l /\
    Qceiling (inject_Z (sum_Z repeats) * d)%Q - 1 <= sum_Z l /\
    Z.of_nat (length repeats) <= sum_Z l.
Proof.
  intros Hne Hall HN Hx.
  pose proof (sum_Z_ge_length repeats Hall) as Hlen.
  destruct (repeats_scaled_spec d repeats Hne Hall HN Hx)
    as (total & l & Ht & Hl & Hlen' & Hl1 & Hcov & _).
  destruct (num_repeat_scaled_spec d repeats ltac:(lia) Hx)
    as (total' & Ht' & _ & [Hnear _] & _).
  rewrite Ht in Ht'. injection Ht' as <-.
  exists total, l. split; [exact Ht|]. split; [exact Hl|]. split; [exact Hcov|].
  split; [lia|]. rewrite <- Hlen'. apply sum_Z_ge_length. exact Hl1.
Qed.

Lemma depth_scaler_covers_witness :
  exists l, repeats_scaled (1 # 2) [1; 3] = Ok l /\ 2 <= sum_Z l.
Proof.
  destruct (depth_scaler_covers (1 # 2) [1; 3]) as (total & l & Ht & Hl & Hc & _).
  - discriminate.
  - repeat constructor; lia.
  - vm_compute. reflexivity.
  - vm_compute. reflexivity.
  - exists l. split; [exact Hl|]. vm_compute in Ht. injection Ht as <-. exact Hc.
Defined.

(** X13: a non-empty stage whose repeat counts add up to 0, such as a
    single stage string with [r0], makes the depth scaler divide by zero. *)
Theorem depth_scaler_zero_total (d : Q) (repeats : list Z) :
  repeats <> [] -> sum_Z repeats = 0 ->
  repeats_scaled d repeats = Raise ZeroDivisionError.
Proof.
  intros Hne Hz. unfold repeats_scaled, num_repeat_scaled. rewrite Hz.
  rewrite (float_of_int_small 0) by (cbn; lia). cbn [bind]. unfold float_mul.
  assert (E : (inject_Z 0 * d == 0)%Q) by ring.
  rewrite (round64_0 _ E). cbn [math_ceil bind].
  destruct (rev repeats) as [|r rs] eqn:Er.
  - apply (f_equal (@length Z)) in Er. rewrite length_rev in Er.
    destruct repeats; [congruence | discriminate].
  - reflexivity.
Qed.

Lemma depth_scaler_zero_total_witness :
  repeats_scaled (11 # 10) [0] = Raise ZeroDivisionError.
Proof. apply depth_scaler_zero_total; [discriminate | reflexivity]. Defined.

(** ** More on the network assembler *)

Lemma bind_kwargs_keys (keys : list string) (kw : gmap string pyval) (a : block_args) :
  bind_kwargs keys kw = Ok a ->
  (forall k, is_Some (kw !! k) -> k ∈ keys) /\
  kw_int kw "kernel_size" (Ok 3) = Ok (a_kernel_size a).
Proof.
  unfold bind_kwargs. intros Hb.
  bind_inv Hb. rename E into Ekeys.
  do 12 bind_inv Hb. injection Hb as <-. cbn. split; [|assumption].
  intros k [v Hk].
  destruct (forallb _ _) eqn:Ef in Ekeys; [|discriminate].
  rewrite forallb_forall in Ef.
  specialize (Ef k). rewrite <- list_elem_of_In in Ef.
  assert (Hin : k ∈ map fst (map_to_list kw)).
  { apply list_elem_of_fmap. exists (k, v). split; [reflexivity|].
    apply elem_of_map_to_list. exact Hk. }
  specialize (Ef Hin). apply existsb_exists in Ef as (k' & Hk' & Heq).
  apply String.eqb_eq in Heq. subst k'. apply list_elem_of_In. exact Hk'.
Qed.

Lemma kernel_ok_cases (k : Z) : kernel_ok k = true -> k = 3 \/ k = 5.
Proof. unfold kernel_ok. rewrite orb_true_iff, !Z.eqb_eq. tauto. Qed.

Section AssemblerExtras.
Context `{External}.

(** What a successful constructor call tells about its keyword arguments. *)
Lemma construct_requires (block_type : string) (kw : gmap string pyval) (b : block) :
  construct block_type kw = Ok b ->
  (block_type = "er" \/
   ((block_type = "ds" \/ block_type = "ir") /\ kw !! "mid_channel" = None)) /\
  (kw !! "kernel_size" = None \/ kw !! "kernel_size" = Some (VInt 3) \/
   kw !! "kernel_size" = Some (VInt 5)).
Proof.
  unfold construct. intros Hc.
  assert (Hkernel : forall keys a,
             bind_kwargs keys kw = Ok a -> kernel_ok (a_kernel_size a) = true ->
             kw !! "kernel_size" = None \/ kw !! "kernel_size" = Some (VInt 3) \/
             kw !! "kernel_size" = Some (VInt 5)).
  { intros keys a Hb Hk. apply bind_kwargs_keys in Hb as [_ Hb].
    apply kernel_ok_cases in Hk. unfold kw_int in Hb.
    destruct (kw !! "kernel_size") as [[]|]; try discriminate; [|auto].
    injection Hb as ->. destruct Hk as [-> | ->]; auto. }
  assert (Hmid : forall a, bind_kwargs block_keys kw = Ok a -> kw !! "mid_channel" = None).
  { intros a Hb. apply bind_kwargs_keys in Hb as [Hb _].
    destruct (kw !! "mid_channel") eqn:E; [|reflexivity].
    specialize (Hb "mid_channel" ltac:(rewrite E; eauto)).
    unfold block_keys in Hb.
    repeat (apply elem_of_cons in Hb as [Hb | Hb]; [discriminate|]).
    apply elem_of_nil in Hb. contradiction. }
  destruct (String.eqb_spec block_type "ds") as [->|_];
    [|destruct (String.eqb_spec block_type "ir") as [->|_];
      [|destruct (String.eqb_spec block_type "er") as [->|_]; [|discriminate]]];
    bind_inv Hc; bind_inv Hc; clear Hc;
    match goal with
    | Ei : _ = Ok ?blk |- _ =>
        unfold DepthwiseSeparableConv.init, InvertedResidualBlock.init,
          EdgeResidual.init in Ei;
        bind_inv Ei; clear Ei
    end;
    match goal with
    | Ea : py_assert ?c = Ok _ |- _ =>
        assert (Hk : c = true) by (destruct c; [reflexivity | discriminate])
    end;
    (split; [|eapply Hkernel; eassumption]); eauto 6.
Qed.

Variable ap : arch_params.
Variable gp : global_params.

(** More of what one call of [_make_layer] tells. *)
Lemma make_layer_requires (total : Z) (st st' : EfficientNet.build_state)
    (args : gmap string pyval) (b : block) :
  EfficientNet._make_layer ap gp total st args = Ok (b, st') ->
  total <> 0 /\
  block_drop_path b = make_drop_path (EfficientNet.drop_rate gp total st) /\
  (exists bt, args !! "block_type" = Some (VStr bt) /\
              (bt = "er" \/ ((bt = "ds" \/ bt = "ir") /\ args !! "mid_channel" = None))) /\
  (args !! "kernel_size" = None \/ args !! "kernel_size" = Some (VInt 3) \/
   args !! "kernel_size" = Some (VInt 5)).
Proof.
  unfold EfficientNet._make_layer. intros Hm.
  bind_inv Hm. destruct (Z.eqb_spec total 0) as [|Hne]; [discriminate|]. clear E.
  bind_inv Hm. clear E.
  bind_inv Hm. rename E into Emid. bind_inv Hm. rename E into Ebt. bind_inv Hm.
  rename E into Ec. injection Hm as <- <-.
  split; [exact Hne|].
  assert (Hbase : forall k, k <> "mid_channel" -> k <> "in_channel" ->
                            k <> "out_channel" -> k <> "drop_path_rate" ->
                            k <> "pad_type" -> k <> "norm_kwargs" -> k <> "act_layer" ->
                            a1 !! k = args !! k).
  { intros k ? ? ? ? ? ? ?. rewrite (mid_channel_step _ _ _ _ Emid) by assumption.
    repeat (rewrite lookup_insert_ne by congruence). reflexivity. }
  assert (Hmid : a1 !! "mid_channel" = None -> args !! "mid_channel" = None).
  { intros Hn. revert Emid.
    match goal with
    | |- match ?base !! _ with _ => _ end = _ -> _ =>
        destruct (base !! "mid_channel") as [[]|] eqn:Eb; try discriminate;
        intros Emid; injection Emid as <-
    end.
    - rewrite lookup_insert_eq in Hn. discriminate.
    - repeat (rewrite lookup_insert_ne in Eb by discriminate). exact Eb. }
  pose proof Ec as Ec'.
  apply construct_ok in Ec' as (keys & ba & Hb & _ & _ & _ & Hdp).
  apply bind_kwargs_ok in Hb as (_ & _ & _ & Hrate).
  unfold kw_float in Hrate. rewrite lookup_delete_ne in Hrate by discriminate.
  rewrite (mid_channel_step _ _ _ _ Emid) in Hrate by discriminate.
  repeat (rewrite lookup_insert_ne in Hrate by discriminate).
  rewrite lookup_insert_eq in Hrate. injection Hrate as Hrate. rewrite <- Hrate in Hdp.
  apply construct_requires in Ec as [Hbt Hk].
  rewrite lookup_delete_ne in Hbt, Hk by discriminate.
  rewrite Hbase in Hk by discriminate. rewrite Hbase in Ebt by discriminate.
  destruct (args !! "block_type") as [[]|] eqn:Eb; try discriminate.
  injection Ebt as ->.
  split; [exact Hdp|]. split; [|exact Hk].
  exists a2. split; [reflexivity|].
  destruct Hbt as [-> | [Hbt Hnone]]; [auto|]. right. split; [exact Hbt|].
  apply Hmid. exact Hnone.
Qed.


Lemma buildable_insert_stride (args : gmap string pyval) (s : Z) :
  args !! "stride" = Some (VInt s) -> s = 1 \/ s = 2 ->
  forall args' : gmap string pyval,
    (forall k, k <> "stride" -> args' !! k = args !! k) ->
    (exists c, args' !! "out_channel" = Some (VInt c)) ->
    (exists bt, args' !! "block_type" = Some (VStr bt) /\
                (bt = "er" \/ ((bt = "ds" \/ bt = "ir") /\ args' !! "mid_channel" = None))) ->
    (args' !! "kernel_size" = None \/ args' !! "kernel_size" = Some (VInt 3) \/
     args' !! "kernel_size" = Some (VInt 5)) ->
    buildable args.
Proof.
  intros Hs Hs12 args' Hsame [c Hc] (bt & Hbt & Hmid) Hk. unfold buildable.
  rewrite Hsame in Hc, Hbt by discriminate.
  rewrite !(Hsame "kernel_size") in Hk by discriminate.
  rewrite (Hsame "mid_channel") in Hmid by discriminate.
  split; [eauto|]. split; [eauto|]. split; [eauto | exact Hk].
Qed.

Lemma make_stage_requires (total : Z) (stage_args : list (gmap string pyval)) :
  forall idx st stage st',
    0 <= idx ->
    EfficientNet.make_stage ap gp total idx stage_args st = Ok (stage, st') ->
    Forall buildable stage_args /\
    length stage = length stage_args /\
    EfficientNet.st_layer_idx st'
      = EfficientNet.st_layer_idx st + Z.of_nat (length stage) /\
    (forall j b,
        stage !! j = Some b ->
        total <> 0 /\
        block_drop_path b
          = make_drop_path (drop_path_rate gp
                            * inject_Z (EfficientNet.st_layer_idx st + Z.of_nat j)
                            / inject_Z total)%Q /\
        (block_stride b = 1 \/ block_stride b = 2)).
Proof.
  induction stage_args as [|args rest IH]; intros idx st stage st' Hidx Hm.
  - cbn in Hm. injection Hm as <- <-.
    split; [constructor|]. split; [reflexivity|]. split; [cbn; lia|].
    intros j b Hj. rewrite lookup_nil in Hj. discriminate.
  - cbn [EfficientNet.make_stage] in Hm.
    bind_inv Hm. rename a into s, E into Es. apply kw_int_some in Es.
    bind_inv Hm. rename E into Eassert.
    assert (Hs12 : s = 1 \/ s = 2).
    { destruct (Z.eqb_spec s 1); [auto|]. destruct (Z.eqb_spec s 2); [auto|].
      discriminate. }
    bind_inv Hm. destruct a0 as [layer st1]. rename E into El.
    bind_inv Hm. destruct a0 as [stage1 st2]. injection Hm as <- <-.
    pose proof (make_layer_requires _ _ _ _ _ El) as (Hne & Hdp & Hbt & Hk).
    apply make_layer_ok in El as (_ & _ & (c & Hc & _) & Hstr & _ & Hidx1 & _).
    apply IH in E as (Hall & Hlen & Hidx2 & Hblocks); [|lia].
    split; [|split; [|split]].
    + constructor; [|exact Hall].
      eapply (buildable_insert_stride args s Es Hs12); [| eauto | exact Hbt | exact Hk].
      intros k Hk'. destruct (0 <? idx); [|reflexivity].
      apply lookup_insert_ne. congruence.
    + cbn. rewrite Hlen. reflexivity.
    + rewrite Hidx2, Hidx1. cbn [length]. lia.
    + intros [|j] b Hb; cbn in Hb.
      * injection Hb as <-. split; [exact Hne|]. split.
        -- rewrite Hdp. unfold EfficientNet.drop_rate. rewrite Z.add_0_r. reflexivity.
        -- destruct (0 <? idx).
           ++ left. apply Hstr. apply lookup_insert_eq.
           ++ rewrite (Hstr s Es). exact Hs12.
      * destruct (Hblocks j b Hb) as (Hne' & Hdp' & Hs'). split; [exact Hne'|].
        split; [|exact Hs']. rewrite Hdp', Hidx1.
        replace (EfficientNet.st_layer_idx st + 1 + Z.of_nat j)
          with (EfficientNet.st_layer_idx st + Z.of_nat (S j)) by lia.
        reflexivity.
Qed.

Lemma chained_app (l1 l2 : list block) :
  forall a b c, chained a l1 b -> chained b l2 c -> chained a (l1 ++ l2) c.
Proof.
  induction l1 as [|x l1 IH]; intros a b c H1 H2.
  - cbn in H1. subst b. exact H2.
  - destruct H1 as [Hx H1]. split; [exact Hx|]. exact (IH _ _ _ H1 H2).
Qed.

Lemma make_stages_requires (total : Z) (blocks_args : list (list (gmap string pyval))) :
  forall st blocks st',
    EfficientNet.make_stages ap gp total blocks_args st = Ok (blocks, st') ->
    Forall (Forall buildable) blocks_args /\
    Z.of_nat (length (concat blocks)) = EfficientNet.count_layers blocks_args /\
    EfficientNet.st_layer_idx st'
      = EfficientNet.st_layer_idx st + Z.of_nat (length (concat blocks)) /\
    chained (EfficientNet.st_in_channel st) (concat blocks)
      (EfficientNet.st_in_channel st') /\
    (forall i b,
        concat blocks !! i = Some b ->
        total <> 0 /\
        block_drop_path b
          = make_drop_path (drop_path_rate gp
                            * inject_Z (EfficientNet.st_layer_idx st + Z.of_nat i)
                            / inject_Z total)%Q /\
        (block_stride b = 1 \/ block_stride b = 2)).
Proof.
  induction blocks_args as [|stage_args rest IH]; intros st blocks st' Hm.
  - cbn in Hm. injection Hm as <- <-.
    split; [constructor|]. split; [reflexivity|]. split; [cbn; lia|].
    split; [reflexivity|].
    intros i b Hi. cbn in Hi. rewrite lookup_nil in Hi. discriminate.
  - cbn [EfficientNet.make_stages] in Hm.
    bind_inv Hm. destruct a as [stage st1]. rename E into Es.
    bind_inv Hm. destruct a as [blocks1 st2]. injection Hm as <- <-.
    pose proof (make_stage_requires _ _ 0 _ _ _ ltac:(lia) Es)
      as (Hall & Hlen & Hidx & Hblocks).
    apply make_stage_ok in Es as (_ & Hch & _ & _); [|lia].
    apply IH in E as (Hrest & Hcount & Hidx' & Hch' & Hblocks'). cbn in Hidx', Hch', Hblocks'.
    cbn [concat]. rewrite length_app.
    split; [constructor; assumption|]. split; [|split; [|split]].
    + unfold EfficientNet.count_layers in *. cbn [map]. unfold sum_Z in *.
      cbn [fold_right]. rewrite <- Hcount, <- Hlen. lia.
    + rewrite Hidx', Hidx. lia.
    + exact (chained_app _ _ _ _ _ Hch Hch').
    + intros i b Hi. apply lookup_app_Some in Hi as [Hi1 | [Hge Hi2]].
      * exact (Hblocks i b Hi1).
      * destruct (Hblocks' _ b Hi2) as (Hne & Hdp & Hs). split; [exact Hne|].
        split; [|exact Hs]. rewrite Hdp, Hidx.
        replace (EfficientNet.st_layer_idx st + Z.of_nat (length stage)
                 + Z.of_nat (i - length stage))
          with (EfficientNet.st_layer_idx st + Z.of_nat i) by lia.
        reflexivity.
Qed.


(** More of the structure [__init__] leaves behind. *)
Lemma init_requires (block_def : list (list string)) (num_classes in_channel stem_size : Z)
    (fix_stem : bool) (num_features : option Z) (fix_first_last : bool)
    (net : EfficientNet.t) :
  EfficientNet.init ap gp block_def num_classes in_channel stem_size fix_stem
    num_features fix_first_last = Ok net ->
  let stem := if negb fix_stem then EfficientNet._round_channel ap gp stem_size
              else stem_size in
  exists blocks_args,
    Forall2 stage_decoded block_def blocks_args /\
    Forall (Forall buildable) blocks_args /\
    EfficientNet.total_layers net
      = Z.of_nat (length (concat (EfficientNet.blocks net))) /\
    EfficientNet.layer_idx net = EfficientNet.total_layers net /\
    chained stem (concat (EfficientNet.blocks net)) (EfficientNet.in_channel net) /\
    in_channels (EfficientNet.conv_stem net) = in_channel /\
    out_channels_ (EfficientNet.conv_stem net) = stem /\
    in_channels (EfficientNet.conv_head net) = EfficientNet.in_channel net /\
    out_channels_ (EfficientNet.conv_head net) = EfficientNet.num_features net /\
    EfficientNet.classifier net = Linear (EfficientNet.num_features net) num_classes /\
    (forall i b,
        concat (EfficientNet.blocks net) !! i = Some b ->
        EfficientNet.total_layers net <> 0 /\
        block_drop_path b
          = make_drop_path (drop_path_rate gp * inject_Z (Z.of_nat i)
                            / inject_Z (EfficientNet.total_layers net))%Q /\
        (block_stride b = 1 \/ block_stride b = 2)).
Proof.
  intros Hi stem. revert Hi.
  unfold EfficientNet.init, EfficientNet._make_blocks, EfficientNet._decode_block_def.
  intros Hi. bind_inv Hi. destruct a as [[blocks total] st].
  bind_inv E. rename a into blocks_args. bind_inv E. destruct a as [blocks' st'].
  injection E as -> <- ->. injection Hi as <-. cbn.
  apply decode_stages_ok in E0.
  apply make_stages_requires in E1 as (Hall & Hcount & Hidx & Hch & Hblocks).
  cbn in Hidx, Hch, Hblocks.
  exists blocks_args.
  repeat (split; [first [assumption | apply create_conv2d_channels | lia
                        | symmetry; assumption | reflexivity]|]).
  exact Hblocks.
Qed.

Lemma Qgtb_true (x y : Q) : Qgtb x y = true <-> (y < x)%Q.
Proof.
  unfold Qgtb. rewrite negb_true_iff. split.
  - intros Hb. apply Qnot_le_lt. intros Hle. apply Qle_bool_iff in Hle. congruence.
  - intros Hlt. destruct (Qle_bool x y) eqn:E; [|reflexivity].
    apply Qle_bool_iff in E. apply Qlt_not_le in Hlt. contradiction.
Qed.

Lemma make_drop_path_cases (q : Q) :
  (make_drop_path q = Identity /\ (q <= 0)%Q) \/
  (make_drop_path q = DropPath q /\ (0 < q)%Q).
Proof.
  unfold make_drop_path. destruct (Qgtb q 0) eqn:E.
  - right. split; [reflexivity|]. apply Qgtb_true. exact E.
  - left. split; [reflexivity|]. apply Qnot_lt_le. intros Hlt.
    apply Qgtb_true in Hlt. congruence.
Qed.

(** X14: when [__init__] returns, [total_layers] is the number of blocks
    that were built, over all stages, and the running [layer_idx] has
    reached it. *)
Theorem layer_count (block_def : list (list string))
    (num_classes in_channel stem_size : Z) (fix_stem : bool)
    (num_features : option Z) (fix_first_last : bool) (net : EfficientNet.t) :
  EfficientNet.init ap gp block_def num_classes in_channel stem_size fix_stem
    num_features fix_first_last = Ok net ->
  EfficientNet.total_layers net
    = Z.of_nat (length (concat (EfficientNet.blocks net))) /\
  EfficientNet.layer_idx net = EfficientNet.total_layers net.
Proof.
  intros Hi. destruct (init_requires _ _ _ _ _ _ _ _ Hi) as (ba & _ & _ & Ht & Hl & _).
  auto.
Qed.


(** X16: the channel counts of a built network fit together from the stem
    to the head: the stem produces the stem size, every block, across stage
    boundaries too, takes what the block before it produces (the first one
    what the stem produces), the head convolution takes what the last block
    produces and gives [num_features], which the classifier takes. *)
Theorem channel_flow (block_def : list (list string))
    (num_classes in_channel stem_size : Z) (fix_stem : bool)
    (num_features : option Z) (fix_first_last : bool) (net : EfficientNet.t) :
  EfficientNet.init ap gp block_def num_classes in_channel stem_size fix_stem
    num_features fix_first_last = Ok net ->
  in_channels (EfficientNet.conv_stem net) = in_channel /\
  chained (out_channels_ (EfficientNet.conv_stem net))
    (concat (EfficientNet.blocks net)) (in_channels (EfficientNet.conv_head net)) /\
  EfficientNet.classifier net
    = Linear (out_channels_ (EfficientNet.conv_head net)) num_classes.
Proof.
  intros Hi.
  destruct (init_requires _ _ _ _ _ _ _ _ Hi)
    as (ba & _ & _ & _ & _ & Hch & Hsi & Hso & Hhi & Hho & Hcl & _).
  rewrite Hso, Hhi, Hho. auto.
Qed.

(** X17: every block of a built network has stride 1 or 2. *)
Theorem block_strides (block_def : list (list string))
    (num_classes in_channel stem_size : Z) (fix_stem : bool)
    (num_features : option Z) (fix_first_last : bool) (net : EfficientNet.t) :
  EfficientNet.init ap gp block_def num_classes in_channel stem_size fix_stem
    num_features fix_first_last = Ok net ->
  forall stage b, stage ∈ EfficientNet.blocks net -> b ∈ stage ->
                  block_stride b = 1 \/ block_stride b = 2.
Proof.
  intros Hi stage b Hstage Hb.
  destruct (init_requires _ _ _ _ _ _ _ _ Hi) as (ba & _ & _ & _ & _ & _ & _ & _ & _ & _ & _ & Hblocks).
  assert (Hin : b ∈ concat (EfficientNet.blocks net)).
  { apply list_elem_of_In, in_concat. exists stage.
    split; apply list_elem_of_In; assumption. }
  apply list_elem_of_lookup in Hin as [i Hi'].
  exact (proj2 (proj2 (Hblocks i b Hi'))).
Qed.


Lemma expand_repeats_mem {A : Type} (l : list A) :
  forall reps x, length reps = length l -> Forall (fun r => 1 <= r) reps ->
                 x ∈ l -> x ∈ expand_repeats l reps.
Proof.
  induction l as [|y l IH]; intros [|r reps] x Hlen Hall Hx; try discriminate.
  - apply elem_of_nil in Hx. contradiction.
  - apply Forall_cons_1 in Hall as [Hr Hall]. cbn [expand_repeats].
    apply elem_of_app. apply elem_of_cons in Hx as [-> | Hx].
    + left. apply elem_of_replicate. split; [reflexivity | lia].
    + right. apply IH; [cbn in Hlen; lia | exact Hall | exact Hx].
Qed.

Lemma buildable_delete_repeat (args : gmap string pyval) :
  buildable (delete "repeat" args) -> buildable args.
Proof.
  unfold buildable. rewrite !lookup_delete_ne by discriminate.
  intros (Hs & Hc & (bt & Hbt & Hmid) & Hk).
  rewrite ?lookup_delete_ne in Hbt, Hmid by discriminate.
  split; [exact Hs|]. split; [exact Hc|]. split; [|exact Hk].
  exists bt. split; [exact Hbt | exact Hmid].
Qed.

(** X18: [__init__] returns only if every stage string of the block
    definition decodes and the decoded specification is [buildable]: it
    gives a stride of 1 or 2 and an output channel count, its block type is
    [ds], [ir] or [er], it gives a [mid_channel] only for [er], and its
    kernel size, if given, is 3 or 5. *)
Theorem init_validates (block_def : list (list string))
    (num_classes in_channel stem_size : Z) (fix_stem : bool)
    (num_features : option Z) (fix_first_last : bool) (net : EfficientNet.t) :
  EfficientNet.init ap gp block_def num_classes in_channel stem_size fix_stem
    num_features fix_first_last = Ok net ->
  forall strs s, strs ∈ block_def -> s ∈ strs ->
                 exists args, EfficientNet._decode_str_def s = Ok args /\ buildable args.
Proof.
  intros Hi strs s Hstrs Hs.
  destruct (init_requires _ _ _ _ _ _ _ _ Hi) as (ba & Hdec & Hall & _).
  apply list_elem_of_lookup in Hstrs as [i Hstrs].
  destruct (Forall2_lookup_l _ _ _ _ _ Hdec Hstrs) as (stage_args & Hsa & Hsd).
  assert (Hb : Forall buildable stage_args).
  { rewrite Forall_forall in Hall. apply Hall.
    eapply list_elem_of_lookup_2. exact Hsa. }
  destruct Hsd as (decoded & reps & Hm & Hlen & Hreps & ->).
  apply mapM_ok in Hm.
  apply list_elem_of_lookup in Hs as [j Hs].
  destruct (Forall2_lookup_l _ _ _ _ _ Hm Hs) as (args & Hargs & Hok).
  exists args. split; [exact Hok|]. apply buildable_delete_repeat.
  rewrite Forall_forall in Hb. apply Hb.
  apply expand_repeats_mem; [rewrite length_map; exact Hlen | exact Hreps|].
  apply list_elem_of_fmap. exists args. split; [reflexivity|].
  eapply list_elem_of_lookup_2. exact Hargs.
Qed.

(** X19: a [mid_channel] argument makes the constructor call of a [ds] or
    [ir] block a [TypeError] (only [er] blocks take one), and a block type
    other than [ds], [ir] and [er] is a [KeyError]. *)
Theorem construct_errors (block_type : string) (kw : gmap string pyval) :
  (block_type = "ds" \/ block_type = "ir" -> is_Some (kw !! "mid_channel") ->
   construct block_type kw = Raise TypeError) /\
  (block_type <> "ds" -> block_type <> "ir" -> block_type <> "er" ->
   construct block_type kw = Raise KeyError).
Proof.
  split.
  - intros Hbt Hmid.
    assert (E : bind_kwargs block_keys kw = Raise TypeError).
    { unfold bind_kwargs.
      destruct (forallb _ _) eqn:Ef; [exfalso | reflexivity].
      rewrite forallb_forall in Ef. destruct Hmid as [v Hv].
      specialize (Ef "mid_channel"). rewrite <- list_elem_of_In in Ef.
      assert (Hin : "mid_channel" ∈ map fst (map_to_list kw)).
      { apply list_elem_of_fmap. exists ("mid_channel", v). split; [reflexivity|].
        apply elem_of_map_to_list. exact Hv. }
      specialize (Ef Hin). vm_compute in Ef. discriminate. }
    unfold construct. destruct Hbt as [-> | ->]; cbn [String.eqb Ascii.eqb Bool.eqb];
      rewrite E; reflexivity.
  - intros H1 H2 H3. unfold construct.
    destruct (String.eqb_spec block_type "ds"); [contradiction|].
    destruct (String.eqb_spec block_type "ir"); [contradiction|].
    destruct (String.eqb_spec block_type "er"); [contradiction|]. reflexivity.
Qed.

End AssemblerExtras.

Lemma repeated_ends_builds :
  exists net,
    @EfficientNet.init decimal_env unit_arch lite_params repeated_ends_def
      1000 3 32 false None false = Ok net.
Proof.
  destruct (@EfficientNet.init decimal_env unit_arch lite_params repeated_ends_def
              1000 3 32 false None false) as [net|e] eqn:E;
    [|vm_compute in E; discriminate].
  exists net. reflexivity.
Qed.

Lemma layer_count_witness :
  exists net,
    @EfficientNet.init decimal_env unit_arch lite_params repeated_ends_def
      1000 3 32 false None false = Ok net /\
    EfficientNet.layer_idx net = EfficientNet.total_layers net.
Proof.
  destruct repeated_ends_builds as [net E]. exists net. split; [exact E|].
  exact (proj2 (@layer_count decimal_env _ _ _ _ _ _ _ _ _ _ E)).
Defined.


Lemma channel_flow_witness :
  exists net,
    @EfficientNet.init decimal_env unit_arch lite_params repeated_ends_def
      1000 3 32 false None false = Ok net /\
    in_channels (EfficientNet.conv_stem net) = 3.
Proof.
  destruct repeated_ends_builds as [net E]. exists net. split; [exact E|].
  exact (proj1 (@channel_flow decimal_env _ _ _ _ _ _ _ _ _ _ E)).
Defined.

Lemma block_strides_witness :
  exists net,
    @EfficientNet.init decimal_env unit_arch lite_params repeated_ends_def
      1000 3 32 false None false = Ok net /\
    forall stage b, stage ∈ EfficientNet.blocks net -> b ∈ stage ->
                    block_stride b = 1 \/ block_stride b = 2.
Proof.
  destruct repeated_ends_builds as [net E]. exists net. split; [exact E|].
  exact (@block_strides decimal_env _ _ _ _ _ _ _ _ _ _ E).
Defined.

Lemma init_validates_witness :
  exists net args,
    @EfficientNet.init decimal_env unit_arch lite_params repeated_ends_def
      1000 3 32 false None false = Ok net /\
    @EfficientNet._decode_str_def decimal_env "ir_r2_k3_s2_e6_c24" = Ok args /\
    buildable args.
Proof.
  destruct repeated_ends_builds as [net E].
  destruct (@init_validates decimal_env _ _ _ _ _ _ _ _ _ _ E
              ["ir_r2_k3_s2_e6_c24"] "ir_r2_k3_s2_e6_c24") as (args & Hd & Hb).
  - unfold repeated_ends_def. right. left.
  - left.
  - exists net, args. auto.
Defined.

Lemma construct_errors_witness :
  @construct decimal_env "ds" {[ "mid_channel" := VInt 24 ]} = Raise TypeError.
Proof.
  apply (proj1 (@construct_errors decimal_env "ds" _)); [left; reflexivity|].
  rewrite lookup_singleton_eq. eauto.
Defined.

(** ** More on the layers and on model construction *)

Lemma get_padding_same (s : string) (k st d : Z) :
  lower s = "same" ->
  get_padding (PadStr s) k st d
  = if (st =? 1) && ((d * (k - 1)) mod 2 =? 0)
    then (PadInt (((st - 1) + d * (k - 1)) / 2), false)
    else (PadInt 0, true).
Proof. intros Es. unfold get_padding. rewrite Es. reflexivity. Qed.

(** X20: a convolution created with the 'same' mode (in any case) is a
    [Conv2dSame] exactly when the stride is not 1 or the dilated kernel
    extent is odd, and then carries padding 0; otherwise it is a plain
    convolution whose padding is exactly half the dilated kernel extent.  A
    depthwise convolution has as many groups as input channels, any other
    has one. *)
Theorem create_conv2d_same (i o k st d : Z) (s : string) (bias dw : bool) :
  lower s = "same" ->
  let c := create_conv2d i o k st d (PadStr s) bias dw in
  (conv_same c = true <-> st <> 1 \/ (d * (k - 1)) mod 2 <> 0) /\
  (conv_same c = true -> conv_padding c = PadInt 0) /\
  (conv_same c = false -> exists p, conv_padding c = PadInt p /\ 2 * p = d * (k - 1)) /\
  conv_groups c = (if dw then i else 1).
Proof.
  intros Es c. unfold c, create_conv2d. rewrite (get_padding_same _ _ _ _ Es).
  destruct (Z.eqb_spec st 1) as [E1|E1];
    destruct (Z.eqb_spec ((d * (k - 1)) mod 2) 0) as [E2|E2]; cbn;
    (split; [split; [try discriminate; auto | try reflexivity; intros [?|?]; contradiction]|]);
    (split; [try discriminate; auto|]); (split; [try discriminate|reflexivity]).
  intros _. eexists. split; [reflexivity|]. subst st.
  replace (1 - 1 + d * (k - 1)) with (d * (k - 1)) by lia.
  pose proof (Z.div_mod (d * (k - 1)) 2 ltac:(lia)). lia.
Qed.

Lemma create_conv2d_same_witness :
  conv_same (create_conv2d 3 32 3 2 1 (PadStr "same") false false) = true.
Proof.
  apply (proj1 (create_conv2d_same 3 32 3 2 1 "same" false false eq_refl)).
  left. discriminate.
Defined.

Section ModelExtras.
Context `{External}.

(** X21: each of the three block constructors, called with a kernel size
    it accepts, gives the block a squeeze-excite module exactly when
    [se_ratio] is positive and a drop-path module exactly when
    [drop_path_rate] is positive; otherwise the place is taken by the
    identity. *)
Theorem optional_modules (a : block_args) :
  kernel_ok (a_kernel_size a) = true ->
  (exists b, DepthwiseSeparableConv.init a = Ok b /\
     (DepthwiseSeparableConv.se b = Identity <-> (a_se_ratio a <= 0)%Q) /\
     (DepthwiseSeparableConv.drop_path b = Identity <-> (a_drop_path_rate a <= 0)%Q)) /\
  (exists b, InvertedResidualBlock.init a = Ok b /\
     (InvertedResidualBlock.se b = Identity <-> (a_se_ratio a <= 0)%Q) /\
     (InvertedResidualBlock.drop_path b = Identity <-> (a_drop_path_rate a <= 0)%Q)) /\
  (exists b, EdgeResidual.init a = Ok b /\
     (EdgeResidual.se b = Identity <-> (a_se_ratio a <= 0)%Q) /\
     (EdgeResidual.drop_path b = Identity <-> (a_drop_path_rate a <= 0)%Q)).
Proof.
  intros Hk.
  assert (Hse : forall m : SqueezeExcite,
             (if Qgtb (a_se_ratio a) 0 then SE m else Identity) = Identity
             <-> (a_se_ratio a <= 0)%Q).
  { intros m. destruct (Qgtb (a_se_ratio a) 0) eqn:E.
    - apply Qgtb_true in E. split; [discriminate|]. intros Hle.
      apply Qlt_not_le in E. contradiction.
    - split; [|reflexivity]. intros _. apply Qnot_lt_le. intros Hlt.
      apply Qgtb_true in Hlt. congruence. }
  assert (Hdp : make_drop_path (a_drop_path_rate a) = Identity
                <-> (a_drop_path_rate a <= 0)%Q).
  { destruct (make_drop_path_cases (a_drop_path_rate a)) as [[-> Hle] | [-> Hlt]].
    - tauto.
    - split; [discriminate|]. intros Hle. apply Qlt_not_le in Hlt. contradiction. }
  unfold DepthwiseSeparableConv.init, InvertedResidualBlock.init, EdgeResidual.init.
  rewrite Hk. cbn [py_assert bind].
  repeat split; try (eexists; split; [reflexivity|]; cbn; split; [apply Hse | exact Hdp]).
Qed.

(** X22: the network [_create_model] returns has a classifier with
    [num_classes] outputs, but the last entry of its [out_channels] is
    [num_classes] only when the model is not pretrained: a pretrained model
    is built for 1000 classes, and resetting its classifier leaves
    [out_channels] as it was. *)
Theorem create_model_classes (variant : string) (block_def : list (list string))
    (gp : global_params) (ap : arch_params) (num_classes : Z)
    (o : option override_params) (pretrained progress : bool) (kw : kwargs)
    (net : EfficientNet.t) :
  _create_model variant block_def gp ap num_classes o pretrained progress kw = Ok net ->
  EfficientNet.classifier net = Linear (EfficientNet.num_features net) num_classes /\
  last (EfficientNet.out_channels net) = Some (if pretrained then 1000 else num_classes).
Proof.
  unfold _create_model. intros Hc. bind_inv Hc. rename a into model.
  pose proof (init_requires _ _ _ _ _ _ _ _ _ _ E)
    as (_ & _ & _ & _ & _ & _ & _ & _ & _ & _ & Hcl & _).
  apply init_ok in E as (_ & per & _ & _ & Hoc & _).
  assert (Hlast : last (EfficientNet.out_channels model)
                  = Some (if negb pretrained then num_classes else 1000)).
  { rewrite Hoc. rewrite app_comm_cons.
    change [EfficientNet.num_features model; if negb pretrained then num_classes else 1000]
      with ([EfficientNet.num_features model] ++ [if negb pretrained then num_classes else 1000]).
    rewrite app_assoc. apply last_snoc. }
  destruct pretrained; cbn [negb] in *.
  - bind_inv Hc. bind_inv Hc.
    destruct (Z.eqb_spec num_classes 1000) as [->|Hne]; cbn [negb] in Hc;
      injection Hc as <-; auto.
  - injection Hc as <-. auto.
Qed.

End ModelExtras.

Lemma optional_modules_witness :
  exists b, @InvertedResidualBlock.init decimal_env sample_args = Ok b /\
            InvertedResidualBlock.se b <> Identity.
Proof.
  destruct (@optional_modules decimal_env sample_args eq_refl) as (_ & (b & Hb & Hse & _) & _).
  exists b. split; [exact Hb|]. intros Hid. apply Hse in Hid.
  vm_compute in Hid. apply Hid. reflexivity.
Defined.

Lemma create_model_classes_witness :
  exists net,
    @_create_model decimal_env "efficientnet_lite0" repeated_ends_def lite_params unit_arch
      10 None true true no_kwargs = Ok net /\
    EfficientNet.classifier net = Linear (EfficientNet.num_features net) 10 /\
    last (EfficientNet.out_channels net) = Some 1000.
Proof.
  destruct (@_create_model decimal_env "efficientnet_lite0" repeated_ends_def lite_params
              unit_arch 10 None true true no_kwargs) as [net|e] eqn:E;
    [|vm_compute in E; discriminate].
  exists net. split; [reflexivity|].
  exact (@create_model_classes decimal_env _ _ _ _ _ _ _ _ _ _ E).
Defined.

(** ** More on the backbone *)

Section BackboneExtras.
Context `{External}.

Lemma create_model_shape (variant : string) (block_def : list (list string))
    (gp : global_params) (ap : arch_params) (num_classes : Z)
    (o : option override_params) (pretrained progress : bool) (kw : kwargs)
    (net : EfficientNet.t) :
  _create_model variant block_def gp ap num_classes o pretrained progress kw = Ok net ->
  length (EfficientNet.blocks net) = length block_def /\
  length (EfficientNet.out_channels net) = (length (EfficientNet.blocks net) + 3)%nat.
Proof.
  unfold _create_model. intros Hc. bind_inv Hc. rename a into model.
  assert (Hm : length (EfficientNet.blocks model) = length block_def /\
               length (EfficientNet.out_channels model)
               = (length (EfficientNet.blocks model) + 3)%nat).
  { split; [|exact (init_out_channels_length _ _ _ _ _ _ _ _ _ _ E)].
    apply init_ok in E as (ba & per & Hd & Hb & _).
    apply Forall2_length in Hd, Hb. congruence. }
  destruct pretrained; [|injection Hc as <-; exact Hm].
  bind_inv Hc. bind_inv Hc.
  destruct (negb (num_classes =? 1000)); injection Hc as <-; exact Hm.
Qed.

(** The block definitions of the three families have 7, 6 and 7 stages. *)
Lemma efficientnet_stage_count :
  exists bd gp, length bd = 7%nat /\
    forall variant ap nc o pretrained progress kw,
      _efficientnet variant ap nc o pretrained progress kw
      = _create_model variant bd gp ap nc o pretrained progress kw.
Proof. do 2 eexists. split; cycle 1. - intros. reflexivity. - reflexivity. Qed.

Lemma efficientnet_edge_stage_count :
  exists bd gp, length bd = 6%nat /\
    forall variant ap nc o pretrained progress kw,
      _efficientnet_edge variant ap nc o pretrained progress kw
      = _create_model variant bd gp ap nc o pretrained progress kw.
Proof. do 2 eexists. split; cycle 1. - intros. reflexivity. - reflexivity. Qed.

Lemma efficientnet_lite_stage_count :
  exists bd gp kwf, length bd = 7%nat /\
    forall variant ap nc o pretrained progress kw,
      _efficientnet_lite variant ap nc o pretrained progress kw
      = _create_model variant bd gp ap nc o pretrained progress (kwf kw).
Proof. do 3 eexists. split; cycle 1. - intros. reflexivity. - reflexivity. Qed.

Lemma family_shape
    (family : string -> arch_params -> Z -> option override_params -> bool -> bool ->
              kwargs -> result EfficientNet.t)
    (variant : string) (ap : arch_params) (nc : Z) (o : option override_params)
    (pretrained progress : bool) (kw : kwargs) (net : EfficientNet.t) :
  family = _efficientnet \/ family = _efficientnet_edge \/ family = _efficientnet_lite ->
  family variant ap nc o pretrained progress kw = Ok net ->
  (length (EfficientNet.blocks net) = 6%nat \/ length (EfficientNet.blocks net) = 7%nat) /\
  length (EfficientNet.out_channels net) = (length (EfficientNet.blocks net) + 3)%nat.
Proof.
  intros Hf Hb. destruct Hf as [-> | [-> | ->]].
  - destruct efficientnet_stage_count as (bd & gp & Hl & Heq). rewrite Heq in Hb.
    apply create_model_shape in Hb as [Hb Ho]. split; [right; congruence | exact Ho].
  - destruct efficientnet_edge_stage_count as (bd & gp & Hl & Heq). rewrite Heq in Hb.
    apply create_model_shape in Hb as [Hb Ho]. split; [left; congruence | exact Ho].
  - destruct efficientnet_lite_stage_count as (bd & gp & kwf & Hl & Heq). rewrite Heq in Hb.
    apply create_model_shape in Hb as [Hb Ho]. split; [right; congruence | exact Ho].
Qed.

Lemma supported_models_spec (model_name : string) :
  existsb (String.eqb model_name) supported_models = true <-> model_name ∈ supported_models.
Proof.
  rewrite existsb_exists. split.
  - intros (x & Hin & Heq). apply String.eqb_eq in Heq. subst x.
    apply list_elem_of_In. exact Hin.
  - intros Hin. exists model_name. split; [apply list_elem_of_In; exact Hin|].
    apply String.eqb_refl.
Qed.

(** X23: once [get_backbone] has built its network, the stage partitioner
    cannot fail on it: every model function gives 6 or 7 block stages, which
    become five stage groups with five channel counts.  The outcome is then
    decided by [feature_type] alone: a [Backbone] for 'tri_stage_fpn', a
    [ClassifierFeature] holding the network's classifier for 'classifier',
    and [NotImplementedError] for any other value, raised only after the
    network has been built. *)
Theorem get_backbone_outcome (model_name : string) (pretrained : bool)
    (feature_type : string) (n_classes : Z) (kw : kwargs) (net : EfficientNet.t) :
  backbone_network model_name pretrained n_classes kw = Ok net ->
  exists groups channels,
    _efficientnet_stages net = Ok (Sequential groups, channels) /\
    length groups = 5%nat /\ length channels = 5%nat /\
    get_backbone model_name pretrained feature_type n_classes kw
    = if String.eqb feature_type "tri_stage_fpn"
      then Ok (Backbone (Sequential groups) channels)
      else if String.eqb feature_type "classifier"
      then Ok (ClassifierFeature (Sequential groups)
                 (EfficientNet.get_classifier net) n_classes)
      else Raise NotImplementedError.
Proof.
  intros Hb. unfold get_backbone. rewrite Hb. cbn [bind].
  revert Hb. unfold backbone_network. intros Hb. bind_inv Hb. clear E.
  apply eval_model_ok in Hb as (family & variant & ap & Hf & Hb).
  apply (family_shape _ _ _ _ _ _ _ _ _ Hf) in Hb as [Hcount Hlen].
  destruct (efficientnet_stages_good_count net Hlen Hcount)
    as (groups & channels & c0 & c1 & c2 & c4 & cl & Hs & Hg & _ & _ & _ & _ & _ & Hch).
  exists groups, channels. rewrite Hs. cbn [bind].
  repeat split; auto. rewrite Hch. reflexivity.
Qed.

(** X24: [get_backbone] raises [RuntimeError] for every model name that is
    not a key of [model_urls], whatever the other arguments; when it returns
    a backbone, the name is a supported one and [feature_type] is one of
    'tri_stage_fpn' and 'classifier', the returned object being a [Backbone]
    for the first and a [ClassifierFeature] carrying [n_classes] for the
    second. *)
Theorem get_backbone_arguments (model_name : string) (pretrained : bool)
    (feature_type : string) (n_classes : Z) (kw : kwargs) :
  (model_name ∉ supported_models ->
   get_backbone model_name pretrained feature_type n_classes kw = Raise RuntimeError) /\
  (forall bb, get_backbone model_name pretrained feature_type n_classes kw = Ok bb ->
     model_name ∈ supported_models /\
     ((feature_type = "tri_stage_fpn" /\ exists s c, bb = Backbone s c) \/
      (feature_type = "classifier" /\
       exists s cl, bb = ClassifierFeature s cl n_classes))).
Proof.
  split.
  - intros Hn. unfold get_backbone, backbone_network.
    destruct (existsb (String.eqb model_name) supported_models) eqn:E; [|reflexivity].
    apply supported_models_spec in E. contradiction.
  - intros bb. unfold get_backbone. intros Hb.
    destruct (backbone_network model_name pretrained n_classes kw) as [net|e] eqn:En;
      [|discriminate].
    cbn [bind] in Hb.
    destruct (_efficientnet_stages net) as [[stages channels]|e] eqn:Es; [|discriminate].
    cbn [bind] in Hb.
    split.
    + revert En. unfold backbone_network.
      destruct (existsb (String.eqb model_name) supported_models) eqn:Em; [|discriminate].
      intros _. apply supported_models_spec. exact Em.
    + destruct (String.eqb_spec feature_type "tri_stage_fpn") as [->|_].
      * left. split; [reflexivity|]. injection Hb as <-. eauto.
      * destruct (String.eqb_spec feature_type "classifier") as [->|_]; [|discriminate].
        right. split; [reflexivity|]. injection Hb as <-. eauto.
Qed.

End BackboneExtras.

Lemma get_backbone_outcome_witness :
  exists bb, @get_backbone decimal_env "efficientnet_edge_s" false "classifier" 10 no_kwargs
             = Ok bb.
Proof.
  destruct (@backbone_network decimal_env "efficientnet_edge_s" false 10 no_kwargs)
    as [net|e] eqn:E; [|vm_compute in E; discriminate].
  destruct (@get_backbone_outcome decimal_env "efficientnet_edge_s" false "classifier" 10
              no_kwargs net E) as (groups & channels & _ & _ & _ & Hg).
  eexists. exact Hg.
Defined.

Lemma get_backbone_arguments_witness :
  @get_backbone decimal_env "resnet50" false "tri_stage_fpn" 1000 no_kwargs
  = Raise RuntimeError.
Proof.
  apply (proj1 (@get_backbone_arguments decimal_env "resnet50" false "tri_stage_fpn" 1000
                  no_kwargs)).
  intros Hin. apply supported_models_spec in Hin. vm_compute in Hin. discriminate.
Defined.

(** ** Channel counts inside a block *)

Section BlockChannels.
Context `{External}.

Lemma conv_channels (i o k s d : Z) (p : padding_arg) (bias dw : bool) :
  module_channels (Conv (create_conv2d i o k s d p bias dw)) i = Some o.
Proof.
  destruct (create_conv2d_channels i o k s d p bias dw) as (Hi & Ho & _).
  cbn. rewrite Hi, Ho, Z.eqb_refl. reflexivity.
Qed.

Lemma se_channels (c : Z) (r : Q) (base : option Z) (act : act_layer) (dv : Z) (q : Q) :
  module_channels (if Qgtb q 0 then SE (SqueezeExcite_init c r base act dv) else Identity) c
  = Some c.
Proof. destruct (Qgtb q 0); cbn; [rewrite !Z.eqb_refl|]; reflexivity. Qed.

Lemma drop_path_channels (q : Q) (c : Z) : module_channels (make_drop_path q) c = Some c.
Proof. unfold make_drop_path. destruct (Qgtb q 0); reflexivity. Qed.

Lemma bn_channels (n : Z) (kw : option norm_kwargs) :
  module_channels (BatchNorm2d n kw) n = Some n.
Proof. cbn. rewrite Z.eqb_refl. reflexivity. Qed.

Lemma app_channels (m : module) (x : expr) (c c' c'' : Z) :
  expr_channels c x = Some c' -> module_channels m c' = Some c'' ->
  expr_channels c (App m x) = Some c''.
Proof. intros Hx Hm. cbn. rewrite Hx. exact Hm. Qed.

Lemma residual_channels (cond : bool) (m : module) (e : expr) (i o : Z) :
  expr_channels i e = Some o ->
  (forall c, module_channels m c = Some c) ->
  (cond = true -> i = o) ->
  expr_channels i (if cond then Add (App m e) Input else e) = Some o.
Proof.
  intros He Hm Hc. destruct cond; [|exact He].
  cbn. rewrite He, Hm. rewrite <- (Hc eq_refl), Z.eqb_refl. reflexivity.
Qed.

Ltac layer_channels :=
  repeat (eapply app_channels;
          [|first [apply conv_channels | apply se_channels | apply bn_channels
                  | reflexivity]]);
  reflexivity.

(** X25: in a block built by any of the three constructors the layers fit
    together: taking for each layer the channel counts it was constructed
    with, the forward pass on an input of [in_channel] channels meets at
    every convolution and batch norm the count that layer declares, the two
    operands of the skip connection agree, and the result has [out_channel]
    channels. *)
Theorem block_forward_channels (a : block_args) :
  kernel_ok (a_kernel_size a) = true ->
  (exists b, DepthwiseSeparableConv.init a = Ok b /\
     expr_channels (a_in_channel a) (DepthwiseSeparableConv.forward b Input)
     = Some (a_out_channel a)) /\
  (exists b, InvertedResidualBlock.init a = Ok b /\
     expr_channels (a_in_channel a) (InvertedResidualBlock.forward b Input)
     = Some (a_out_channel a)) /\
  (exists b, EdgeResidual.init a = Ok b /\
     expr_channels (a_in_channel a) (EdgeResidual.forward b Input)
     = Some (a_out_channel a)).
Proof.
  intros Hk.
  unfold DepthwiseSeparableConv.init, InvertedResidualBlock.init, EdgeResidual.init.
  rewrite Hk. cbn [py_assert bind].
  split; [|split]; (eexists; split; [reflexivity|]).
  - unfold DepthwiseSeparableConv.forward, DepthwiseSeparableConv.branch.
    cbn [DepthwiseSeparableConv.has_residual DepthwiseSeparableConv.conv_dw
         DepthwiseSeparableConv.bn1 DepthwiseSeparableConv.act1 DepthwiseSeparableConv.se
         DepthwiseSeparableConv.conv_pw DepthwiseSeparableConv.bn2
         DepthwiseSeparableConv.drop_path].
    apply residual_channels; [layer_channels | apply drop_path_channels |].
    intros Hc. apply andb_true_iff in Hc as [Hc _].
    apply andb_true_iff in Hc as [_ Hc]. apply Z.eqb_eq in Hc. exact Hc.
  - unfold InvertedResidualBlock.forward, InvertedResidualBlock.branch.
    cbn [InvertedResidualBlock.has_residual InvertedResidualBlock.conv_dw
         InvertedResidualBlock.bn1 InvertedResidualBlock.act1 InvertedResidualBlock.se
         InvertedResidualBlock.conv_pw InvertedResidualBlock.bn2
         InvertedResidualBlock.act2 InvertedResidualBlock.conv_pwl
         InvertedResidualBlock.bn3 InvertedResidualBlock.drop_path].
    apply residual_channels; [layer_channels | apply drop_path_channels |].
    intros Hc. apply andb_true_iff in Hc as [Hc _].
    apply andb_true_iff in Hc as [Hc _]. apply Z.eqb_eq in Hc. exact Hc.
  - unfold EdgeResidual.forward, EdgeResidual.branch.
    cbn [EdgeResidual.has_residual EdgeResidual.conv_exp EdgeResidual.bn1
         EdgeResidual.act1 EdgeResidual.se EdgeResidual.conv_pwl EdgeResidual.bn2
         EdgeResidual.drop_path].
    apply residual_channels; [layer_channels | apply drop_path_channels |].
    intros Hc. apply andb_true_iff in Hc as [Hc _].
    apply andb_true_iff in Hc as [Hc _]. apply Z.eqb_eq in Hc. exact Hc.
Qed.

End BlockChannels.

Lemma block_forward_channels_witness :
  exists b, @InvertedResidualBlock.init decimal_env sample_args = Ok b /\
            expr_channels 16 (InvertedResidualBlock.forward b Input) = Some 16.
Proof.
  exact (proj1 (proj2 (@block_forward_channels decimal_env sample_args eq_refl))).
Defined.
